(** * Roadman: lexer, parser, tree-walking interpreter and transpiler

    A shallow embedding of [src/lexer.py], [src/ast.py], [src/parser.py],
    [src/interpreter.py] and [src/transpiler.py], and the properties of the
    specification settled against it.

    Conventions of the embedding:
    - a Python [str] is a [string] whose characters are the code points
      U+0000..U+00FF (sources with characters beyond Latin-1 are not covered);
    - a Python [float] is a primitive binary64 [float];
    - a Python [dict] with string keys is a [gmap string _];
    - objects that are shared and mutated (the [Environment]s) live in a
      store and are referred to by their index in it;
    - an exception is a value of a sum: every function that can raise
      returns either its result or the exception it raised;
    - recursion that the source leaves to the host stack takes a [fuel]
      that bounds its depth; running out of it is a result of its own and is
      never confused with a value or with an exception. *)

From Stdlib Require Import Floats ZArith Ascii String.
From stdpp Require Import gmap strings list pretty.

Set Warnings "-register-all".

(* String literals are read in [string_scope]; [++] stays list append and
   [+:+] is string append; comparisons are those of [nat]. *)
Local Open Scope string_scope.
Local Open Scope list_scope.
Local Open Scope nat_scope.

(** ** The host: characters and strings of Python *)

Module Py.

Definition code (c : ascii) : nat := nat_of_ascii c.

Definition between (lo hi n : nat) : bool := (lo <=? n) && (n <=? hi).

(** [str.isdigit] on U+0000..U+00FF: the ASCII digits and the superscripts
    two, three and one. *)
Definition isdigit (c : ascii) : bool :=
  let n := code c in
  between 48 57 n || (n =? 178) || (n =? 179) || (n =? 185).

(** [str.isalpha] on U+0000..U+00FF. *)
Definition isalpha (c : ascii) : bool :=
  let n := code c in
  between 65 90 n || between 97 122 n
  || (n =? 170) || (n =? 181) || (n =? 186)
  || between 192 214 n || between 216 246 n || between 248 255 n.

(** [str.isalnum]: alphabetic, decimal, digit or numeric (the vulgar
    fractions U+00BC..U+00BE are numeric). *)
Definition isalnum (c : ascii) : bool :=
  isalpha c || isdigit c || between 188 190 (code c).

Definition NUL : ascii := "000"%char.
Definition TAB : ascii := "009"%char.
Definition LF : ascii := "010"%char.
Definition CR : ascii := "013"%char.
Definition QUOTE : ascii := "034"%char.

Definition chr (c : ascii) : string := String c EmptyString.

(** [s[i]] for an index in range, [NUL] otherwise (the lexer never indexes
    out of range: every [_advance] is guarded by [_is_at_end]). *)
Definition index (s : string) (i : nat) : ascii :=
  match String.get i s with Some c => c | None => NUL end.

(** [s[i:j]] for [0 <= i], [0 <= j]. *)
Definition slice (s : string) (i j : nat) : string :=
  String.substring i (j - i) s.

(** [sep.join(l)] *)
Fixpoint join (sep : string) (l : list string) : string :=
  match l with
  | [] => ""
  | [x] => x
  | x :: l' => x +:+ sep +:+ join sep l'
  end.

(** [str(n)] for a non-negative [int]. *)
Definition str_nat (n : nat) : string := pretty n.

Definition hex_digit (n : nat) : ascii :=
  if n <? 10 then ascii_of_nat (48 + n) else ascii_of_nat (87 + n).

Fixpoint hex_digits (fuel n : nat) (acc : string) : string :=
  match fuel with
  | O => acc
  | S fuel' =>
      let acc := String (hex_digit (n mod 16)) acc in
      if n <? 16 then acc else hex_digits fuel' (n / 16) acc
  end.

(** [format(n, 'x')] *)
Definition hex (n : nat) : string := hex_digits (S n) n "".

(** [str.isprintable] on one character of U+0000..U+00FF. *)
Definition isprintable (c : ascii) : bool :=
  let n := code c in
  between 32 126 n || (between 161 255 n && negb (n =? 173)).

Definition contains (c : ascii) (s : string) : bool :=
  existsb (Ascii.eqb c) (list_ascii_of_string s).

Definition escape (quote c : ascii) : string :=
  if Ascii.eqb c quote || Ascii.eqb c "\" then String "\" (chr c)
  else if Ascii.eqb c TAB then "\t"
  else if Ascii.eqb c LF then "\n"
  else if Ascii.eqb c CR then "\r"
  else if isprintable c then chr c
  else "\x" +:+ chr (hex_digit (code c / 16)) +:+ chr (hex_digit (code c mod 16)).

(** [repr(s)] of a [str]: single quotes, unless [s] has a single quote and
    no double quote; the quote, the backslash and what does not print are
    escaped. *)
Definition repr_str (s : string) : string :=
  let quote : ascii :=
    if contains "'" s && negb (contains QUOTE s) then QUOTE else "'"%char in
  chr quote
  +:+ String.concat "" (map (escape quote) (list_ascii_of_string s))
  +:+ chr quote.

End Py.

(** ** Tokens ([src/lexer.py]) *)

Module Token.
Record t := mk { type : string; value : string; line : nat; col : nat }.
End Token.
Abbreviation Token := Token.t.

(** ** The lexer ([src/lexer.py]) *)

Module Lexer.

(** The fields of a [Lexer] object; [stdout] collects what the lexer
    prints, one entry per [print]. *)
Record t := mk {
  source : string;
  tokens : list Token;
  current : nat;
  line : nat;
  col : nat;
  start : nat;
  start_col : nat;
  stdout : list string
}.

Definition _load_keywords : gmap string string :=
  list_to_map
    [ ("innit", "INNIT"); ("elseway", "ELSEWAY"); ("loopz", "LOOPZ");
      ("stopit", "STOPIT"); ("switchup", "SWITCHUP"); ("casez", "CASEZ");
      ("defend", "DEFEND"); ("conste", "CONSTE"); ("gimme", "GIMME");
      ("fam", "FAM"); ("returnz", "RETURNZ"); ("true", "TRUE");
      ("false", "FALSE");
      ("digit", "TYPE_DIGIT"); ("word", "TYPE_WORD");
      ("boola", "TYPE_BOOLA"); ("listz", "TYPE_LISTZ");
      ("mapz", "TYPE_MAPZ") ].

Definition init (source_code : string) : t :=
  mk source_code [] 0 1 1 0 0 [].

Definition set_pos (lx : t) (current' line' col' : nat) : t :=
  mk (source lx) (tokens lx) current' line' col' (start lx) (start_col lx)
     (stdout lx).

Definition _is_at_end (lx : t) : bool :=
  String.length (source lx) <=? current lx.

(** [_advance] returns the character read and the lexer after it. *)
Definition _advance (lx : t) : ascii * t :=
  (Py.index (source lx) (current lx),
   set_pos lx (current lx + 1) (line lx) (col lx + 1)).

Definition advance_ (lx : t) : t := snd (_advance lx).

Definition _peek (lx : t) : ascii :=
  if _is_at_end lx then Py.NUL else Py.index (source lx) (current lx).

Definition _peek_next (lx : t) : ascii :=
  if String.length (source lx) <=? current lx + 1 then Py.NUL
  else Py.index (source lx) (current lx + 1).

Definition _add_token (token_type : string) (value : option string) (lx : t) : t :=
  let text := Py.slice (source lx) (start lx) (current lx) in
  let tok :=
    Token.mk token_type (match value with Some v => v | None => text end)
             (line lx) (start_col lx) in
  mk (source lx) (tokens lx ++ [tok]) (current lx) (line lx) (col lx)
     (start lx) (start_col lx) (stdout lx).

Definition print (msg : string) (lx : t) : t :=
  mk (source lx) (tokens lx) (current lx) (line lx) (col lx)
     (start lx) (start_col lx) (stdout lx ++ [msg]).

(** [while cond: body], unrolled at most [n] times. Every loop of the lexer
    consumes one character per turn and stops at the end of the source, so
    the number of characters left is always enough turns. *)
Fixpoint while (n : nat) (cond : t -> bool) (body : t -> t) (lx : t) : t :=
  match n with
  | O => lx
  | S n' => if cond lx then while n' cond body (body lx) else lx
  end.

Definition remaining (lx : t) : nat := String.length (source lx) - current lx.

Definition _handle_operator_or_punct (char : ascii) (lx : t) : t :=
  let next := _peek lx in
  (* Two-character tokens *)
  if Ascii.eqb char "=" && Ascii.eqb next "=" then advance_ (_add_token "EQ_EQ" None lx)
  else if Ascii.eqb char "!" && Ascii.eqb next "=" then advance_ (_add_token "BANG_EQ" None lx)
  else if Ascii.eqb char "<" && Ascii.eqb next "=" then advance_ (_add_token "LESS_EQ" None lx)
  else if Ascii.eqb char ">" && Ascii.eqb next "=" then advance_ (_add_token "GREATER_EQ" None lx)
  else if Ascii.eqb char "&" && Ascii.eqb next "&" then advance_ (_add_token "AND" None lx)
  else if Ascii.eqb char "|" && Ascii.eqb next "|" then advance_ (_add_token "OR" None lx)
  (* One-character tokens *)
  else if Ascii.eqb char "(" then _add_token "LPAREN" None lx
  else if Ascii.eqb char ")" then _add_token "RPAREN" None lx
  else if Ascii.eqb char "{" then _add_token "LBRACE" None lx
  else if Ascii.eqb char "}" then _add_token "RBRACE" None lx
  else if Ascii.eqb char "[" then _add_token "LBRACKET" None lx
  else if Ascii.eqb char "]" then _add_token "RBRACKET" None lx
  else if Ascii.eqb char "," then _add_token "COMMA" None lx
  else if Ascii.eqb char "." then _add_token "DOT" None lx
  else if Ascii.eqb char "-" then _add_token "MINUS" None lx
  else if Ascii.eqb char "+" then _add_token "PLUS" None lx
  else if Ascii.eqb char ";" then _add_token "SEMICOLON" None lx
  else if Ascii.eqb char "*" then _add_token "STAR" None lx
  else if Ascii.eqb char "%" then _add_token "PERCENT" None lx
  else if Ascii.eqb char "!" then _add_token "BANG" None lx
  else if Ascii.eqb char "=" then _add_token "EQ" None lx
  else if Ascii.eqb char "<" then _add_token "LESS" None lx
  else if Ascii.eqb char ">" then _add_token "GREATER" None lx
  else if Ascii.eqb char ":" then _add_token "COLON" None lx
  else
    print ("[" +:+ Py.str_nat (line lx) +:+ ":" +:+ Py.str_nat (col lx)
           +:+ "] Unexpected character: " +:+ Py.chr char) lx.

Definition _identifier (lx : t) : t :=
  let lx :=
    while (remaining lx)
      (fun lx => Py.isalnum (_peek lx) || Ascii.eqb (_peek lx) "_")
      advance_ lx in
  let text := Py.slice (source lx) (start lx) (current lx) in
  let token_type := default "IDENTIFIER" (_load_keywords !! text) in
  _add_token token_type None lx.

Definition _number (lx : t) : t :=
  let digits lx := while (remaining lx) (fun lx => Py.isdigit (_peek lx)) advance_ lx in
  let lx := digits lx in
  let lx :=
    if Ascii.eqb (_peek lx) "." && Py.isdigit (_peek_next lx)
    then digits (advance_ lx)
    else lx in
  _add_token "DIGIT" (Some (Py.slice (source lx) (start lx) (current lx))) lx.

Definition _string (lx : t) : t :=
  let lx :=
    while (remaining lx)
      (fun lx => negb (Ascii.eqb (_peek lx) Py.QUOTE) && negb (_is_at_end lx))
      (fun lx =>
         let lx :=
           if Ascii.eqb (_peek lx) Py.LF
           then set_pos lx (current lx) (line lx + 1) (col lx)
           else lx in
         advance_ lx)
      lx in
  if _is_at_end lx then
    print ("[" +:+ Py.str_nat (line lx) +:+ ":" +:+ Py.str_nat (col lx)
           +:+ "] Unterminated string.") lx
  else
    let lx := advance_ lx in (* The closing quote *)
    let value := Py.slice (source lx) (start lx + 1) (current lx - 1) in
    _add_token "WORD" (Some value) lx.

Definition _scan_token (lx : t) : t :=
  let lx :=
    mk (source lx) (tokens lx) (current lx) (line lx) (col lx)
       (current lx) (col lx) (stdout lx) in
  let (char, lx) := _advance lx in
  if Ascii.eqb char " " || Ascii.eqb char Py.CR || Ascii.eqb char Py.TAB then lx
  else if Ascii.eqb char Py.LF then set_pos lx (current lx) (line lx + 1) 1
  else if Ascii.eqb char "/" then
    if Ascii.eqb (_peek lx) "/" then
      while (remaining lx)
        (fun lx => negb (Ascii.eqb (_peek lx) Py.LF) && negb (_is_at_end lx))
        advance_ lx
    else if Ascii.eqb (_peek lx) "*" then
      let lx := advance_ lx in (* consume '*' *)
      let lx :=
        while (remaining lx)
          (fun lx =>
             negb (Ascii.eqb (_peek lx) "*" && Ascii.eqb (_peek_next lx) "/")
             && negb (_is_at_end lx))
          (fun lx =>
             let lx :=
               if Ascii.eqb (_peek lx) Py.LF
               then set_pos lx (current lx) (line lx + 1) 1
               else lx in
             advance_ lx)
          lx in
      if negb (_is_at_end lx) then advance_ (advance_ lx) else lx
    else _add_token "SLASH" None lx
  else if Ascii.eqb char Py.QUOTE then _string lx
  else if Py.isdigit char then _number lx
  else if Py.isalpha char || Ascii.eqb char "_" then _identifier lx
  else _handle_operator_or_punct char lx.

(** [tokenize] returns the lexer too, for what it printed. *)
Definition run (source_code : string) : t :=
  let lx := init source_code in
  let lx := while (remaining lx) (fun lx => negb (_is_at_end lx)) _scan_token lx in
  mk (source lx) (tokens lx ++ [Token.mk "EOF" "" (line lx) (col lx)])
     (current lx) (line lx) (col lx) (start lx) (start_col lx) (stdout lx).

Definition tokenize (source_code : string) : list Token :=
  tokens (run source_code).

End Lexer.

(** ** The host: floats of Python

    [float(s)], [repr(x)] and [x % y], computed exactly over [Z] and rounded
    once, as the host does. *)

Module PyFloat.

Local Open Scope Z_scope.

Definition prec : Z := 53.
Definition emax : Z := 1024.

Definition nan : float := PrimFloat.nan.
Definition inf (neg : bool) : float :=
  if neg then PrimFloat.neg_infinity else PrimFloat.infinity.
Definition zero (neg : bool) : float :=
  if neg then PrimFloat.neg_zero else PrimFloat.zero.

(** The binary64 nearest to [N / D] (ties to even), for [0 < N], [0 < D]:
    the quotient is taken with 64 bits or more, and what is left of it
    tells on which side of the half-way point the exact value lies. *)
Definition round_ratio (neg : bool) (N D : Z) : float :=
  let s := Z.max 0 (64 + Z.log2_up D - Z.log2 N) in
  let q := (N * 2 ^ s) / D in
  let r := (N * 2 ^ s) mod D in
  let loc := if r =? 0 then loc_Exact else loc_Inexact (2 * r ?= D) in
  SF2Prim (binary_round_aux prec emax neg q (- s) loc).

(** The binary64 nearest to [M * 10 ^ e10], for [0 <= M]. Beyond 10^400 the
    result is infinite and below 10^-400 it is zero, whatever [M]'s digits. *)
Definition of_decimal (neg : bool) (M e10 : Z) : float :=
  if M =? 0 then zero neg
  else if 0 <=? e10 then round_ratio neg (M * 10 ^ Z.min e10 400) 1
  else if Z.log2 M + 400 <? - e10 then zero neg
  else round_ratio neg M (10 ^ (- e10)).

Definition is_digit (c : ascii) : bool := Py.between 48 57 (Py.code c).

Definition digit_value (c : ascii) : Z := Z.of_nat (Py.code c) - 48.

Definition digits_value (l : list ascii) : Z :=
  fold_left (fun acc c => acc * 10 + digit_value c) l 0.

(** Blanks [float()] strips at both ends: ASCII white space, and U+0085 and
    U+00A0, which it reads as a space. *)
Definition is_space (c : ascii) : bool :=
  let n := Py.code c in
  Py.between 9 13 n || (n =? 32)%nat || (n =? 133)%nat || (n =? 160)%nat.

Fixpoint drop_spaces (l : list ascii) : list ascii :=
  match l with
  | c :: l' => if is_space c then drop_spaces l' else l
  | [] => []
  end.

Definition strip (l : list ascii) : list ascii :=
  rev (drop_spaces (rev (drop_spaces l))).

(** Underscores are accepted between two digits only, and dropped. *)
Fixpoint drop_underscores (prev : ascii) (l : list ascii) : option (list ascii) :=
  match l with
  | [] => if Ascii.eqb prev "_" then None else Some []
  | c :: l' =>
      if Ascii.eqb c "_" then
        if is_digit prev then drop_underscores c l' else None
      else if Ascii.eqb prev "_" && negb (is_digit c) then None
      else option_map (cons c) (drop_underscores c l')
  end.

Fixpoint take_digits (l : list ascii) : list ascii * list ascii :=
  match l with
  | c :: l' =>
      if is_digit c then let (d, r) := take_digits l' in (c :: d, r) else ([], l)
  | [] => ([], [])
  end.

Definition take_sign (l : list ascii) : bool * list ascii :=
  match l with
  | c :: l' =>
      if Ascii.eqb c "-" then (true, l')
      else if Ascii.eqb c "+" then (false, l')
      else (false, l)
  | [] => (false, [])
  end.

Definition lower (c : ascii) : ascii :=
  if Py.between 65 90 (Py.code c) then ascii_of_nat (Py.code c + 32) else c.

Definition spells (word : string) (l : list ascii) : bool :=
  String.eqb (string_of_list_ascii (map lower l)) word.

(** The exponent part: nothing, or [e] or [E], a sign and one digit or more. *)
Definition exponent (l : list ascii) : option Z :=
  match l with
  | [] => Some 0
  | c :: l' =>
      if Ascii.eqb (lower c) "e" then
        let (neg, l1) := take_sign l' in
        let (d, rest) := take_digits l1 in
        match d, rest with
        | _ :: _, [] => Some (if neg then - digits_value d else digits_value d)
        | _, _ => None
        end
      else None
  end.

(** [float(s)] for a string [s]; [None] is [ValueError]. *)
Definition of_string (s : string) : option float :=
  match drop_underscores Py.NUL (strip (list_ascii_of_string s)) with
  | None => None
  | Some l =>
      let (neg, l) := take_sign l in
      if spells "inf" l || spells "infinity" l then Some (inf neg)
      else if spells "nan" l then Some nan
      else
        let (ip, l1) := take_digits l in
        let (fp, l2) :=
          match l1 with
          | c :: r => if Ascii.eqb c "." then take_digits r else ([], l1)
          | [] => ([], [])
          end in
        match ip ++ fp with
        | [] => None
        | m =>
            match exponent l2 with
            | None => None
            | Some e =>
                Some (of_decimal neg (digits_value m) (e - Z.of_nat (length fp)))
            end
        end
  end.

(** *** [repr]: the shortest decimal that reads back as the same float *)

(** [c * 10 ^ k] compared with [x * 2 ^ e]. *)
Definition cmp_dec_bin (c k x e : Z) : comparison :=
  (c * 10 ^ Z.max k 0 * 2 ^ Z.max (- e) 0 ?= x * 2 ^ Z.max e 0 * 10 ^ Z.max (- k) 0).

(** The integer part of [x * 2 ^ e / 10 ^ k]. *)
Definition floor_dec (x e k : Z) : Z :=
  (x * 2 ^ Z.max e 0 * 10 ^ Z.max (- k) 0) / (10 ^ Z.max k 0 * 2 ^ Z.max (- e) 0).

(** The [d] with [10 ^ (d - 1) <= x * 2 ^ e < 10 ^ d]: an estimate from the
    binary logarithm, moved by one while it is off. *)
Definition decimal_point (x e : Z) : Z :=
  let step d :=
    match cmp_dec_bin 1 d x e with
    | Gt => match cmp_dec_bin 1 (d - 1) x e with Gt => d - 1 | _ => d end
    | _ => d + 1
    end in
  step (step (step (step (((Z.log2 x + e) * 30103) / 100000)))).

(** Does [c * 10 ^ k] read back as the float [m * 2 ^ e]? The float's
    interval reaches half-way to its two neighbours (a quarter below, on the
    first float of a binade), ends included when [m] is even. *)
Definition reads_back (m e c k : Z) : bool :=
  let below := if (m =? 2 ^ 52) && (-1074 <? e) then 1 else 2 in
  let lo := cmp_dec_bin c k (4 * m - below) (e - 2) in
  let hi := cmp_dec_bin c k (4 * m + 2) (e - 2) in
  match lo, hi with
  | Gt, Lt => true
  | Eq, _ | _, Eq => Z.even m
  | _, _ => false
  end.

(** The [n]-digit decimal nearest to [m * 2 ^ e] that reads back as it. *)
Definition candidate (m e d n : Z) : option (Z * Z) :=
  let k := d - n in
  let c := floor_dec m e k in
  match reads_back m e c k, reads_back m e (c + 1) k with
  | true, true =>
      match cmp_dec_bin (2 * c + 1) k (2 * m) e with
      | Gt => Some (c, k)
      | Lt => Some (c + 1, k)
      | Eq => Some (if Z.even c then c else c + 1, k)
      end
  | true, false => Some (c, k)
  | false, true => Some (c + 1, k)
  | false, false => None
  end.

Fixpoint shortest (fuel : nat) (m e d n : Z) : Z * Z :=
  match fuel with
  | O => (floor_dec m e (d - n), d - n)
  | S fuel' =>
      match candidate m e d n with
      | Some r => r
      | None => shortest fuel' m e d (n + 1)
      end
  end.

Fixpoint strip_zeros (fuel : nat) (c k : Z) : Z * Z :=
  match fuel with
  | O => (c, k)
  | S fuel' => if c mod 10 =? 0 then strip_zeros fuel' (c / 10) (k + 1) else (c, k)
  end.

Definition zeros (n : Z) : string :=
  string_of_list_ascii (repeat "0"%char (Z.to_nat n)).

(** [repr(x)] and [str(x)] of a float, as [float_repr_style = 'short']
    prints them: positional when the decimal point falls within
    [-4 < decpt <= 16], with an exponent otherwise. *)
Definition repr (x : float) : string :=
  match Prim2SF x with
  | S754_nan => "nan"
  | S754_infinity neg => if neg then "-inf" else "inf"
  | S754_zero neg => if neg then "-0.0" else "0.0"
  | S754_finite neg mp e =>
      let m := Z.pos mp in
      let (c0, k0) := shortest 17 m e (decimal_point m e) 1 in
      let (c, k) := strip_zeros 20 c0 k0 in
      let digits := pretty (Z.to_N c) in
      let ndigits := Z.of_nat (String.length digits) in
      let decpt := k + ndigits in
      let body :=
        if (-4 <? decpt) && (decpt <=? 16) then
          if decpt <=? 0 then "0." +:+ zeros (- decpt) +:+ digits
          else if ndigits <=? decpt then digits +:+ zeros (decpt - ndigits) +:+ ".0"
          else Py.slice digits 0 (Z.to_nat decpt) +:+ "."
               +:+ Py.slice digits (Z.to_nat decpt) (Z.to_nat ndigits)
        else
          let ex := decpt - 1 in
          let mant :=
            if ndigits =? 1 then digits
            else Py.slice digits 0 1 +:+ "." +:+ Py.slice digits 1 (Z.to_nat ndigits) in
          let exs := pretty (Z.to_N (Z.abs ex)) in
          mant +:+ "e" +:+ (if ex <? 0 then "-" else "+")
               +:+ (if Z.abs ex <? 10 then "0" else "") +:+ exs in
      (if neg then "-" else "") +:+ body
  end.

(** *** [x % y] *)

(** C's [fmod] on two finite floats, the second one not zero: the remainder
    of the magnitudes, exact, with the sign of the first. *)
Definition fmod_finite (sx : bool) (mx ex my ey : Z) : float :=
  let e := Z.min ex ey in
  let r := (mx * 2 ^ (ex - e)) mod (my * 2 ^ (ey - e)) in
  if r =? 0 then zero sx
  else SF2Prim (binary_round_aux prec emax sx r e loc_Exact).

Definition fmod (x y : float) : float :=
  match Prim2SF x, Prim2SF y with
  | S754_nan, _ | _, S754_nan => nan
  | S754_infinity _, _ => nan
  | _, S754_zero _ => nan
  | _, S754_infinity _ => x
  | S754_zero _, _ => x
  | S754_finite sx mx ex, S754_finite _ my ey =>
      fmod_finite sx (Z.pos mx) ex (Z.pos my) ey
  end.

(** [x % y] on floats; [None] is [ZeroDivisionError]. The result takes the
    sign of the divisor. *)
Definition rem (x y : float) : option float :=
  if PrimFloat.eqb y PrimFloat.zero then None
  else
    let m := fmod x y in
    if PrimFloat.eqb m PrimFloat.zero then
      Some (zero (PrimFloat.ltb y PrimFloat.zero))
    else if Bool.eqb (PrimFloat.ltb y PrimFloat.zero) (PrimFloat.ltb m PrimFloat.zero)
    then Some m
    else Some (PrimFloat.add m y).

(** [True] is 1 and [False] is 0 where a [bool] meets a float. *)
Definition of_bool (b : bool) : float :=
  if b then PrimFloat.one else PrimFloat.zero.

End PyFloat.

(** ** The syntax tree ([src/ast.py]) *)

Module ast.

(** What the parser stores in a [Literal]: [False] or [True], a [float] or
    a [str]. *)
Inductive Any : Type :=
| Bool (b : bool)
| Float (x : float)
| Str (s : string).

(** [Variable] is written [Variable_]: the bare word is reserved. *)
Inductive Expression : Type :=
| Literal (token : Token) (value : Any)
| Variable_ (token : Token)
| UnaryOp (operator : Token) (right : Expression)
| BinaryOp (left : Expression) (operator : Token) (right : Expression)
| Grouping (expression : Expression)
| Assignment (name : Token) (value : Expression)
| FunctionCall (callee : Expression) (paren : Token) (arguments : list Expression)
| ListLiteral (elements : list Expression).

(** The [body] of a [FunctionDeclaration] is a [Block]: it is kept as that
    block's statement list. *)
Inductive Statement : Type :=
| ExpressionStatement (expression : Expression)
| Block (statements : list Statement)
| VarDeclaration (name : Token) (initializer : option Expression) (constant : bool)
| IfStatement (condition : Expression) (then_branch : Statement)
              (else_branch : option Statement)
| WhileLoop (condition : Expression) (body : Statement)
| BreakStatement (keyword : Token)
| FunctionDeclaration (name : Token) (params : list Token) (body : list Statement)
| ReturnStatement (keyword : Token) (value : option Expression).

Record Program : Type := mkProgram { statements : list Statement }.

End ast.

(** ** The parser ([src/parser.py]) *)

Module Parser.

(** What a parser method can raise: [ParseError], the [ValueError] of
    [float()], and the [IndexError] of [tokens[current]] on a token list
    that does not end in [EOF]. *)
Inductive error : Type :=
| ParseError (msg : string)
| ValueError
| IndexError.

(** The outcome of a method on a parser whose [current] is given: a value
    and the new [current], or an exception. *)
Inductive result (A : Type) : Type :=
| Ok (a : A) (current : nat)
| Raise (e : error)
| OutOfFuel.
Arguments Ok {A} a current.
Arguments Raise {A} e.
Arguments OutOfFuel {A}.

Definition M (A : Type) : Type := nat -> result A.

Definition ret {A} (a : A) : M A := fun current => Ok a current.
Definition raise {A} (e : error) : M A := fun _ => Raise e.
Definition out_of_fuel {A} : M A := fun _ => OutOfFuel.
Definition bind {A B} (m : M A) (k : A -> M B) : M B :=
  fun current =>
    match m current with
    | Ok a current' => k a current'
    | Raise e => Raise e
    | OutOfFuel => OutOfFuel
    end.

Notation "x <- m ;; k" := (bind m (fun x => k))
  (at level 100, m at next level, right associativity).
Notation "m ;;; k" := (bind m (fun _ => k))
  (at level 100, right associativity).

Definition _error (token : Token) (message : string) : error :=
  let error_msg :=
    "[line " +:+ Py.str_nat (Token.line token) +:+ ":"
    +:+ Py.str_nat (Token.col token) +:+ "] Error" in
  let error_msg :=
    if String.eqb (Token.type token) "EOF" then error_msg +:+ " at end"
    else error_msg +:+ " at '" +:+ Token.value token +:+ "'" in
  ParseError (error_msg +:+ ": " +:+ message).

Section WithTokens.

Variable tokens : list Token.

(** [tokens[i]] for an [int] [i >= -1]; [-1] is the last token. *)
Definition token_at (i : nat) : M Token :=
  match tokens !! i with
  | Some t => ret t
  | None => raise IndexError
  end.

Definition _peek : M Token := fun current => token_at current current.

Definition _previous : M Token :=
  fun current =>
    match current with
    | O => token_at (length tokens - 1) current
    | S i => token_at i current
    end.

Definition _is_at_end : M bool :=
  t <- _peek ;; ret (String.eqb (Token.type t) "EOF").

Definition _advance : M Token :=
  at_end <- _is_at_end ;;
  (if at_end then ret tt else fun current => Ok tt (current + 1)) ;;;
  _previous.

Definition _check (token_type : string) : M bool :=
  at_end <- _is_at_end ;;
  if at_end then ret false
  else t <- _peek ;; ret (String.eqb (Token.type t) token_type).

Fixpoint _match (types : list string) : M bool :=
  match types with
  | [] => ret false
  | t_type :: types' =>
      found <- _check t_type ;;
      if found then _advance ;;; ret true else _match types'
  end.

Definition _consume (token_type message : string) : M Token :=
  found <- _check token_type ;;
  if found then _advance
  else t <- _peek ;; raise (_error t message).

(** [while self._match(...): ...] of the binary levels. *)
Fixpoint binary_loop (fuel : nat) (types : list string)
    (operand : M ast.Expression) (expr : ast.Expression) : M ast.Expression :=
  match fuel with
  | O => out_of_fuel
  | S fuel' =>
      found <- _match types ;;
      if found then
        operator <- _previous ;;
        right <- operand ;;
        binary_loop fuel' types operand (ast.BinaryOp expr operator right)
      else ret expr
  end.

(** [while self._match("COMMA"): items.append(...)] *)
Fixpoint comma_loop {A} (fuel : nat) (item : M A) (items : list A) : M (list A) :=
  match fuel with
  | O => out_of_fuel
  | S fuel' =>
      found <- _match ["COMMA"] ;;
      if found then x <- item ;; comma_loop fuel' item (items ++ [x])
      else ret items
  end.

(** The items between two brackets: none when [closing] comes at once. *)
Definition comma_separated {A} (fuel : nat) (closing : string) (item : M A)
    : M (list A) :=
  closed <- _check closing ;;
  if closed then ret []
  else x <- item ;; comma_loop fuel item [x].

(** [while True: if self._match("LPAREN"): ... else: break] *)
Fixpoint call_loop (fuel : nat) (finish_call : ast.Expression -> M ast.Expression)
    (expr : ast.Expression) : M ast.Expression :=
  match fuel with
  | O => out_of_fuel
  | S fuel' =>
      found <- _match ["LPAREN"] ;;
      if found then expr' <- finish_call expr ;; call_loop fuel' finish_call expr'
      else ret expr
  end.

Fixpoint _expression (fuel : nat) : M ast.Expression :=
  match fuel with
  | O => out_of_fuel
  | S n => _assignment n
  end

with _assignment (fuel : nat) : M ast.Expression :=
  match fuel with
  | O => out_of_fuel
  | S n =>
      expr <- _logical_or n ;;
      found <- _match ["EQ"] ;;
      if found then
        equals <- _previous ;;
        value <- _assignment n ;;
        match expr with
        | ast.Variable_ token => ret (ast.Assignment token value)
        | _ =>
            (* the error is built and dropped: the source has no [raise] here *)
            let _ := _error equals "Invalid assignment target." in
            ret expr
        end
      else ret expr
  end

with _logical_or (fuel : nat) : M ast.Expression :=
  match fuel with
  | O => out_of_fuel
  | S n => expr <- _logical_and n ;; binary_loop n ["OR"] (_logical_and n) expr
  end

with _logical_and (fuel : nat) : M ast.Expression :=
  match fuel with
  | O => out_of_fuel
  | S n => expr <- _equality n ;; binary_loop n ["AND"] (_equality n) expr
  end

with _equality (fuel : nat) : M ast.Expression :=
  match fuel with
  | O => out_of_fuel
  | S n =>
      expr <- _comparison n ;;
      binary_loop n ["BANG_EQ"; "EQ_EQ"] (_comparison n) expr
  end

with _comparison (fuel : nat) : M ast.Expression :=
  match fuel with
  | O => out_of_fuel
  | S n =>
      expr <- _term n ;;
      binary_loop n ["GREATER"; "GREATER_EQ"; "LESS"; "LESS_EQ"] (_term n) expr
  end

with _term (fuel : nat) : M ast.Expression :=
  match fuel with
  | O => out_of_fuel
  | S n => expr <- _factor n ;; binary_loop n ["MINUS"; "PLUS"] (_factor n) expr
  end

with _factor (fuel : nat) : M ast.Expression :=
  match fuel with
  | O => out_of_fuel
  | S n =>
      expr <- _unary n ;;
      binary_loop n ["SLASH"; "STAR"; "PERCENT"] (_unary n) expr
  end

with _unary (fuel : nat) : M ast.Expression :=
  match fuel with
  | O => out_of_fuel
  | S n =>
      found <- _match ["BANG"; "MINUS"] ;;
      if found then
        operator <- _previous ;;
        right <- _unary n ;;
        ret (ast.UnaryOp operator right)
      else _call n
  end

with _call (fuel : nat) : M ast.Expression :=
  match fuel with
  | O => out_of_fuel
  | S n => expr <- _primary n ;; call_loop n (_finish_call n) expr
  end

with _finish_call (fuel : nat) (callee : ast.Expression) : M ast.Expression :=
  match fuel with
  | O => out_of_fuel
  | S n =>
      arguments <- comma_separated n "RPAREN" (_expression n) ;;
      paren <- _consume "RPAREN" "Expect ')' after arguments." ;;
      ret (ast.FunctionCall callee paren arguments)
  end

with _primary (fuel : nat) : M ast.Expression :=
  match fuel with
  | O => out_of_fuel
  | S n =>
      is_false <- _match ["FALSE"] ;;
      if is_false then t <- _previous ;; ret (ast.Literal t (ast.Bool false)) else
      is_true <- _match ["TRUE"] ;;
      if is_true then t <- _previous ;; ret (ast.Literal t (ast.Bool true)) else
      is_digit <- _match ["DIGIT"] ;;
      if is_digit then
        t <- _previous ;;
        match PyFloat.of_string (Token.value t) with
        | Some x => ret (ast.Literal t (ast.Float x))
        | None => raise ValueError
        end
      else
      is_word <- _match ["WORD"] ;;
      if is_word then t <- _previous ;; ret (ast.Literal t (ast.Str (Token.value t))) else
      is_identifier <- _match ["IDENTIFIER"] ;;
      if is_identifier then t <- _previous ;; ret (ast.Variable_ t) else
      is_lparen <- _match ["LPAREN"] ;;
      if is_lparen then
        expr <- _expression n ;;
        _consume "RPAREN" "Expect ')' after expression." ;;;
        ret (ast.Grouping expr)
      else
      is_lbracket <- _match ["LBRACKET"] ;;
      if is_lbracket then _list_literal n else
      t <- _peek ;; raise (_error t "Expect expression.")
  end

with _list_literal (fuel : nat) : M ast.Expression :=
  match fuel with
  | O => out_of_fuel
  | S n =>
      elements <- comma_separated n "RBRACKET" (_expression n) ;;
      _consume "RBRACKET" "Expect ']' after list elements." ;;;
      ret (ast.ListLiteral elements)
  end.

(** [while not self._check("RBRACE") and not self._is_at_end(): ...] *)
Fixpoint block_loop (fuel : nat) (declaration : M ast.Statement)
    (statements : list ast.Statement) : M (list ast.Statement) :=
  match fuel with
  | O => out_of_fuel
  | S fuel' =>
      closing <- _check "RBRACE" ;;
      at_end <- (if closing then ret false else _is_at_end) ;;
      if negb closing && negb at_end then
        stmt <- declaration ;;
        block_loop fuel' declaration (statements ++ [stmt])
      else ret statements
  end.

Definition _var_declaration (fuel : nat) (constant : bool) : M ast.Statement :=
  name <- _consume "IDENTIFIER" "Expect variable name." ;;
  has_initializer <- _match ["EQ"] ;;
  initializer <-
    (if has_initializer then e <- _expression fuel ;; ret (Some e)
     else ret None) ;;
  _consume "SEMICOLON" "Expect ';' after variable declaration." ;;;
  ret (ast.VarDeclaration name initializer constant).

Definition _return_statement (fuel : nat) : M ast.Statement :=
  keyword <- _previous ;;
  at_semicolon <- _check "SEMICOLON" ;;
  value <-
    (if at_semicolon then ret None
     else e <- _expression fuel ;; ret (Some e)) ;;
  _consume "SEMICOLON" "Expect ';' after return value." ;;;
  ret (ast.ReturnStatement keyword value).

Definition _break_statement : M ast.Statement :=
  keyword <- _previous ;;
  _consume "SEMICOLON" "Expect ';' after 'stopit'." ;;;
  ret (ast.BreakStatement keyword).

Definition _expression_statement (fuel : nat) : M ast.Statement :=
  expr <- _expression fuel ;;
  _consume "SEMICOLON" "Expect ';' after expression." ;;;
  ret (ast.ExpressionStatement expr).

Fixpoint _declaration (fuel : nat) : M ast.Statement :=
  match fuel with
  | O => out_of_fuel
  | S n =>
      is_conste <- _match ["CONSTE"] ;;
      if is_conste then _var_declaration n true else
      is_gimme <- _match ["GIMME"] ;;
      if is_gimme then _var_declaration n false else
      is_fam <- _match ["FAM"] ;;
      if is_fam then _function_declaration n else
      _statement n
  end

with _function_declaration (fuel : nat) : M ast.Statement :=
  match fuel with
  | O => out_of_fuel
  | S n =>
      name <- _consume "IDENTIFIER" "Expect function name." ;;
      _consume "LPAREN" "Expect '(' after function name." ;;;
      parameters <-
        comma_separated n "RPAREN"
          (_consume "IDENTIFIER" "Expect parameter name.") ;;
      _consume "RPAREN" "Expect ')' after parameters." ;;;
      _consume "LBRACE" "Expect '{' before function body." ;;;
      body <- _block n ;;
      ret (ast.FunctionDeclaration name parameters body)
  end

with _statement (fuel : nat) : M ast.Statement :=
  match fuel with
  | O => out_of_fuel
  | S n =>
      is_innit <- _match ["INNIT"] ;;
      if is_innit then _if_statement n else
      is_loopz <- _match ["LOOPZ"] ;;
      if is_loopz then _while_statement n else
      is_returnz <- _match ["RETURNZ"] ;;
      if is_returnz then _return_statement n else
      is_stopit <- _match ["STOPIT"] ;;
      if is_stopit then _break_statement else
      is_lbrace <- _match ["LBRACE"] ;;
      if is_lbrace then statements <- _block n ;; ret (ast.Block statements) else
      _expression_statement n
  end

with _if_statement (fuel : nat) : M ast.Statement :=
  match fuel with
  | O => out_of_fuel
  | S n =>
      _consume "LPAREN" "Expect '(' after 'innit'." ;;;
      condition <- _expression n ;;
      _consume "RPAREN" "Expect ')' after if condition." ;;;
      then_branch <- _statement n ;;
      has_else <- _match ["ELSEWAY"] ;;
      else_branch <-
        (if has_else then s <- _statement n ;; ret (Some s) else ret None) ;;
      ret (ast.IfStatement condition then_branch else_branch)
  end

with _while_statement (fuel : nat) : M ast.Statement :=
  match fuel with
  | O => out_of_fuel
  | S n =>
      _consume "LPAREN" "Expect '(' after 'loopz'." ;;;
      condition <- _expression n ;;
      _consume "RPAREN" "Expect ')' after loop condition." ;;;
      body <- _statement n ;;
      ret (ast.WhileLoop condition body)
  end

with _block (fuel : nat) : M (list ast.Statement) :=
  match fuel with
  | O => out_of_fuel
  | S n =>
      statements <- block_loop n (_declaration n) [] ;;
      _consume "RBRACE" "Expect '}' after block." ;;;
      ret statements
  end.

(** [while not self._is_at_end(): statements.append(self._declaration())] *)
Fixpoint parse_loop (fuel : nat) (statements : list ast.Statement)
    : M (list ast.Statement) :=
  match fuel with
  | O => out_of_fuel
  | S fuel' =>
      at_end <- _is_at_end ;;
      if at_end then ret statements
      else stmt <- _declaration fuel' ;; parse_loop fuel' (statements ++ [stmt])
  end.

(** [Parser(tokens).parse()]: a new parser has [current = 0]. *)
Definition parse (fuel : nat) : result ast.Program :=
  (statements <- parse_loop fuel [] ;; ret (ast.mkProgram statements)) 0.

(** [while not self._is_at_end(): ...] of [_synchronize]: it returns when
    the token before is a [;] or the token ahead starts a statement. *)
Fixpoint synchronize_loop (fuel : nat) : M unit :=
  match fuel with
  | O => out_of_fuel
  | S fuel' =>
      at_end <- _is_at_end ;;
      if at_end then ret tt else
      previous <- _previous ;;
      if String.eqb (Token.type previous) "SEMICOLON" then ret tt else
      (* These tokens often start a new statement *)
      ahead <- _peek ;;
      if existsb (String.eqb (Token.type ahead))
                 ["FAM"; "INNIT"; "LOOPZ"; "RETURNZ"; "GIMME"; "CONSTE"]
      then ret tt
      else _advance ;;; synchronize_loop fuel'
  end.

Definition _synchronize (fuel : nat) : M unit :=
  _advance ;;; synchronize_loop fuel.

End WithTokens.

End Parser.

(** ** The interpreter ([src/interpreter.py]) *)

Module Interpreter.

(** *** Runtime values

    [None], [bool], [float], [str], [list], and the two callables. A
    callable carries its identity [id], which is what [==] compares and what
    the default [repr] prints: it stands for the address CPython gives the
    object. A [RoadmanFunction] has the fields of its [declaration] and the
    index of its [closure] in the store. *)
Inductive value : Type :=
| VNone
| VBool (b : bool)
| VFloat (x : float)
| VStr (s : string)
| VList (l : list value)
| RoadmanFunction (id : nat) (name : Token) (params : list Token)
                  (body : list ast.Statement) (closure : nat)
| Say (id : nat).

Definition of_Any (v : ast.Any) : value :=
  match v with
  | ast.Bool b => VBool b
  | ast.Float x => VFloat x
  | ast.Str s => VStr s
  end.

(** [repr(v)] *)
Fixpoint repr (v : value) : string :=
  match v with
  | VNone => "None"
  | VBool b => if b then "True" else "False"
  | VFloat x => PyFloat.repr x
  | VStr s => Py.repr_str s
  | VList l => "[" +:+ Py.join ", " (map repr l) +:+ "]"
  | RoadmanFunction id _ _ _ _ =>
      "<src.interpreter.RoadmanFunction object at 0x" +:+ Py.hex id +:+ ">"
  | Say id =>
      "<src.interpreter.Interpreter.__init__.<locals>.Say object at 0x"
      +:+ Py.hex id +:+ ">"
  end.

(** [str(v)]: what [print(v)] writes. [RoadmanFunction] defines [__str__]. *)
Definition str (v : value) : string :=
  match v with
  | VStr s => s
  | RoadmanFunction _ name _ _ _ => "<fn " +:+ Token.value name +:+ ">"
  | _ => repr v
  end.

(** [a == b] of the host. Two lists are compared element by element (the
    host also takes an element for equal to itself when it is the very same
    object, which shows on a [nan] held twice; identities of floats are not
    kept here). *)
Fixpoint eq (a b : value) : bool :=
  match a, b with
  | VNone, VNone => true
  | VBool x, VBool y => Bool.eqb x y
  | VBool x, VFloat y => PrimFloat.eqb (PyFloat.of_bool x) y
  | VFloat x, VBool y => PrimFloat.eqb x (PyFloat.of_bool y)
  | VFloat x, VFloat y => PrimFloat.eqb x y
  | VStr x, VStr y => String.eqb x y
  | VList x, VList y =>
      (fix all2 (x y : list value) : bool :=
         match x, y with
         | [], [] => true
         | u :: x', v :: y' => eq u v && all2 x' y'
         | _, _ => false
         end) x y
  | RoadmanFunction i _ _ _ _, RoadmanFunction j _ _ _ _ => i =? j
  | Say i, Say j => i =? j
  | _, _ => false
  end.

Inductive ordering : Type := GREATER | GREATER_EQ | LESS | LESS_EQ.

Definition holds (op : ordering) (c : comparison) : bool :=
  match op, c with
  | GREATER, Gt => true
  | GREATER_EQ, (Gt | Eq) => true
  | LESS, Lt => true
  | LESS_EQ, (Lt | Eq) => true
  | _, _ => false
  end.

Definition order_floats (op : ordering) (x y : float) : bool :=
  match op with
  | GREATER => PrimFloat.ltb y x
  | GREATER_EQ => PrimFloat.leb y x
  | LESS => PrimFloat.ltb x y
  | LESS_EQ => PrimFloat.leb x y
  end.

(** [a > b], [a >= b], [a < b], [a <= b] of the host; [None] is
    [TypeError]. Floats and bools order as numbers, strings by code point,
    lists by their first differing element and then by length. *)
Fixpoint order (op : ordering) (a b : value) : option bool :=
  match a, b with
  | VFloat x, VFloat y => Some (order_floats op x y)
  | VBool x, VFloat y => Some (order_floats op (PyFloat.of_bool x) y)
  | VFloat x, VBool y => Some (order_floats op x (PyFloat.of_bool y))
  | VBool x, VBool y =>
      Some (order_floats op (PyFloat.of_bool x) (PyFloat.of_bool y))
  | VStr x, VStr y => Some (holds op (String.compare x y))
  | VList x, VList y =>
      (fix first_diff (x y : list value) : option bool :=
         match x, y with
         | u :: x', v :: y' => if eq u v then first_diff x' y' else order op u v
         | [], [] => Some (holds op Eq)
         | [], _ :: _ => Some (holds op Lt)
         | _ :: _, [] => Some (holds op Gt)
         end) x y
  | _, _ => None
  end.

(** *** Exceptions

    [RuntimeError] and [Return] are raised by the interpreter itself,
    [Exception] by [NodeVisitor.generic_visit], the others by the host. *)
Inductive exception : Type :=
| RuntimeError (msg : string)
| Return (value : value)
| Exception (msg : string)
| TypeError
| ZeroDivisionError
| IndexError
| AttributeError.

(** *** Environments *)

Record Environment : Type := mkEnvironment {
  values : gmap string value;
  enclosing : option nat
}.

(** The state of the run: the [Environment]s created so far (an
    environment is referred to by its rank of creation), the interpreter's
    [globals] and [environment] fields, the number of callables created so
    far, and what was printed. *)
Record t : Type := mk {
  store : list Environment;
  globals : nat;
  environment : nat;
  objects : nat;
  stdout : list string
}.

Inductive result (A : Type) : Type :=
| Ok (a : A) (s : t)
| Raise (e : exception) (s : t)
| OutOfFuel.
Arguments Ok {A} a s.
Arguments Raise {A} e s.
Arguments OutOfFuel {A}.

Definition M (A : Type) : Type := t -> result A.

Definition ret {A} (a : A) : M A := fun s => Ok a s.
Definition raise {A} (e : exception) : M A := fun s => Raise e s.
Definition out_of_fuel {A} : M A := fun _ => OutOfFuel.
Definition bind {A B} (m : M A) (k : A -> M B) : M B :=
  fun s =>
    match m s with
    | Ok a s' => k a s'
    | Raise e s' => Raise e s'
    | OutOfFuel => OutOfFuel
    end.

Notation "x <- m ;; k" := (bind m (fun x => k))
  (at level 100, m at next level, right associativity).
Notation "m ;;; k" := (bind m (fun _ => k))
  (at level 100, right associativity).

Definition with_store (s : t) (store' : list Environment) : t :=
  mk store' (globals s) (environment s) (objects s) (stdout s).

Definition with_environment (s : t) (environment' : nat) : t :=
  mk (store s) (globals s) environment' (objects s) (stdout s).

Definition with_line (s : t) (text : string) : t :=
  mk (store s) (globals s) (environment s) (objects s) (stdout s ++ [text]).

(** [self.environment] *)
Definition current : M nat := fun s => Ok (environment s) s.

(** [self.environment = env] *)
Definition enter (env : nat) : M unit := fun s => Ok tt (with_environment s env).

(** [print(text)] *)
Definition print (text : string) : M unit := fun s => Ok tt (with_line s text).

(** A new callable's identity. *)
Definition new_object : M nat :=
  fun s => Ok (objects s)
              (mk (store s) (globals s) (environment s) (S (objects s)) (stdout s)).

(** [Environment(enclosing)] *)
Definition Environment_new (enclosing : option nat) : M nat :=
  fun s => Ok (length (store s))
              (with_store s (store s ++ [mkEnvironment ∅ enclosing])).

Definition bound (name : string) (v : value) (e : Environment) : Environment :=
  mkEnvironment (<[name := v]> (values e)) (enclosing e).

(** [env.define(name, value)] *)
Definition define (env : nat) (name : string) (v : value) : M unit :=
  fun s => Ok tt (with_store s (alter (bound name v) env (store s))).

Definition undefined (name : Token) : exception :=
  RuntimeError ("Undefined variable '" +:+ Token.value name +:+ "'.").

(** [env.get(name)] along the chain of enclosing environments, followed for
    [fuel] links at most; [None] when the chain is longer than that, or
    leads out of the store. *)
Fixpoint lookup_chain (fuel : nat) (store : list Environment) (env : nat)
    (name : Token) : option (exception + value) :=
  match fuel with
  | O => None
  | S fuel' =>
      match store !! env with
      | None => None
      | Some e =>
          match values e !! Token.value name with
          | Some v => Some (inr v)
          | None =>
              match enclosing e with
              | Some outer => lookup_chain fuel' store outer name
              | None => Some (inl (undefined name))
              end
          end
      end
  end.

(** [env.assign(name, value)], likewise; the result is the store after. *)
Fixpoint assign_chain (fuel : nat) (store : list Environment) (env : nat)
    (name : Token) (v : value) : option (exception + list Environment) :=
  match fuel with
  | O => None
  | S fuel' =>
      match store !! env with
      | None => None
      | Some e =>
          match values e !! Token.value name with
          | Some _ => Some (inr (<[env := bound (Token.value name) v e]> store))
          | None =>
              match enclosing e with
              | Some outer => assign_chain fuel' store outer name v
              | None => Some (inl (undefined name))
              end
          end
      end
  end.

(** A chain of environments, each created after the one it encloses, is
    never longer than the store. *)
Definition get (env : nat) (name : Token) : M value :=
  fun s =>
    match lookup_chain (length (store s)) (store s) env name with
    | Some (inr v) => Ok v s
    | Some (inl e) => Raise e s
    | None => OutOfFuel
    end.

Definition assign (env : nat) (name : Token) (v : value) : M unit :=
  fun s =>
    match assign_chain (length (store s)) (store s) env name v with
    | Some (inr store') => Ok tt (with_store s store')
    | Some (inl e) => Raise e s
    | None => OutOfFuel
    end.

(** *** The pure part of the visitors *)

Definition _is_truthy (obj : value) : bool :=
  match obj with
  | VNone => false
  | VBool b => b
  | VFloat x => negb (PrimFloat.eqb x PrimFloat.zero)
  | VStr s => 0 <? String.length s
  | _ => true
  end.

Definition _is_equal (a b : value) : bool :=
  match a, b with
  | VNone, VNone => true
  | VNone, _ => false
  | _, _ => eq a b
  end.

(** The check, and then [float(operand)]. *)
Definition _check_number_operand (op : Token) (operand : value)
    : exception + float :=
  match operand with
  | VFloat x => inr x
  | _ => inl (RuntimeError (Token.value op +:+ ": Operand must be a number."))
  end.

(** The check, and then [float(left)] and [float(right)]. *)
Definition _check_number_operands (op : Token) (left right : value)
    : exception + float * float :=
  match left, right with
  | VFloat x, VFloat y => inr (x, y)
  | _, _ => inl (RuntimeError (Token.value op +:+ ": Operands must be numbers."))
  end.

Definition is_type (operator : Token) (op_type : string) : bool :=
  String.eqb (Token.type operator) op_type.

(** [visit_UnaryOp], once the operand is evaluated. *)
Definition unary_op (operator : Token) (right : value) : exception + value :=
  if is_type operator "MINUS" then
    match _check_number_operand operator right with
    | inl e => inl e
    | inr x => inr (VFloat (PrimFloat.opp x))
    end
  else if is_type operator "BANG" then inr (VBool (negb (_is_truthy right)))
  else inr VNone.

Definition ordered (op : ordering) (left right : value) : exception + value :=
  match order op left right with
  | Some b => inr (VBool b)
  | None => inl TypeError
  end.

(** [visit_BinaryOp], once both operands are evaluated. *)
Definition binary_op (operator : Token) (left right : value) : exception + value :=
  (* Arithmetic *)
  if is_type operator "MINUS" then
    match _check_number_operands operator left right with
    | inl e => inl e
    | inr (x, y) => inr (VFloat (PrimFloat.sub x y))
    end
  else if is_type operator "PLUS" then
    match left, right with
    | VFloat x, VFloat y => inr (VFloat (PrimFloat.add x y))
    | VStr x, VStr y => inr (VStr (x +:+ y))
    | _, _ =>
        inl (RuntimeError
               (Token.value operator +:+ ": Operands must be two numbers or two strings."))
    end
  else if is_type operator "SLASH" then
    match _check_number_operands operator left right with
    | inl e => inl e
    | inr (x, y) =>
        if PrimFloat.eqb y PrimFloat.zero then inl (RuntimeError "Division by zero.")
        else inr (VFloat (PrimFloat.div x y))
    end
  else if is_type operator "STAR" then
    match _check_number_operands operator left right with
    | inl e => inl e
    | inr (x, y) => inr (VFloat (PrimFloat.mul x y))
    end
  else if is_type operator "PERCENT" then
    match _check_number_operands operator left right with
    | inl e => inl e
    | inr (x, y) =>
        match PyFloat.rem x y with
        | Some r => inr (VFloat r)
        | None => inl ZeroDivisionError
        end
    end
  (* Comparison *)
  else if is_type operator "GREATER" then ordered GREATER left right
  else if is_type operator "GREATER_EQ" then ordered GREATER_EQ left right
  else if is_type operator "LESS" then ordered LESS left right
  else if is_type operator "LESS_EQ" then ordered LESS_EQ left right
  else if is_type operator "BANG_EQ" then inr (VBool (negb (_is_equal left right)))
  else if is_type operator "EQ_EQ" then inr (VBool (_is_equal left right))
  else inr VNone.

Definition lift {A} (r : exception + A) : M A :=
  match r with
  | inl e => raise e
  | inr a => ret a
  end.

(** [callee.arity()] of a [RoadmanCallable]; [None] when [callee] is not one. *)
Definition arity (callee : value) : option nat :=
  match callee with
  | RoadmanFunction _ _ params _ _ => Some (length params)
  | Say _ => Some 1
  | _ => None
  end.

(** *** Statements and expressions *)

(** [for x in xs: f(x)] *)
Fixpoint for_each {A} (f : A -> M unit) (xs : list A) : M unit :=
  match xs with
  | [] => ret tt
  | x :: xs' => f x ;;; for_each f xs'
  end.

(** [[f(x) for x in xs]] *)
Fixpoint collect {A B} (f : A -> M B) (xs : list A) : M (list B) :=
  match xs with
  | [] => ret []
  | x :: xs' => y <- f x ;; ys <- collect f xs' ;; ret (y :: ys)
  end.

(** [try: body finally: self.environment = previous] *)
Definition finally_restore {A} (body : M A) (previous : nat) : M A :=
  fun s =>
    match body s with
    | Ok a s' => Ok a (with_environment s' previous)
    | Raise e s' => Raise e (with_environment s' previous)
    | OutOfFuel => OutOfFuel
    end.

Definition _execute_block (execute : ast.Statement -> M unit)
    (statements : list ast.Statement) (env : nat) : M unit :=
  previous <- current ;;
  finally_restore (enter env ;;; for_each execute statements) previous.

(** [for i, param in enumerate(params): environment.define(param.value, arguments[i])] *)
Fixpoint define_params (env : nat) (i : nat) (params : list Token)
    (arguments : list value) : M unit :=
  match params with
  | [] => ret tt
  | param :: params' =>
      match arguments !! i with
      | Some v =>
          define env (Token.value param) v ;;;
          define_params env (S i) params' arguments
      | None => raise IndexError
      end
  end.

(** [try: body except Return as r: return r.value] and then [return None] *)
Definition catch_return (body : M unit) : M value :=
  fun s =>
    match body s with
    | Ok _ s' => Ok VNone s'
    | Raise (Return v) s' => Ok v s'
    | Raise e s' => Raise e s'
    | OutOfFuel => OutOfFuel
    end.

(** [callee.call(self, arguments)]: [RoadmanFunction.call] and [Say.call];
    any other value has no [call]. *)
Definition call (execute : ast.Statement -> M unit) (callee : value)
    (arguments : list value) : M value :=
  match callee with
  | RoadmanFunction _ _ params body closure =>
      env <- Environment_new (Some closure) ;;
      define_params env 0 params arguments ;;;
      catch_return (_execute_block execute body env)
  | Say _ =>
      match arguments !! 0 with
      | Some v => print (str v) ;;; ret VNone
      | None => raise IndexError
      end
  | _ => raise AttributeError
  end.

Fixpoint _evaluate (fuel : nat) (expr : ast.Expression) {struct fuel} : M value :=
  match fuel with
  | O => out_of_fuel
  | S n =>
      match expr with
      | ast.Literal _ v => ret (of_Any v)
      | ast.Variable_ token => env <- current ;; get env token
      | ast.Grouping expression => _evaluate n expression
      | ast.UnaryOp operator right_node =>
          right <- _evaluate n right_node ;;
          lift (unary_op operator right)
      | ast.BinaryOp left_node operator right_node =>
          left <- _evaluate n left_node ;;
          right <- _evaluate n right_node ;;
          lift (binary_op operator left right)
      | ast.Assignment name value =>
          v <- _evaluate n value ;;
          env <- current ;;
          assign env name v ;;;
          ret v
      | ast.FunctionCall callee _ arguments =>
          callee <- _evaluate n callee ;;
          arguments <- collect (_evaluate n) arguments ;;
          match arity callee with
          | None => raise (RuntimeError "Can only call functions and classes.")
          | Some expected =>
              if negb (length arguments =? expected) then
                raise (RuntimeError
                  ("Expected " +:+ Py.str_nat expected +:+ " arguments but got "
                   +:+ Py.str_nat (length arguments) +:+ "."))
              else call (_execute n) callee arguments
          end
      | ast.ListLiteral elements =>
          l <- collect (_evaluate n) elements ;;
          ret (VList l)
      end
  end

with _execute (fuel : nat) (stmt : ast.Statement) {struct fuel} : M unit :=
  match fuel with
  | O => out_of_fuel
  | S n =>
      match stmt with
      | ast.ExpressionStatement expression =>
          _evaluate n expression ;;; ret tt
      | ast.VarDeclaration name initializer _ =>
          v <- match initializer with
               | Some e => _evaluate n e
               | None => ret VNone
               end ;;
          env <- current ;;
          define env (Token.value name) v
      | ast.Block statements =>
          outer <- current ;;
          env <- Environment_new (Some outer) ;;
          _execute_block (_execute n) statements env
      | ast.FunctionDeclaration name params body =>
          closure <- current ;;
          id <- new_object ;;
          define closure (Token.value name)
                 (RoadmanFunction id name params body closure)
      | ast.ReturnStatement _ value =>
          v <- match value with
               | Some e => _evaluate n e
               | None => ret VNone
               end ;;
          raise (Return v)
      | ast.IfStatement condition then_branch else_branch =>
          c <- _evaluate n condition ;;
          if _is_truthy c then _execute n then_branch
          else match else_branch with
               | Some s => _execute n s
               | None => ret tt
               end
      | ast.WhileLoop condition body =>
          c <- _evaluate n condition ;;
          if _is_truthy c then
            _execute n body ;;; _execute n (ast.WhileLoop condition body)
          else ret tt
      | ast.BreakStatement _ =>
          (* no [visit_BreakStatement]: [NodeVisitor.generic_visit] *)
          raise (Exception "No visit_BreakStatement method defined")
      end
  end.

(** [Interpreter()]: the global environment, with [say] defined in it. *)
Definition init : t :=
  mk [mkEnvironment {[ "say" := Say 0 ]} None] 0 0 1 [].

(** How a call of [interpret] ends: it returns, or an exception that it does
    not catch leaves it. *)
Inductive outcome : Type :=
| Returned (s : t)
| Propagated (e : exception) (s : t)
| Diverged.

(** [interpret]: only [RuntimeError] is caught, and printed. *)
Definition interpret (fuel : nat) (program : ast.Program) (s : t) : outcome :=
  match for_each (_execute fuel) (ast.statements program) s with
  | Ok _ s' => Returned s'
  | Raise (RuntimeError msg) s' => Returned (with_line s' msg)
  | Raise e s' => Propagated e s'
  | OutOfFuel => Diverged
  end.

End Interpreter.

(** ** The transpiler ([src/transpiler.py]) *)

Module Transpiler.

Definition op_map : gmap string string :=
  list_to_map [("AND", "&&"); ("OR", "||")].

(** The [visit_*] methods of the expression nodes. *)
Fixpoint visit_Expression (node : ast.Expression) : string :=
  match node with
  | ast.Assignment name value =>
      Token.value name +:+ " = " +:+ visit_Expression value
  | ast.BinaryOp left_node operator right_node =>
      let left := visit_Expression left_node in
      let right := visit_Expression right_node in
      let op := default (Token.value operator) (op_map !! Token.type operator) in
      "(" +:+ left +:+ " " +:+ op +:+ " " +:+ right +:+ ")"
  | ast.UnaryOp operator right_node =>
      let right := visit_Expression right_node in
      Token.value operator +:+ right
  | ast.FunctionCall callee _ arguments =>
      let callee_name := visit_Expression callee in
      (* Handle Roadman built-ins *)
      let callee_name :=
        if String.eqb callee_name "say" then "console.log" else callee_name in
      callee_name +:+ "(" +:+ Py.join ", " (map visit_Expression arguments) +:+ ")"
  | ast.Variable_ token => Token.value token
  | ast.Literal _ value =>
      match value with
      | ast.Str s => Py.chr Py.QUOTE +:+ s +:+ Py.chr Py.QUOTE
      | ast.Bool b => if b then "true" else "false"
      | ast.Float x => PyFloat.repr x
      end
  | ast.ListLiteral elements =>
      "[" +:+ Py.join ", " (map visit_Expression elements) +:+ "]"
  | ast.Grouping expression => "(" +:+ visit_Expression expression +:+ ")"
  end.

Definition newline : string := Py.chr Py.LF.

(** The braces and the two-space indent of [visit_Block]. *)
Definition braces (statements : list string) : string :=
  "{" +:+ newline +:+ "  " +:+ Py.join (newline +:+ "  ") statements
  +:+ newline +:+ "}".

(** The [visit_*] methods of the statement nodes. *)
Fixpoint visit_Statement (node : ast.Statement) : string :=
  match node with
  | ast.VarDeclaration name initializer constant =>
      let keyword := if constant then "const" else "let" in
      match initializer with
      | Some e =>
          keyword +:+ " " +:+ Token.value name +:+ " = " +:+ visit_Expression e +:+ ";"
      | None => keyword +:+ " " +:+ Token.value name +:+ ";"
      end
  | ast.FunctionDeclaration name params body =>
      let params := Py.join ", " (map Token.value params) in
      let body := braces (map visit_Statement body) in
      "function " +:+ Token.value name +:+ "(" +:+ params +:+ ") " +:+ body
  | ast.IfStatement condition then_branch else_branch =>
      let condition := visit_Expression condition in
      let then_branch := visit_Statement then_branch in
      match else_branch with
      | Some s =>
          "if (" +:+ condition +:+ ") " +:+ then_branch +:+ " else "
          +:+ visit_Statement s
      | None => "if (" +:+ condition +:+ ") " +:+ then_branch
      end
  | ast.WhileLoop condition body =>
      "while (" +:+ visit_Expression condition +:+ ") " +:+ visit_Statement body
  | ast.ReturnStatement _ value =>
      match value with
      | Some e => "return " +:+ visit_Expression e +:+ ";"
      | None => "return;"
      end
  | ast.BreakStatement _ => "break;"
  | ast.Block statements => braces (map visit_Statement statements)
  | ast.ExpressionStatement expression => visit_Expression expression +:+ ";"
  end.

Definition visit_Program (node : ast.Program) : string :=
  Py.join newline (map visit_Statement (ast.statements node)).

Definition transpile (program : ast.Program) : string := visit_Program program.

End Transpiler.

(** ** The pipeline of [src/runner.py], [src/repl.py] and the tests *)

(** A fuel that is ample for the programs below. For the interpreter, more
    fuel never changes a result ([interpret_monotone]). *)
Definition FUEL : nat := 1000.

(** [Parser(Lexer(source).tokenize()).parse()] *)
Definition parse_source (source : string) : Parser.result ast.Program :=
  Parser.parse (Lexer.tokenize source) FUEL.

(** [run_code(source, interpreter)] of [tests/test_interpreter.py]: what a
    new interpreter has printed when [interpret] is over, if the source
    parses and [interpret] returns. *)
Definition run_code (source : string) : option (list string) :=
  match parse_source source with
  | Parser.Ok program _ =>
      match Interpreter.interpret FUEL program Interpreter.init with
      | Interpreter.Returned s => Some (Interpreter.stdout s)
      | _ => None
      end
  | _ => None
  end.

(** [Transpiler().transpile(program)] on the program parsed from [source]. *)
Definition transpile_source (source : string) : option string :=
  match parse_source source with
  | Parser.Ok program _ => Some (Transpiler.transpile program)
  | _ => None
  end.

(** ** Programs of the specification and of the test suite *)

Module Examples.

Definition quoted (s : string) : string :=
  Py.chr Py.QUOTE +:+ s +:+ Py.chr Py.QUOTE.

(** [1 = 2;] *)
Definition invalid_target : string := "1 = 2;".

(** [say(1); stopit; say(2);] *)
Definition with_break : string := "say(1); stopit; say(2);".

(** The four comparisons with a two-character operator. *)
Definition two_character_operators : string :=
  "a == b; a != b; a <= b; a >= b;".

(** [say([1, "two", true]);] of [test_list_literal]. *)
Definition say_list : string := "say([1, " +:+ quoted "two" +:+ ", true]);".

(** [say(true); say("two");] *)
Definition say_scalars : string := "say(true); say(" +:+ quoted "two" +:+ ");".

Definition division_by_zero : string := "say(1); say(1 / 0); say(2);".

(** [test_closure], with a second counter made after the first one was
    called twice. *)
Definition counters : string :=
  "fam makeCounter() { gimme i = 0; fam count() { i = i + 1; returnz i; } returnz count; }"
  +:+ " gimme counter = makeCounter(); say(counter()); say(counter());"
  +:+ " gimme other = makeCounter(); say(other()); say(counter()); say(other());".

(** A function reads the variable of the scope it was declared in, not the
    one of the scope it is called from. *)
Definition lexical_scope : string :=
  "gimme x = 1; fam show() { say(x); } { gimme x = 2; show(); }".

Definition reassigned_constant : string :=
  "conste c = 1; c = 2; say(c); gimme g = 1; g = 2; say(g);".

Definition top_level_return : string := "say(1); returnz 7; say(2);".

Definition number_against_string : string :=
  "say(1); say(1 < " +:+ quoted "a" +:+ "); say(2);".

(** What [interpret] does with the program parsed from [source], on a new
    interpreter. *)
Definition interpret_source (source : string) : option Interpreter.outcome :=
  match parse_source source with
  | Parser.Ok program _ =>
      Some (Interpreter.interpret FUEL program Interpreter.init)
  | _ => None
  end.

Definition printed (o : Interpreter.outcome) : list string :=
  match o with
  | Interpreter.Returned s | Interpreter.Propagated _ s => Interpreter.stdout s
  | Interpreter.Diverged => []
  end.

Definition escaped (o : Interpreter.outcome) : option Interpreter.exception :=
  match o with
  | Interpreter.Propagated e _ => Some e
  | _ => None
  end.

End Examples.

(** ** Notions the statements are written with *)

Import Interpreter.

(** The two-character operators: first character, second character, and
    the kind of the token. *)
Definition two_character_kinds : list (ascii * ascii * string) :=
  [ ("="%char, "="%char, "EQ_EQ"); ("!"%char, "="%char, "BANG_EQ");
    ("<"%char, "="%char, "LESS_EQ"); (">"%char, "="%char, "GREATER_EQ");
    ("&"%char, "&"%char, "AND"); ("|"%char, "|"%char, "OR") ].

(** The first characters that are operators of their own, and their kind. *)
Definition prefix_kinds : list (ascii * string) :=
  [ ("="%char, "EQ"); ("!"%char, "BANG"); ("<"%char, "LESS");
    (">"%char, "GREATER") ].

(** [x] is defined in the environment [env] or in one that encloses it. *)
Inductive in_scope (st : list Environment) : nat -> string -> Prop :=
| in_scope_here (env : nat) (e : Environment) (x : string) :
    st !! env = Some e -> is_Some (values e !! x) -> in_scope st env x
| in_scope_outer (env outer : nat) (e : Environment) (x : string) :
    st !! env = Some e -> enclosing e = Some outer -> in_scope st outer x ->
    in_scope st env x.

(** From [s] to [s']: every environment is still there, encloses what it
    enclosed, and defines what it defined. *)
Definition grows_store (s s' : t) : Prop :=
  forall i e, store s !! i = Some e ->
    exists e', store s' !! i = Some e'
      /\ enclosing e' = enclosing e
      /\ forall x, is_Some (values e !! x) -> is_Some (values e' !! x).

(** And [self.environment] is the same. *)
Definition grows (s s' : t) : Prop :=
  environment s' = environment s /\ grows_store s s'.

(** [P] holds of the state in which a computation ended. *)
Definition after {A} (r : result A) (P : t -> Prop) : Prop :=
  match r with
  | Ok _ s' | Raise _ s' => P s'
  | OutOfFuel => True
  end.

(** A computation relates the state it ends in to the one it started from. *)
Definition respects {A} (R : t -> t -> Prop) (m : M A) : Prop :=
  forall s, after (m s) (R s).

(** [m'] ends as [m] does, wherever [m] ends at all. *)
Definition ends_as {A} (m m' : M A) : Prop :=
  forall s, m s <> OutOfFuel -> m' s = m s.

(** From [lx] to [lx']: the same source, and no step back. *)
Definition advances (lx lx' : Lexer.t) : Prop :=
  Lexer.source lx' = Lexer.source lx /\ Lexer.current lx <= Lexer.current lx'.

(** The kinds the keyword table gives. *)
Definition keyword_kind (kind : string) : Prop :=
  exists word, Lexer._load_keywords !! word = Some kind.

Definition kinds_of_keywords : list string :=
  ["INNIT"; "ELSEWAY"; "LOOPZ"; "STOPIT"; "SWITCHUP"; "CASEZ"; "DEFEND";
   "CONSTE"; "GIMME"; "FAM"; "RETURNZ"; "TRUE"; "FALSE"; "TYPE_DIGIT";
   "TYPE_WORD"; "TYPE_BOOLA"; "TYPE_LISTZ"; "TYPE_MAPZ"].

(** A digit, in the sense of [str.isdigit], that occurs in [source_code]. *)
Definition digit_of (source_code : string) (c : ascii) : Prop :=
  Py.isdigit c = true /\ In c (list_ascii_of_string source_code).

(** One digit of the source or more, and then maybe a [.] and one digit of
    the source or more. *)
Definition number_text (source_code text : string) : Prop :=
  exists whole fraction,
    whole <> [] /\ Forall (digit_of source_code) whole
    /\ Forall (digit_of source_code) fraction
    /\ (list_ascii_of_string text = whole
        \/ fraction <> []
           /\ list_ascii_of_string text = whole ++ "."%char :: fraction).

(** A letter or an underscore, and then letters, digits and underscores
    (in the sense of [str.isalpha] and [str.isalnum]). *)
Definition identifier_text (text : string) : Prop :=
  exists first rest,
    list_ascii_of_string text = first :: rest
    /\ Py.isalpha first || Ascii.eqb first "_" = true
    /\ Forall (fun c => Py.isalnum c || Ascii.eqb c "_" = true) rest.

(** What holds of every token the lexer emits while it scans
    [source_code]: it is no [EOF]; an [IDENTIFIER] is no reserved word; a
    token of a keyword's kind is that keyword's spelling; the text of a
    [DIGIT] is a number of the source, the text of an [IDENTIFIER] or of a
    keyword is a name, and the text of a [WORD] has no double quote. *)
Definition scanned (source_code : string) (tok : Token) : Prop :=
  Token.type tok <> "EOF"
  /\ (Token.type tok = "IDENTIFIER" -> Lexer._load_keywords !! Token.value tok = None)
  /\ (keyword_kind (Token.type tok) ->
      Lexer._load_keywords !! Token.value tok = Some (Token.type tok))
  /\ (Token.type tok = "DIGIT" -> number_text source_code (Token.value tok))
  /\ (Token.type tok = "IDENTIFIER" \/ keyword_kind (Token.type tok) ->
      identifier_text (Token.value tok))
  /\ (Token.type tok = "WORD" ->
      ~ In Py.QUOTE (list_ascii_of_string (Token.value tok))).

(** The digits of the source are the ASCII ones: none of the superscripts
    that [str.isdigit] accepts and [float] does not read. *)
Definition plain_digits (source_code : string) : Prop :=
  forall c, In c (list_ascii_of_string source_code) ->
    Py.isdigit c = true -> PyFloat.is_digit c = true.

(** From [lx] to [lx']: tokens were added at the end, all of them [P]. *)
Definition emits (P : Token -> Prop) (lx lx' : Lexer.t) : Prop :=
  exists new, Lexer.tokens lx' = Lexer.tokens lx ++ new /\ Forall P new.

(** The text the lexer has read for the token under way: from [start] to
    [current]. *)
Definition text_so_far (lx : Lexer.t) : list ascii :=
  take (Lexer.current lx - Lexer.start lx)
       (drop (Lexer.start lx) (list_ascii_of_string (Lexer.source lx))).

(** A parser method that, started at or before the position [j], ends at or
    before it, and raises nothing but what [E] allows. *)
Definition stays_before (j : nat) (E : Parser.error -> Prop) {A}
    (m : Parser.M A) : Prop :=
  forall current, current <= j ->
    match m current with
    | Parser.Ok _ current' => current' <= j
    | Parser.Raise e => E e
    | Parser.OutOfFuel => True
    end.

(** The errors of the parser on a token list that holds an [EOF]: no
    [IndexError]. *)
Definition no_index_error (e : Parser.error) : Prop := e <> Parser.IndexError.


(** The three ways [_synchronize] returns. *)
Definition at_statement_boundary (tokens : list Token) (c : nat) : Prop :=
  Parser._is_at_end tokens c = Parser.Ok true c
  \/ (exists p, Parser._previous tokens c = Parser.Ok p c
                /\ Token.type p = "SEMICOLON")
  \/ (exists a, Parser._peek tokens c = Parser.Ok a c
                /\ In (Token.type a)
                      ["FAM"; "INNIT"; "LOOPZ"; "RETURNZ"; "GIMME"; "CONSTE"]).

(** A parser method that, started at the position [k] or after it and no
    later than the [EOF] at [j], returns or raises with the fuel it has:
    where it returns, it has come to a position from [q] on, and no later
    than [j]. *)
Definition parses (j k : nat) {A} (m : Parser.M A) (q : A -> nat) : Prop :=
  forall c, k <= c -> c <= j ->
    match m c with
    | Parser.Ok a c' => q a <= c' /\ c' <= j
    | Parser.Raise _ => True
    | Parser.OutOfFuel => False
    end.

(** [m'] ends as [m] does, wherever [m] ends at all. *)
Definition settles {A} (m m' : Parser.M A) : Prop :=
  forall c, m c <> Parser.OutOfFuel -> m' c = m c.

(** [e'] has the enclosing environment and exactly the names of [e]. *)
Definition same_names (e e' : Environment) : Prop :=
  enclosing e' = enclosing e
  /\ forall x, is_Some (values e' !! x) <-> is_Some (values e !! x).

(** From [s] to [s']: [self.environment] is the same, and every environment
    that was there is still there with the names it had, no more and no
    less. *)
Definition keeps_names (s s' : t) : Prop :=
  environment s' = environment s
  /\ length (store s) <= length (store s')
  /\ forall i e, store s !! i = Some e ->
       exists e', store s' !! i = Some e' /\ same_names e e'.

(** The same of the environments created before the [n]-th, for a run that
    starts in the [n]-th or a later one. *)
Definition keeps_names_below (n : nat) (s s' : t) : Prop :=
  n <= environment s -> n <= length (store s) ->
  environment s' = environment s
  /\ length (store s) <= length (store s')
  /\ forall i e, i < n -> store s !! i = Some e ->
       exists e', store s' !! i = Some e' /\ same_names e e'.

(** The exceptions that the visitors raise on purpose or leave to the host. *)
Definition expected (e : exception) : Prop :=
  match e with
  | RuntimeError _ | Return _ | TypeError | ZeroDivisionError => True
  | Exception msg => msg = "No visit_BreakStatement method defined"
  | IndexError | AttributeError => False
  end.

(** A computation raises nothing but what [P] allows. *)
Definition raises_only {A} (P : exception -> Prop) (m : M A) : Prop :=
  forall s, match m s with
            | Raise e _ => P e
            | _ => True
            end.

(** Programs the properties below are tried on. *)
Module Programs.

(** [&&] on two true operands, printed and as a condition. *)
Definition conjunction : string :=
  "say(true && true); innit (true && true) { say("
  +:+ Examples.quoted "yes" +:+ "); } elseway { say("
  +:+ Examples.quoted "no" +:+ "); }".

Definition modulo_by_zero : string := "say(1); say(1 % 0); say(2);".

(** A name declared twice in the same scope. *)
Definition declared_twice : string := "gimme x = 1; say(x); gimme x = 2; say(x);".

(** Two statements, the first of which has an error that the parser finds. *)
Definition two_statements : string := "gimme = 1 + 2; gimme y = 3;".


End Programs.

(** * Properties *)

(** ** The loops of the lexer run to their end *)

Lemma while_stops (n : nat) (cond : Lexer.t -> bool) (body : Lexer.t -> Lexer.t)
    (lx : Lexer.t) :
  (forall lx, cond lx = true -> Lexer.remaining (body lx) < Lexer.remaining lx) ->
  Lexer.remaining lx <= n ->
  cond (Lexer.while n cond body lx) = false.
Proof.
  intros Hbody. revert lx. induction n as [|n IH]; intros lx Hn; simpl.
  - destruct (cond lx) eqn:Hc; [|reflexivity].
    specialize (Hbody lx Hc). lia.
  - destruct (cond lx) eqn:Hc; [|exact Hc].
    apply IH. specialize (Hbody lx Hc). lia.
Qed.

(** More turns than characters left change nothing. *)
Lemma while_enough (n m : nat) (cond : Lexer.t -> bool) (body : Lexer.t -> Lexer.t)
    (lx : Lexer.t) :
  (forall lx, cond lx = true -> Lexer.remaining (body lx) < Lexer.remaining lx) ->
  Lexer.remaining lx <= n -> Lexer.remaining lx <= m ->
  Lexer.while n cond body lx = Lexer.while m cond body lx.
Proof.
  intros Hbody. revert m lx. induction n as [|n IH]; intros [|m] lx Hn Hm; simpl;
    try reflexivity.
  - destruct (cond lx) eqn:Hc; [|reflexivity]. specialize (Hbody lx Hc). lia.
  - destruct (cond lx) eqn:Hc; [|reflexivity]. specialize (Hbody lx Hc). lia.
  - destruct (cond lx) eqn:Hc; [|reflexivity].
    apply IH; specialize (Hbody lx Hc); lia.
Qed.

Lemma while_advances (n : nat) (cond : Lexer.t -> bool) (body : Lexer.t -> Lexer.t)
    (lx : Lexer.t) :
  (forall lx, advances lx (body lx)) -> advances lx (Lexer.while n cond body lx).
Proof.
  intros Hbody. revert lx. induction n as [|n IH]; intros lx; simpl.
  - split; [reflexivity | lia].
  - destruct (cond lx); [|split; [reflexivity | lia]].
    destruct (Hbody lx) as [Hs Hc]. destruct (IH (body lx)) as [Hs' Hc'].
    split; [congruence | lia].
Qed.

Lemma at_end_peek (lx : Lexer.t) : Lexer._is_at_end lx = true -> Lexer._peek lx = Py.NUL.
Proof. intros H. unfold Lexer._peek. now rewrite H. Qed.

(** A step that consumes one character, where one is left. *)
Lemma consume_one (body : Lexer.t -> Lexer.t) (lx : Lexer.t) :
  Lexer.source (body lx) = Lexer.source lx ->
  Lexer.current (body lx) = Lexer.current lx + 1 ->
  Lexer._is_at_end lx = false ->
  Lexer.remaining (body lx) < Lexer.remaining lx.
Proof.
  unfold Lexer.remaining, Lexer._is_at_end. intros -> -> H.
  apply Nat.leb_gt in H. lia.
Qed.

(** The five inner loops: each stops because its condition fails. *)
Lemma inner_loop_stops (cond : Lexer.t -> bool) (body : Lexer.t -> Lexer.t)
    (lx : Lexer.t) :
  (forall lx, cond lx = true -> Lexer._is_at_end lx = false) ->
  (forall lx, Lexer.source (body lx) = Lexer.source lx
              /\ Lexer.current (body lx) = Lexer.current lx + 1) ->
  cond (Lexer.while (Lexer.remaining lx) cond body lx) = false.
Proof.
  intros Hcond Hbody. apply while_stops; [|lia].
  intros lx' Hc. destruct (Hbody lx') as [Hs Hcur].
  now apply consume_one; [| |apply Hcond].
Qed.

Lemma identifier_loop_condition (lx : Lexer.t) :
  Py.isalnum (Lexer._peek lx) || Ascii.eqb (Lexer._peek lx) "_" = true ->
  Lexer._is_at_end lx = false.
Proof.
  destruct (Lexer._is_at_end lx) eqn:H; [|reflexivity].
  rewrite (at_end_peek lx H). discriminate.
Qed.

Lemma number_loop_condition (lx : Lexer.t) :
  Py.isdigit (Lexer._peek lx) = true -> Lexer._is_at_end lx = false.
Proof.
  destruct (Lexer._is_at_end lx) eqn:H; [|reflexivity].
  rewrite (at_end_peek lx H). discriminate.
Qed.

Lemma guarded_loop_condition (test : Lexer.t -> bool) (lx : Lexer.t) :
  test lx && negb (Lexer._is_at_end lx) = true -> Lexer._is_at_end lx = false.
Proof. intros H. apply andb_prop in H. now apply negb_true_iff. Qed.

Lemma handle_operator_or_punct_advances (char : ascii) (lx : Lexer.t) :
  advances lx (Lexer._handle_operator_or_punct char lx).
Proof.
  unfold Lexer._handle_operator_or_punct, advances.
  repeat case_match; simpl; split; (reflexivity || lia).
Qed.

Lemma identifier_advances (lx : Lexer.t) : advances lx (Lexer._identifier lx).
Proof.
  unfold Lexer._identifier.
  destruct (while_advances (Lexer.remaining lx)
              (fun lx => Py.isalnum (Lexer._peek lx) || Ascii.eqb (Lexer._peek lx) "_")
              Lexer.advance_ lx) as [Hs Hc].
  { intros lx'. split; simpl; [reflexivity | lia]. }
  split; simpl; assumption.
Qed.

Lemma digits_advance (lx : Lexer.t) :
  advances lx
    (Lexer.while (Lexer.remaining lx) (fun lx => Py.isdigit (Lexer._peek lx))
       Lexer.advance_ lx).
Proof. apply while_advances. intros lx'. split; simpl; [reflexivity | lia]. Qed.

Lemma number_advances (lx : Lexer.t) : advances lx (Lexer._number lx).
Proof.
  unfold Lexer._number. cbv zeta.
  destruct (digits_advance lx) as [Hs Hc].
  set (lx1 := Lexer.while _ _ _ lx) in *.
  destruct (_ && _).
  - destruct (digits_advance (Lexer.advance_ lx1)) as [Hs' Hc'].
    simpl in Hs', Hc'. split; simpl; [congruence | lia].
  - split; simpl; assumption.
Qed.

(** The body of the loops that count lines: a line feed moves the line,
    and the character is consumed. *)
Lemma line_counting_step_advances (lx : Lexer.t) (col' : nat) :
  advances lx
    (Lexer.advance_
       (if Ascii.eqb (Lexer._peek lx) Py.LF
        then Lexer.set_pos lx (Lexer.current lx) (Lexer.line lx + 1) col'
        else lx)).
Proof. destruct (Ascii.eqb _ _); split; simpl; (reflexivity || lia). Qed.

Lemma string_advances (lx : Lexer.t) : advances lx (Lexer._string lx).
Proof.
  unfold Lexer._string.
  match goal with
  | |- context [Lexer.while ?n ?c ?b lx] =>
      destruct (while_advances n c b lx) as [Hs Hc];
      [|set (lx1 := Lexer.while n c b lx) in *]
  end.
  { intros lx'. apply line_counting_step_advances. }
  destruct (Lexer._is_at_end lx1); split; simpl; (assumption || lia).
Qed.

(** A token scanned is at least one character consumed. *)
Lemma scan_token_advances (lx : Lexer.t) :
  Lexer.source (Lexer._scan_token lx) = Lexer.source lx
  /\ Lexer.current lx < Lexer.current (Lexer._scan_token lx).
Proof.
  unfold Lexer._scan_token, Lexer._advance. cbv zeta.
  set (lx1 := Lexer.set_pos _ _ _ _).
  assert (H1 : Lexer.source lx1 = Lexer.source lx /\ Lexer.current lx1 = Lexer.current lx + 1)
    by (split; reflexivity).
  destruct H1 as [Hs1 Hc1].
  assert (Hadv : forall lx', advances lx1 lx' ->
            Lexer.source lx' = Lexer.source lx /\ Lexer.current lx < Lexer.current lx').
  { intros lx' [Hs Hc]. split; [congruence | lia]. }
  repeat case_match; apply Hadv;
    try apply handle_operator_or_punct_advances;
    try apply identifier_advances;
    try apply number_advances;
    try apply string_advances;
    try (split; simpl; (reflexivity || lia)).
  - apply while_advances. intros lx'. split; simpl; [reflexivity | lia].
  - match goal with
    | |- context [Lexer.while ?n ?c ?b ?l] =>
        destruct (while_advances n c b l) as [Hs Hc]
    end.
    { intros lx'. apply line_counting_step_advances. }
    split; simpl in *; [congruence | lia].
  - match goal with
    | |- context [Lexer.while ?n ?c ?b ?l] =>
        destruct (while_advances n c b l) as [Hs Hc]
    end.
    { intros lx'. apply line_counting_step_advances. }
    split; simpl in *; [congruence | lia].
Qed.

(** [tokenize] leaves its loop at the end of the source: all of it was
    scanned, and the unrolling of the loop lost nothing. *)
Lemma tokenize_reaches_the_end (source_code : string) :
  Lexer.current (Lexer.run source_code) >= String.length source_code
  /\ Lexer.source (Lexer.run source_code) = source_code.
Proof.
  unfold Lexer.run. cbv zeta.
  set (lx0 := Lexer.init source_code).
  set (cond := fun lx => negb (Lexer._is_at_end lx)).
  assert (Hstep : forall lx, advances lx (Lexer._scan_token lx)).
  { intros lx. destruct (scan_token_advances lx). split; [assumption | lia]. }
  destruct (while_advances (Lexer.remaining lx0) cond Lexer._scan_token lx0 Hstep)
    as [Hs Hc].
  assert (H : cond (Lexer.while (Lexer.remaining lx0) cond Lexer._scan_token lx0) = false).
  { apply while_stops; [|lia]. intros lx Hne. apply negb_true_iff in Hne.
    destruct (scan_token_advances lx) as [Hs' Hc'].
    unfold Lexer.remaining, Lexer._is_at_end in *. rewrite Hs'.
    apply Nat.leb_gt in Hne. lia. }
  apply negb_false_iff in H. unfold Lexer._is_at_end in H.
  apply Nat.leb_le in H. rewrite Hs in H.
  change (Lexer.source lx0) with source_code in *.
  simpl. split; [exact H | exact Hs].
Qed.

(** Each inner loop is left because its condition fails, never for want of
    turns. *)
Lemma inner_loops_stop (lx : Lexer.t) :
  (let cond lx := Py.isalnum (Lexer._peek lx) || Ascii.eqb (Lexer._peek lx) "_" in
   cond (Lexer.while (Lexer.remaining lx) cond Lexer.advance_ lx) = false)
  /\ (let cond lx := Py.isdigit (Lexer._peek lx) in
      cond (Lexer.while (Lexer.remaining lx) cond Lexer.advance_ lx) = false)
  /\ (let cond lx :=
        negb (Ascii.eqb (Lexer._peek lx) Py.LF) && negb (Lexer._is_at_end lx) in
      cond (Lexer.while (Lexer.remaining lx) cond Lexer.advance_ lx) = false).
Proof.
  repeat split; cbv zeta; apply inner_loop_stops;
    try (intros lx'; split; simpl; (reflexivity || lia)).
  - apply identifier_loop_condition.
  - apply number_loop_condition.
  - intros lx'.
    apply (guarded_loop_condition (fun lx => negb (Ascii.eqb (Lexer._peek lx) Py.LF))).
Qed.

(** ** Sequences of statements *)

Lemma for_each_app {A} (f : A -> M unit) (xs ys : list A) (s : t) :
  for_each f (xs ++ ys) s =
  match for_each f xs s with
  | Ok _ s' => for_each f ys s'
  | Raise e s' => Raise e s'
  | OutOfFuel => OutOfFuel
  end.
Proof.
  revert s. induction xs as [|x xs IH]; intros s; simpl.
  - reflexivity.
  - unfold bind. destruct (f x s) as [[] s'| |]; [apply IH | reflexivity..].
Qed.

(** The statement that raises ends the loop: what follows it is not run. *)
Lemma for_each_raise {A} (f : A -> M unit) (pre post : list A) (x : A)
    (s0 s s' : t) (e : exception) :
  for_each f pre s0 = Ok tt s ->
  f x s = Raise e s' ->
  for_each f (pre ++ x :: post) s0 = Raise e s'.
Proof.
  intros Hpre Hx. rewrite for_each_app, Hpre. simpl. unfold bind.
  now rewrite Hx.
Qed.

(** [interpret] on a program one of whose statements raises. *)
Lemma interpret_raise (fuel : nat) (pre post : list ast.Statement)
    (stmt : ast.Statement) (s0 s s' : t) (e : exception) :
  for_each (_execute fuel) pre s0 = Ok tt s ->
  _execute fuel stmt s = Raise e s' ->
  interpret fuel (ast.mkProgram (pre ++ stmt :: post)) s0 =
  match e with
  | RuntimeError msg => Returned (with_line s' msg)
  | _ => Propagated e s'
  end.
Proof.
  intros Hpre Hstmt. unfold interpret. simpl.
  rewrite (for_each_raise _ pre post stmt s0 s s' e Hpre Hstmt).
  destruct e; reflexivity.
Qed.

(** ** C1: an assignment to what is not a variable *)

(** C1 (the code departs from it). The claim: an assignment whose left-hand
    side is not a bare [Variable] raises [ParseError] "Invalid assignment
    target.". The code: [_assignment] builds that error and drops it (there
    is no [raise] before [self._error(...)]), so [1 = 2;] parses, without any
    error, as the expression statement [1;]: the [=] and its right-hand side
    are consumed and lost. *)
Theorem invalid_assignment_target_is_not_raised :
  parse_source Examples.invalid_target =
  Parser.Ok
    (ast.mkProgram
       [ast.ExpressionStatement
          (ast.Literal (Token.mk "DIGIT" "1" 1 1) (ast.Float PrimFloat.one))])
    4.
Proof. vm_compute. reflexivity. Qed.

(** ** C2: [stopit] *)

(** C2 (the code departs from it). The claim: executing a [BreakStatement]
    is a no-op. The code: [Interpreter] has no [visit_BreakStatement], so
    [NodeVisitor.generic_visit] raises an [Exception], which is no
    [RuntimeError]: [interpret] does not catch it, the statements after the
    [stopit] are not run and the exception reaches the caller. *)
Theorem break_statement_raises (fuel : nat) (keyword : Token)
    (post : list ast.Statement) (s : t) :
  _execute (S fuel) (ast.BreakStatement keyword) s =
    Raise (Exception "No visit_BreakStatement method defined") s
  /\ interpret (S fuel) (ast.mkProgram (ast.BreakStatement keyword :: post)) s =
       Propagated (Exception "No visit_BreakStatement method defined") s
  /\ option_map (fun o => (Examples.printed o, Examples.escaped o))
       (Examples.interpret_source Examples.with_break) =
     Some (["1.0"], Some (Exception "No visit_BreakStatement method defined")).
Proof.
  split; [reflexivity | split].
  - reflexivity.
  - vm_compute. reflexivity.
Qed.

(** ** C3: the two-character operators in the transpiler's output *)

(** C3 (the code departs from it). The claim: the operators [==], [!=],
    [<=] and [>=] are rendered with their two characters. The code: the
    lexer's [_handle_operator_or_punct] calls [_add_token] before it
    advances over the second character, so the token's text is the first
    character alone, and [Transpiler.visit_BinaryOp] renders that text:
    [a == b;] comes out as [(a = b);]. *)
Theorem two_character_operators_lose_a_character :
  map Token.value (Lexer.tokenize "== != <= >= && ||") =
    ["="; "!"; "<"; ">"; "&"; "|"; ""]
  /\ transpile_source "a == b;" = Some "(a = b);"
  /\ transpile_source Examples.two_character_operators =
     Some (Py.join Transpiler.newline ["(a = b);"; "(a ! b);"; "(a < b);"; "(a > b);"]).
Proof. repeat split; vm_compute; reflexivity. Qed.

(** ** C4: what [say] prints *)

(** C4, as the specification words it, fails on the list of the test suite:
    the elements of a list are printed by the host's [repr], so the string is
    quoted and the boolean is capitalised. *)
Lemma say_list_is_not_rendered_by_scalar_rules :
  run_code Examples.say_list <> Some ["[1.0, two, true]"].
Proof. vm_compute. discriminate. Qed.

(** C4 (amended). [say] prints the host's [str] of its argument: a boolean
    as [True] or [False], a string as it is, and a list between brackets, its
    elements separated by a comma and a space and each printed by the host's
    [repr], which quotes a string; so [say([1, "two", true])] prints
    [[1.0, 'two', True]], as [test_list_literal] expects. *)
Theorem say_prints_the_host_str :
  (forall execute id v s, call execute (Say id) [v] s = Ok VNone (with_line s (str v)))
  /\ (forall b, str (VBool b) = if b then "True" else "False")
  /\ (forall w, str (VStr w) = w)
  /\ (forall l, str (VList l) = "[" +:+ Py.join ", " (map repr l) +:+ "]")
  /\ (forall w, repr (VStr w) = Py.repr_str w)
  /\ (forall b, repr (VBool b) = str (VBool b))
  /\ run_code Examples.say_scalars = Some ["True"; "two"]
  /\ run_code Examples.say_list = Some ["[1.0, 'two', True]"].
Proof.
  repeat split; try reflexivity; vm_compute; reflexivity.
Qed.

(** ** C5: division by zero *)

Lemma binary_op_slash_zero (operator : Token) (x y : float) :
  Token.type operator = "SLASH" ->
  PrimFloat.eqb y PrimFloat.zero = true ->
  binary_op operator (VFloat x) (VFloat y) = inl (RuntimeError "Division by zero.").
Proof.
  intros Htype Hzero. unfold binary_op, is_type. rewrite Htype. simpl.
  now rewrite Hzero.
Qed.

(** C5. A division of two numbers whose right operand is zero raises the
    runtime error "Division by zero."; [interpret] catches a runtime error
    raised by a statement, prints its message and returns: the statements
    after it are not run, and no runtime error ever reaches the caller of
    [interpret]. *)
Theorem division_by_zero_is_caught (fuel : nat)
    (left_node right_node : ast.Expression) (operator : Token)
    (x y : float) (s s1 s2 : t) :
  Token.type operator = "SLASH" ->
  _evaluate fuel left_node s = Ok (VFloat x) s1 ->
  _evaluate fuel right_node s1 = Ok (VFloat y) s2 ->
  PrimFloat.eqb y PrimFloat.zero = true ->
  _evaluate (S fuel) (ast.BinaryOp left_node operator right_node) s =
    Raise (RuntimeError "Division by zero.") s2
  /\ (forall pre post s0,
        for_each (_execute (S (S fuel))) pre s0 = Ok tt s ->
        interpret (S (S fuel))
          (ast.mkProgram
             (pre ++ ast.ExpressionStatement
                       (ast.BinaryOp left_node operator right_node) :: post)) s0 =
        Returned (with_line s2 "Division by zero."))
  /\ (forall fuel' pre stmt post msg s0 s' s'',
        for_each (_execute fuel') pre s0 = Ok tt s' ->
        _execute fuel' stmt s' = Raise (RuntimeError msg) s'' ->
        interpret fuel' (ast.mkProgram (pre ++ stmt :: post)) s0 =
        Returned (with_line s'' msg))
  /\ (forall fuel' program s0 e s',
        interpret fuel' program s0 = Propagated e s' ->
        forall msg, e <> RuntimeError msg).
Proof.
  intros Htype Hleft Hright Hzero.
  assert (Hdiv : _evaluate (S fuel) (ast.BinaryOp left_node operator right_node) s =
                 Raise (RuntimeError "Division by zero.") s2).
  { simpl. unfold bind. rewrite Hleft, Hright.
    now rewrite (binary_op_slash_zero operator x y Htype Hzero). }
  split; [exact Hdiv | split; [|split]].
  - intros pre post s0 Hpre.
    rewrite (interpret_raise (S (S fuel)) pre post
               (ast.ExpressionStatement (ast.BinaryOp left_node operator right_node))
               s0 s s2 (RuntimeError "Division by zero.") Hpre); [reflexivity|].
    change (bind (_evaluate (S fuel) (ast.BinaryOp left_node operator right_node))
                 (fun _ => ret tt) s = Raise (RuntimeError "Division by zero.") s2).
    unfold bind. now rewrite Hdiv.
  - intros fuel' pre stmt post msg s0 s' s'' Hpre Hstmt.
    now rewrite (interpret_raise fuel' pre post stmt s0 s' s'' _ Hpre Hstmt).
  - intros fuel' program s0 e s' H msg ->. unfold interpret in H.
    destruct (for_each _ _ s0) as [a s3|e1 s3|]; try discriminate.
    destruct e1; discriminate.
Qed.

Lemma division_by_zero_is_caught_witness :
  _evaluate 2
    (ast.BinaryOp (ast.Literal (Token.mk "DIGIT" "1" 1 1) (ast.Float PrimFloat.one))
                  (Token.mk "SLASH" "/" 1 3)
                  (ast.Literal (Token.mk "DIGIT" "0" 1 5) (ast.Float PrimFloat.zero)))
    init = Raise (RuntimeError "Division by zero.") init
  /\ run_code Examples.division_by_zero = Some ["1.0"; "Division by zero."].
Proof.
  split.
  - apply (division_by_zero_is_caught 1
             (ast.Literal (Token.mk "DIGIT" "1" 1 1) (ast.Float PrimFloat.one))
             (ast.Literal (Token.mk "DIGIT" "0" 1 5) (ast.Float PrimFloat.zero))
             (Token.mk "SLASH" "/" 1 3) PrimFloat.one PrimFloat.zero init init init);
      reflexivity.
  - vm_compute. reflexivity.
Defined.

(** ** What a run keeps: environments, their chains and their names *)

Section Respects.

Context (R : t -> t -> Prop) `{!PreOrder R}.

Lemma respects_ret {A} (a : A) : respects R (ret a).
Proof. intros s. simpl. reflexivity. Qed.

Lemma respects_raise {A} (e : exception) : respects R (@raise A e).
Proof. intros s. simpl. reflexivity. Qed.

Lemma respects_out_of_fuel {A} : respects R (@out_of_fuel A).
Proof. intros s. exact I. Qed.

Lemma respects_bind {A B} (m : M A) (k : A -> M B) :
  respects R m -> (forall a, respects R (k a)) -> respects R (bind m k).
Proof.
  intros Hm Hk s. unfold bind. specialize (Hm s).
  destruct (m s) as [a s1|e s1|]; simpl in *; [|assumption|exact I].
  specialize (Hk a s1). destruct (k a s1); simpl in *; try exact I;
    etransitivity; eassumption.
Qed.

Lemma respects_lift {A} (r : exception + A) : respects R (lift r).
Proof. destruct r; [apply respects_raise | apply respects_ret]. Qed.

Lemma respects_for_each {A} (f : A -> M unit) (xs : list A) :
  (forall x, respects R (f x)) -> respects R (for_each f xs).
Proof.
  intros Hf. induction xs as [|x xs IH]; simpl.
  - apply respects_ret.
  - apply respects_bind; [apply Hf | intros _; exact IH].
Qed.

Lemma respects_collect {A B} (f : A -> M B) (xs : list A) :
  (forall x, respects R (f x)) -> respects R (collect f xs).
Proof.
  intros Hf. induction xs as [|x xs IH]; simpl.
  - apply respects_ret.
  - apply respects_bind; [apply Hf | intros y].
    apply respects_bind; [exact IH | intros ys; apply respects_ret].
Qed.

Lemma respects_catch_return (body : M unit) :
  respects R body -> respects R (catch_return body).
Proof.
  intros Hb s. unfold catch_return. specialize (Hb s).
  destruct (body s) as [a s1|e s1|]; simpl in *; [assumption| |exact I].
  destruct e; assumption.
Qed.

End Respects.

#[local] Instance grows_store_preorder : PreOrder grows_store.
Proof.
  split.
  - intros s i e He. exists e. auto.
  - intros s1 s2 s3 H12 H23 i e He.
    destruct (H12 i e He) as (e2 & He2 & Henc2 & Hdom2).
    destruct (H23 i e2 He2) as (e3 & He3 & Henc3 & Hdom3).
    exists e3. repeat split; [assumption | congruence | auto].
Qed.

#[local] Instance grows_preorder : PreOrder grows.
Proof.
  split.
  - intros s. split; reflexivity.
  - intros s1 s2 s3 [E12 H12] [E23 H23]. split; [congruence | etransitivity; eassumption].
Qed.

Lemma respects_weaken {A} (m : M A) : respects grows m -> respects grows_store m.
Proof.
  intros H s. specialize (H s). destruct (m s); simpl in *; try exact I; apply H.
Qed.

Lemma grows_same_store (s s' : t) :
  store s' = store s -> environment s' = environment s -> grows s s'.
Proof.
  intros Hs He. split; [assumption|]. intros i e Hi. exists e. rewrite Hs. auto.
Qed.

Lemma respects_current : respects grows current.
Proof. intros s. simpl. reflexivity. Qed.

Lemma respects_print (text : string) : respects grows (print text).
Proof. intros s. simpl. now apply grows_same_store. Qed.

Lemma respects_new_object : respects grows new_object.
Proof. intros s. simpl. now apply grows_same_store. Qed.

Lemma respects_Environment_new (outer : option nat) :
  respects grows (Environment_new outer).
Proof.
  intros s. simpl. split; [reflexivity|]. intros i e Hi. exists e. simpl.
  rewrite lookup_app_l; [auto | eapply lookup_lt_Some; eassumption].
Qed.

Lemma bound_defines (name : string) (v : value) (e : Environment) (x : string) :
  is_Some (values e !! x) -> is_Some (values (bound name v e) !! x).
Proof.
  intros Hx. simpl. destruct (decide (name = x)) as [->|Hne].
  - rewrite lookup_insert_eq. eauto.
  - now rewrite lookup_insert_ne.
Qed.

Lemma respects_define (env : nat) (name : string) (v : value) :
  respects grows (define env name v).
Proof.
  intros s. simpl. split; [reflexivity|]. intros i e Hi. simpl.
  destruct (decide (env = i)) as [->|Hne].
  - exists (bound name v e). rewrite list_lookup_alter_eq, Hi. simpl.
    repeat split. intros x. apply (bound_defines name v e x).
  - exists e. rewrite list_lookup_alter_ne by assumption. auto.
Qed.

Lemma respects_get (env : nat) (name : Token) : respects grows (get env name).
Proof.
  intros s. unfold get.
  destruct (lookup_chain _ _ _ _) as [[e|v]|]; simpl; try exact I; reflexivity.
Qed.

Lemma assign_chain_grows (fuel : nat) (st : list Environment) (env : nat)
    (name : Token) (v : value) (st' : list Environment) :
  assign_chain fuel st env name v = Some (inr st') ->
  forall i e, st !! i = Some e ->
    exists e', st' !! i = Some e'
      /\ enclosing e' = enclosing e
      /\ forall x, is_Some (values e !! x) -> is_Some (values e' !! x).
Proof.
  revert env. induction fuel as [|fuel IH]; intros env; simpl; [discriminate|].
  destruct (st !! env) as [e0|] eqn:He0; [|discriminate].
  destruct (values e0 !! Token.value name) as [old|] eqn:Hold.
  - intros [= <-] i e Hi. destruct (decide (env = i)) as [->|Hne].
    + exists (bound (Token.value name) v e0).
      rewrite list_lookup_insert_eq by (eapply lookup_lt_Some; eassumption).
      assert (e = e0) as -> by congruence.
      repeat split. intros x. apply bound_defines.
    + exists e. rewrite list_lookup_insert_ne by assumption. auto.
  - destruct (enclosing e0) as [outer|]; [apply IH | discriminate].
Qed.

Lemma respects_assign (env : nat) (name : Token) (v : value) :
  respects grows (assign env name v).
Proof.
  intros s. unfold assign.
  destruct (assign_chain _ _ _ _ _) as [[e|st']|] eqn:Hassign; simpl;
    [reflexivity | | exact I].
  split; [reflexivity|]. exact (assign_chain_grows _ _ _ _ _ _ Hassign).
Qed.

Lemma respects_define_params (env i : nat) (params : list Token)
    (arguments : list value) :
  respects grows (define_params env i params arguments).
Proof.
  revert i. induction params as [|param params IH]; intros i; simpl.
  - apply (respects_ret grows).
  - destruct (arguments !! i).
    + apply (respects_bind grows); [apply respects_define | intros _; apply IH].
    + apply (respects_raise grows).
Qed.

Lemma respects_execute_block (execute : ast.Statement -> M unit)
    (statements : list ast.Statement) (env : nat) :
  (forall stmt, respects grows (execute stmt)) ->
  respects grows (_execute_block execute statements env).
Proof.
  intros Hexec s. unfold _execute_block, bind, current, finally_restore, enter.
  pose proof (respects_weaken _ (respects_for_each grows execute statements Hexec)
                (with_environment s env)) as H.
  destruct (for_each execute statements (with_environment s env)); simpl in *;
    try exact I; (split; [reflexivity | exact H]).
Qed.

Lemma respects_call (execute : ast.Statement -> M unit) (callee : value)
    (arguments : list value) :
  (forall stmt, respects grows (execute stmt)) ->
  respects grows (call execute callee arguments).
Proof.
  intros Hexec. destruct callee; simpl; try apply (respects_raise grows).
  - apply (respects_bind grows); [apply respects_Environment_new | intros env].
    apply (respects_bind grows); [apply respects_define_params | intros _].
    apply respects_catch_return.
    now apply respects_execute_block.
  - destruct (arguments !! 0).
    + apply (respects_bind grows); [apply respects_print | intros _].
      apply (respects_ret grows).
    + apply (respects_raise grows).
Qed.

Create HintDb respects.
#[local] Hint Resolve respects_current respects_print respects_new_object
  respects_Environment_new respects_define respects_get respects_assign
  respects_define_params respects_execute_block respects_call : respects.

Ltac respects_step :=
  first
    [ solve [auto with respects]
    | apply (respects_ret grows)
    | apply (respects_raise grows)
    | apply respects_out_of_fuel
    | apply (respects_lift grows)
    | apply (respects_collect grows)
    | apply (respects_bind grows); [ | intros ?] ].

Lemma evaluate_execute_grow (fuel : nat) :
  (forall expr, respects grows (_evaluate fuel expr))
  /\ (forall stmt, respects grows (_execute fuel stmt)).
Proof.
  induction fuel as [|n [IHe IHs]].
  - split; intros; apply respects_out_of_fuel.
  - split.
    + intros [tok v|tok|op r|l op r|e|name e|callee paren args|elements];
        cbn [_evaluate]; repeat respects_step.
      destruct (arity a) as [expected|]; [|respects_step].
      destruct (negb _); repeat respects_step.
    + intros [e|statements|name init c|cond th el|cond body|kw|name params body|kw v];
        cbn [_execute]; repeat respects_step.
      * destruct init; repeat respects_step.
      * destruct (_is_truthy a); [apply IHs|]. destruct el; repeat respects_step.
      * destruct (_is_truthy a); repeat respects_step.
      * destruct v; repeat respects_step.
Qed.

(** A name defined in the environment itself is assigned and read there. *)
Lemma assign_defined_here (s : t) (env : nat) (e : Environment) (name : Token)
    (v : value) :
  store s !! env = Some e ->
  is_Some (values e !! Token.value name) ->
  assign env name v s =
    Ok tt (with_store s (<[env := bound (Token.value name) v e]> (store s))).
Proof.
  intros He [old Hold]. unfold assign.
  pose proof (lookup_lt_Some _ _ _ He) as Hlt.
  destruct (length (store s)) as [|k] eqn:Hlen; [lia|].
  simpl. now rewrite He, Hold.
Qed.

Lemma get_defined_here (s : t) (env : nat) (e : Environment) (name : Token)
    (v : value) :
  store s !! env = Some e ->
  values e !! Token.value name = Some v ->
  get env name s = Ok v s.
Proof.
  intros He Hv. unfold get.
  pose proof (lookup_lt_Some _ _ _ He) as Hlt.
  destruct (length (store s)) as [|k] eqn:Hlen; [lia|].
  simpl. now rewrite He, Hv.
Qed.

(** ** More fuel changes no result *)

Lemma ends_as_refl {A} (m : M A) : ends_as m m.
Proof. intros s _. reflexivity. Qed.

Lemma ends_as_bind {A B} (m m' : M A) (k k' : A -> M B) :
  ends_as m m' -> (forall a, ends_as (k a) (k' a)) ->
  ends_as (bind m k) (bind m' k').
Proof.
  intros Hm Hk s. unfold bind. intros H.
  rewrite Hm by (intros E; now rewrite E in H).
  destruct (m s) as [a s1|e s1|]; [|reflexivity|contradiction].
  now apply Hk.
Qed.

Lemma ends_as_for_each {A} (f f' : A -> M unit) (xs : list A) :
  (forall x, ends_as (f x) (f' x)) -> ends_as (for_each f xs) (for_each f' xs).
Proof.
  intros Hf. induction xs as [|x xs IH]; simpl.
  - apply ends_as_refl.
  - apply ends_as_bind; [apply Hf | intros _; exact IH].
Qed.

Lemma ends_as_collect {A B} (f f' : A -> M B) (xs : list A) :
  (forall x, ends_as (f x) (f' x)) -> ends_as (collect f xs) (collect f' xs).
Proof.
  intros Hf. induction xs as [|x xs IH]; simpl.
  - apply ends_as_refl.
  - apply ends_as_bind; [apply Hf | intros y].
    apply ends_as_bind; [exact IH | intros ys; apply ends_as_refl].
Qed.

Lemma ends_as_finally_restore {A} (m m' : M A) (previous : nat) :
  ends_as m m' -> ends_as (finally_restore m previous) (finally_restore m' previous).
Proof.
  intros Hm s. unfold finally_restore. intros H.
  rewrite Hm by (intros E; now rewrite E in H). reflexivity.
Qed.

Lemma ends_as_catch_return (m m' : M unit) :
  ends_as m m' -> ends_as (catch_return m) (catch_return m').
Proof.
  intros Hm s. unfold catch_return. intros H.
  rewrite Hm by (intros E; now rewrite E in H). reflexivity.
Qed.

Lemma ends_as_execute_block (execute execute' : ast.Statement -> M unit)
    (statements : list ast.Statement) (env : nat) :
  (forall stmt, ends_as (execute stmt) (execute' stmt)) ->
  ends_as (_execute_block execute statements env)
           (_execute_block execute' statements env).
Proof.
  intros Hexec. unfold _execute_block.
  apply ends_as_bind; [apply ends_as_refl | intros previous].
  apply ends_as_finally_restore.
  apply ends_as_bind; [apply ends_as_refl | intros _].
  now apply ends_as_for_each.
Qed.

Lemma ends_as_call (execute execute' : ast.Statement -> M unit) (callee : value)
    (arguments : list value) :
  (forall stmt, ends_as (execute stmt) (execute' stmt)) ->
  ends_as (call execute callee arguments) (call execute' callee arguments).
Proof.
  intros Hexec. destruct callee; simpl; try apply ends_as_refl.
  apply ends_as_bind; [apply ends_as_refl | intros env].
  apply ends_as_bind; [apply ends_as_refl | intros _].
  apply ends_as_catch_return. now apply ends_as_execute_block.
Qed.

Ltac ends_as_step :=
  first
    [ assumption
    | apply ends_as_refl
    | apply ends_as_call
    | apply ends_as_execute_block
    | apply ends_as_collect
    | apply ends_as_bind; [ | intros ?] ].

(** What an evaluation or an execution gives with some fuel, it gives with
    any larger fuel. *)
Lemma fuel_monotone (n : nat) :
  forall m, n <= m ->
    (forall expr, ends_as (_evaluate n expr) (_evaluate m expr))
    /\ (forall stmt, ends_as (_execute n stmt) (_execute m stmt)).
Proof.
  induction n as [|n IH]; intros m Hle.
  - split; intros x s H; now contradiction H.
  - destruct m as [|m]; [lia|]. destruct (IH m ltac:(lia)) as [IHe IHs].
    split.
    + intros [tok v|tok|op r|l op r|e|name e|callee paren args|elements];
        cbn [_evaluate]; repeat ends_as_step; auto.
      destruct (arity a) as [expected|]; [|ends_as_step].
      destruct (negb _); repeat ends_as_step; auto.
    + intros [e|statements|name init c|cond th el|cond body|kw|name params body|kw v];
        cbn [_execute]; repeat ends_as_step; auto.
      * destruct init; repeat ends_as_step; auto.
      * destruct (_is_truthy a); [apply IHs|]. destruct el; repeat ends_as_step; auto.
      * destruct (_is_truthy a); repeat ends_as_step; auto.
      * destruct v; repeat ends_as_step; auto.
Qed.

Lemma interpret_monotone (n m : nat) (program : ast.Program) (s : t) :
  n <= m -> interpret n program s <> Diverged ->
  interpret m program s = interpret n program s.
Proof.
  intros Hle H. unfold interpret in *.
  rewrite (ends_as_for_each (_execute n) (_execute m) (ast.statements program)
             (proj2 (fuel_monotone n m Hle)) s).
  - reflexivity.
  - intros E. now rewrite E in H.
Qed.

(** ** C6: closures *)

Lemma define_params_ok (env i : nat) (params : list Token) (arguments : list value)
    (s : t) :
  i + length params <= length arguments ->
  exists s1, define_params env i params arguments s = Ok tt s1.
Proof.
  revert i s. induction params as [|param params IH]; intros i s Hlen; simpl.
  - eexists. reflexivity.
  - simpl in Hlen. destruct (lookup_lt_is_Some_2 arguments i) as [v Hv]; [lia|].
    rewrite Hv. unfold bind. simpl. apply IH. lia.
Qed.

Lemma call_in_new_environment (execute : ast.Statement -> M unit)
    (id : nat) (name : Token) (params : list Token) (body : list ast.Statement)
    (closure : nat) (arguments : list value) (s : t) :
  length arguments = length params ->
  exists s1,
    (* the environment of the call is new, and encloses the closure *)
    (env <- Environment_new (Some closure) ;;
     define_params env 0 params arguments) s = Ok tt s1
    /\ store s !! length (store s) = None
    /\ enclosing <$> store s1 !! length (store s) = Some (Some closure)
    (* the body runs in it, and its [Return] is the value of the call *)
    /\ call execute (RoadmanFunction id name params body closure) arguments s =
       catch_return (_execute_block execute body (length (store s))) s1.
Proof.
  intros Hlen.
  destruct (define_params_ok (length (store s)) 0 params arguments
              (with_store s (store s ++ [mkEnvironment ∅ (Some closure)])))
    as [s1 Hs1]; [lia|].
  exists s1. split; [|split; [|split]].
  - exact Hs1.
  - now apply lookup_ge_None.
  - pose proof (respects_define_params (length (store s)) 0 params arguments
                  (with_store s (store s ++ [mkEnvironment ∅ (Some closure)]))) as Hg.
    rewrite Hs1 in Hg. destruct Hg as [_ Hg].
    destruct (Hg (length (store s)) (mkEnvironment ∅ (Some closure)))
      as (e' & He' & Henc & _).
    { simpl. rewrite lookup_app_r by lia. now rewrite Nat.sub_diag. }
    rewrite He'. simpl. now rewrite Henc.
  - cbn [call]. unfold bind at 1. simpl. unfold bind at 1. now rewrite Hs1.
Qed.

Lemma function_declaration_captures (fuel : nat) (name : Token) (params : list Token)
    (body : list ast.Statement) (s : t) :
  is_Some (store s !! environment s) ->
  exists s',
    _execute (S fuel) (ast.FunctionDeclaration name params body) s = Ok tt s'
    /\ environment s' = environment s
    /\ get (environment s') name s' =
       Ok (RoadmanFunction (objects s) name params body (environment s)) s'.
Proof.
  intros [e He]. eexists. split; [reflexivity|]. split; [reflexivity|].
  simpl. eapply get_defined_here.
  - simpl. rewrite list_lookup_alter_eq, He. reflexivity.
  - simpl. apply lookup_insert_eq.
Qed.

(** C6. A call of a function creates a new environment whose enclosing
    environment is the function's closure, whatever the environment of the
    caller is, and runs the body in it; the closure of a function is the
    environment in which its declaration was executed. So two counters made
    by one function count apart, and a counter counts up from call to call
    ([1.0], [2.0], then [1.0] for the other one, then [3.0] and [2.0]); and a
    function called from a block that shadows a variable reads the variable
    of its own declaration site. *)
Theorem closures_are_lexical (fuel : nat) (execute : ast.Statement -> M unit)
    (id : nat) (name : Token) (params : list Token) (body : list ast.Statement)
    (closure : nat) (arguments : list value) (s : t) :
  length arguments = length params ->
  is_Some (store s !! environment s) ->
  (exists s1,
     (env <- Environment_new (Some closure) ;;
      define_params env 0 params arguments) s = Ok tt s1
     /\ store s !! length (store s) = None
     /\ enclosing <$> store s1 !! length (store s) = Some (Some closure)
     /\ call execute (RoadmanFunction id name params body closure) arguments s =
        catch_return (_execute_block execute body (length (store s))) s1)
  /\ (exists s',
       _execute (S fuel) (ast.FunctionDeclaration name params body) s = Ok tt s'
       /\ environment s' = environment s
       /\ get (environment s') name s' =
          Ok (RoadmanFunction (objects s) name params body (environment s)) s')
  /\ run_code Examples.counters = Some ["1.0"; "2.0"; "1.0"; "3.0"; "2.0"]
  /\ run_code Examples.lexical_scope = Some ["1.0"].
Proof.
  intros Hlen Henv. split; [|split; [|split]].
  - now apply call_in_new_environment.
  - now apply function_declaration_captures.
  - vm_compute. reflexivity.
  - vm_compute. reflexivity.
Qed.

Lemma closures_are_lexical_witness :
  exists s1,
    (env <- Environment_new (Some 0) ;;
     define_params env 0 [Token.mk "IDENTIFIER" "n" 1 7] [VFloat 1%float]) init =
    Ok tt s1
    /\ store init !! length (store init) = None
    /\ enclosing <$> store s1 !! length (store init) = Some (Some 0)
    /\ call (_execute 1)
         (RoadmanFunction 1 (Token.mk "IDENTIFIER" "f" 1 5)
            [Token.mk "IDENTIFIER" "n" 1 7] [] 0)
         [VFloat 1%float] init =
       catch_return (_execute_block (_execute 1) [] (length (store init))) s1.
Proof.
  apply (proj1 (closures_are_lexical 1 (_execute 1) 1
                  (Token.mk "IDENTIFIER" "f" 1 5) [Token.mk "IDENTIFIER" "n" 1 7] []
                  0 [VFloat 1%float] init eq_refl (ex_intro _ _ eq_refl))).
Defined.

(** ** C7: operators of one and of two characters *)

Lemma peek_after_advance (lx : Lexer.t) (start start_col : nat) :
  Lexer._peek
    (Lexer.advance_
       (Lexer.mk (Lexer.source lx) (Lexer.tokens lx) (Lexer.current lx)
          (Lexer.line lx) (Lexer.col lx) start start_col (Lexer.stdout lx))) =
  Lexer._peek_next lx.
Proof. reflexivity. Qed.

Lemma scan_token_operator (lx : Lexer.t) (c : ascii) :
  Lexer._is_at_end lx = false ->
  Lexer._peek lx = c ->
  (Ascii.eqb c " " || Ascii.eqb c Py.CR || Ascii.eqb c Py.TAB || Ascii.eqb c Py.LF
   || Ascii.eqb c "/" || Ascii.eqb c Py.QUOTE || Py.isdigit c || Py.isalpha c
   || Ascii.eqb c "_") = false ->
  Lexer._scan_token lx =
  Lexer._handle_operator_or_punct c
    (Lexer.advance_
       (Lexer.mk (Lexer.source lx) (Lexer.tokens lx) (Lexer.current lx)
          (Lexer.line lx) (Lexer.col lx) (Lexer.current lx) (Lexer.col lx)
          (Lexer.stdout lx))).
Proof.
  intros Hend Hpeek Hc.
  unfold Lexer._peek in Hpeek. rewrite Hend in Hpeek.
  unfold Lexer._scan_token, Lexer._advance. cbv beta iota zeta.
  change (Lexer.source (Lexer.mk (Lexer.source lx) _ _ _ _ _ _ _)) with (Lexer.source lx).
  change (Lexer.current (Lexer.mk _ _ (Lexer.current lx) _ _ _ _ _)) with (Lexer.current lx).
  rewrite Hpeek.
  repeat (apply orb_false_elim in Hc; destruct Hc as [Hc ?]).
  repeat match goal with H : _ = false |- _ => rewrite H; clear H end.
  simpl. reflexivity.
Qed.

(** C7, as the specification words it, fails on a lone [&] and on a lone
    [|]: neither is a token of the language, the lexer prints a diagnostic
    and emits nothing. *)
Lemma lone_ampersand_and_bar_are_no_tokens :
  Lexer.tokenize "&" = [Token.mk "EOF" "" 1 2]
  /\ Lexer.tokenize "|" = [Token.mk "EOF" "" 1 2]
  /\ Lexer.stdout (Lexer.run "&") = ["[1:2] Unexpected character: &"]
  /\ map Token.type (Lexer.tokenize "a & b | c") =
     ["IDENTIFIER"; "IDENTIFIER"; "IDENTIFIER"; "EOF"].
Proof. repeat split; vm_compute; reflexivity. Qed.

(** C7 (amended). Where the lexer stands before the two characters of
    [==], [!=], [<=], [>=], [&&] or [||], it emits one token of the
    two-character kind and consumes both; before [=], [!], [<] or [>] not
    followed by [=], it emits one token of that character's own kind and
    consumes it; before a lone [&] or a lone [|] it emits no token, prints
    "Unexpected character" and consumes it. *)
Theorem operators_are_matched_greedily (lx : Lexer.t) :
  Lexer._is_at_end lx = false ->
  (forall c1 c2 kind,
     In (c1, c2, kind) two_character_kinds ->
     Lexer._peek lx = c1 -> Lexer._peek_next lx = c2 ->
     map Token.type (Lexer.tokens (Lexer._scan_token lx)) =
       map Token.type (Lexer.tokens lx) ++ [kind]
     /\ Lexer.current (Lexer._scan_token lx) = Lexer.current lx + 2
     /\ Lexer.stdout (Lexer._scan_token lx) = Lexer.stdout lx)
  /\ (forall c1 kind,
       In (c1, kind) prefix_kinds ->
       Lexer._peek lx = c1 -> Lexer._peek_next lx <> "="%char ->
       map Token.type (Lexer.tokens (Lexer._scan_token lx)) =
         map Token.type (Lexer.tokens lx) ++ [kind]
       /\ Lexer.current (Lexer._scan_token lx) = Lexer.current lx + 1
       /\ Lexer.stdout (Lexer._scan_token lx) = Lexer.stdout lx)
  /\ (forall c1,
       c1 = "&"%char \/ c1 = "|"%char ->
       Lexer._peek lx = c1 -> Lexer._peek_next lx <> c1 ->
       Lexer.tokens (Lexer._scan_token lx) = Lexer.tokens lx
       /\ Lexer.current (Lexer._scan_token lx) = Lexer.current lx + 1
       /\ Lexer.stdout (Lexer._scan_token lx) =
          Lexer.stdout lx ++
          ["[" +:+ Py.str_nat (Lexer.line lx) +:+ ":" +:+ Py.str_nat (Lexer.col lx + 1)
           +:+ "] Unexpected character: " +:+ Py.chr c1]).
Proof.
  intros Hend. split; [|split].
  - intros c1 c2 kind Hin H1 H2. simpl in Hin.
    repeat (destruct Hin as [Hin|Hin]; [injection Hin as <- <- <-|]); [..|destruct Hin].
    all: rewrite (scan_token_operator lx _ Hend H1 eq_refl).
    all: unfold Lexer._handle_operator_or_punct.
    all: rewrite peek_after_advance, H2.
    all: simpl; rewrite map_app; simpl.
    all: repeat split; lia.
  - intros c1 kind Hin H1 H2. simpl in Hin.
    apply Ascii.eqb_neq in H2.
    repeat (destruct Hin as [Hin|Hin]; [injection Hin as <- <-|]); [..|destruct Hin].
    all: rewrite (scan_token_operator lx _ Hend H1 eq_refl).
    all: unfold Lexer._handle_operator_or_punct.
    all: rewrite peek_after_advance, H2.
    all: simpl; rewrite map_app; simpl.
    all: repeat split; lia.
  - intros c1 Hc H1 H2.
    apply Ascii.eqb_neq in H2.
    destruct Hc as [-> | ->].
    all: rewrite (scan_token_operator lx _ Hend H1 eq_refl).
    all: unfold Lexer._handle_operator_or_punct.
    all: rewrite peek_after_advance, H2.
    all: simpl.
    all: repeat split; lia.
Qed.

Lemma operators_are_matched_greedily_witness :
  (map Token.type (Lexer.tokens (Lexer._scan_token (Lexer.init "<=<"))) =
     map Token.type (Lexer.tokens (Lexer.init "<=<")) ++ ["LESS_EQ"]
   /\ Lexer.current (Lexer._scan_token (Lexer.init "<=<")) =
      Lexer.current (Lexer.init "<=<") + 2
   /\ Lexer.stdout (Lexer._scan_token (Lexer.init "<=<")) =
      Lexer.stdout (Lexer.init "<=<"))
  /\ map Token.type (Lexer.tokenize "== != <= >= && || = ! < > =a <1 !(") =
     ["EQ_EQ"; "BANG_EQ"; "LESS_EQ"; "GREATER_EQ"; "AND"; "OR"; "EQ"; "BANG";
      "LESS"; "GREATER"; "EQ"; "IDENTIFIER"; "LESS"; "DIGIT"; "BANG"; "LPAREN";
      "EOF"].
Proof.
  split.
  - apply (proj1 (operators_are_matched_greedily (Lexer.init "<=<") eq_refl)
             "<"%char "="%char "LESS_EQ").
    + simpl. auto.
    + reflexivity.
    + reflexivity.
  - vm_compute. reflexivity.
Defined.

(** ** C8: the constant flag *)

Lemma assign_chain_raises (fuel : nat) (st : list Environment) (env : nat)
    (name : Token) (v : value) (e : exception) :
  assign_chain fuel st env name v = Some (inl e) ->
  e = undefined name /\ ~ in_scope st env (Token.value name).
Proof.
  revert env. induction fuel as [|fuel IH]; intros env; simpl; [discriminate|].
  destruct (st !! env) as [e0|] eqn:He0; [|discriminate].
  destruct (values e0 !! Token.value name) as [old|] eqn:Hold; [discriminate|].
  destruct (enclosing e0) as [outer|] eqn:Houter.
  - intros H. destruct (IH outer H) as [-> Hnot]. split; [reflexivity|].
    intros Hin. inversion Hin as [? e1 ? H1 H2|? o e1 ? H1 H2 H3]; subst.
    + rewrite He0 in H1. injection H1 as <-. rewrite Hold in H2.
      now destruct H2.
    + rewrite He0 in H1. injection H1 as <-. rewrite Houter in H2.
      injection H2 as <-. contradiction.
  - intros [= <-]. split; [reflexivity|].
    intros Hin. inversion Hin as [? e1 ? H1 H2|? o e1 ? H1 H2 H3]; subst.
    + rewrite He0 in H1. injection H1 as <-. rewrite Hold in H2.
      now destruct H2.
    + rewrite He0 in H1. injection H1 as <-. congruence.
Qed.

Lemma grows_defined (s s' : t) (env : nat) (x : string) :
  grows_store s s' ->
  (exists e, store s !! env = Some e /\ is_Some (values e !! x)) ->
  exists e', store s' !! env = Some e' /\ is_Some (values e' !! x).
Proof.
  intros Hg (e & He & Hx). destruct (Hg env e He) as (e' & He' & _ & Hdom).
  exists e'. auto.
Qed.

Lemma evaluate_grows (fuel : nat) (expr : ast.Expression) (s s' : t) (v : value) :
  _evaluate fuel expr s = Ok v s' -> grows s s'.
Proof.
  intros H. pose proof (proj1 (evaluate_execute_grow fuel) expr s) as Hg.
  now rewrite H in Hg.
Qed.

Lemma var_declaration_defines (fuel : nat) (name : Token)
    (initializer : option ast.Expression) (constant : bool) (s s1 : t) :
  is_Some (store s !! environment s) ->
  _execute fuel (ast.VarDeclaration name initializer constant) s = Ok tt s1 ->
  environment s1 = environment s
  /\ exists e1, store s1 !! environment s = Some e1
       /\ is_Some (values e1 !! Token.value name).
Proof.
  intros [e He] H. destruct fuel as [|n]; [discriminate|].
  cbn [_execute] in H. unfold bind in H.
  destruct (match initializer with
            | Some e0 => _evaluate n e0
            | None => ret VNone
            end s) as [v0 s'| |] eqn:Hinit; try discriminate.
  assert (Hg : grows s s').
  { destruct initializer as [e0|].
    - exact (evaluate_grows n e0 s s' v0 Hinit).
    - injection Hinit as _ <-. reflexivity. }
  destruct Hg as [Henv Hstore].
  destruct (Hstore _ _ He) as (e' & He' & _ & _).
  simpl in H. injection H as <-. simpl. split; [assumption|].
  exists (bound (Token.value name) v0 e').
  rewrite Henv, list_lookup_alter_eq, He'. simpl. split; [reflexivity|].
  rewrite lookup_insert_eq. eauto.
Qed.

(** C8. The [constant] flag of a [VarDeclaration] plays no part in its
    execution; once a [conste] declaration has run, an assignment to its name
    succeeds whenever its right-hand side evaluates, and the name then reads
    as the value assigned; [Environment.assign] raises only "Undefined
    variable", and only for a name that neither the environment nor any one
    that encloses it defines. *)
Theorem constant_flag_is_ignored (fuel : nat) (name target : Token)
    (initializer : option ast.Expression) (value_node : ast.Expression)
    (v : value) (s s1 s2 : t) :
  is_Some (store s !! environment s) ->
  Token.value target = Token.value name ->
  _execute fuel (ast.VarDeclaration name initializer true) s = Ok tt s1 ->
  _evaluate fuel value_node s1 = Ok v s2 ->
  (forall constant,
     _execute fuel (ast.VarDeclaration name initializer constant) s = Ok tt s1)
  /\ (exists s3,
        _evaluate (S fuel) (ast.Assignment target value_node) s1 = Ok v s3
        /\ get (environment s3) target s3 = Ok v s3
        /\ environment s3 = environment s)
  /\ (forall env tok w e s',
        assign env tok w s = Raise e s' ->
        e = undefined tok /\ s' = s /\ ~ in_scope (store s) env (Token.value tok)).
Proof.
  intros Henv Htarget Hdecl Hvalue. split; [|split].
  - intros constant. destruct fuel; exact Hdecl.
  - destruct (var_declaration_defines _ _ _ _ _ _ Henv Hdecl) as (Henv1 & Hdef1).
    destruct (evaluate_grows _ _ _ _ _ Hvalue) as [Henv2 Hstore2].
    rewrite <- Henv1 in Hdef1.
    destruct (grows_defined s1 s2 _ _ Hstore2 Hdef1) as (e2 & He2 & Hx2).
    rewrite <- Htarget in Hx2. rewrite <- Henv2 in He2.
    eexists. split; [|split].
    + cbn [_evaluate]. unfold bind. rewrite Hvalue. simpl.
      rewrite (assign_defined_here s2 _ e2 target v He2 Hx2). simpl. reflexivity.
    + simpl. eapply get_defined_here.
      * simpl. apply list_lookup_insert_eq. eapply lookup_lt_Some; eassumption.
      * simpl. apply lookup_insert_eq.
    + simpl. congruence.
  - intros env tok w e s' H. unfold assign in H.
    destruct (assign_chain _ _ _ _ _) as [[e0|st']|] eqn:Hchain; try discriminate.
    injection H as <- <-.
    destruct (assign_chain_raises _ _ _ _ _ _ Hchain) as [-> Hnot]. auto.
Qed.

Lemma constant_flag_is_ignored_witness :
  (exists s3,
     _evaluate 3
       (ast.Assignment (Token.mk "IDENTIFIER" "c" 1 15)
          (ast.Literal (Token.mk "DIGIT" "2" 1 19) (ast.Float 2%float)))
       (with_store init (alter (bound "c" (VFloat 1%float)) 0 (store init))) =
     Ok (VFloat 2%float) s3
     /\ get (environment s3) (Token.mk "IDENTIFIER" "c" 1 15) s3 = Ok (VFloat 2%float) s3
     /\ environment s3 = environment init)
  /\ run_code Examples.reassigned_constant = Some ["2.0"; "2.0"].
Proof.
  split.
  - apply (constant_flag_is_ignored 2
             (Token.mk "IDENTIFIER" "c" 1 8) (Token.mk "IDENTIFIER" "c" 1 15)
             (Some (ast.Literal (Token.mk "DIGIT" "1" 1 12) (ast.Float 1%float)))
             (ast.Literal (Token.mk "DIGIT" "2" 1 19) (ast.Float 2%float))
             (VFloat 2%float) init
             (with_store init (alter (bound "c" (VFloat 1%float)) 0 (store init)))
             (with_store init (alter (bound "c" (VFloat 1%float)) 0 (store init)))).
    + eexists. reflexivity.
    + reflexivity.
    + reflexivity.
    + reflexivity.
  - vm_compute. reflexivity.
Defined.

(** ** C9: [returnz] outside any function *)

(** C9. A [ReturnStatement] executed at the top level raises [Return];
    [interpret] catches [RuntimeError] only, so the exception leaves
    [interpret], nothing is printed for it, and the statements after it are
    not run. *)
Theorem top_level_return_escapes (fuel : nat) (pre post : list ast.Statement)
    (keyword : Token) (value_node : option ast.Expression) (v : value) (s0 s s' : t) :
  for_each (_execute (S fuel)) pre s0 = Ok tt s ->
  match value_node with
  | Some e => _evaluate fuel e s = Ok v s'
  | None => v = VNone /\ s' = s
  end ->
  _execute (S fuel) (ast.ReturnStatement keyword value_node) s = Raise (Return v) s'
  /\ interpret (S fuel)
       (ast.mkProgram (pre ++ ast.ReturnStatement keyword value_node :: post)) s0 =
     Propagated (Return v) s'.
Proof.
  intros Hpre Hvalue.
  assert (Hret : _execute (S fuel) (ast.ReturnStatement keyword value_node) s =
                 Raise (Return v) s').
  { simpl. unfold bind. destruct value_node as [e|].
    - now rewrite Hvalue.
    - destruct Hvalue as [-> ->]. reflexivity. }
  split; [exact Hret|].
  now rewrite (interpret_raise (S fuel) pre post _ s0 s s' _ Hpre Hret).
Qed.

Lemma top_level_return_escapes_witness :
  (_execute 2
     (ast.ReturnStatement (Token.mk "RETURNZ" "returnz" 1 1)
        (Some (ast.Literal (Token.mk "DIGIT" "7" 1 9) (ast.Float PrimFloat.one))))
     init = Raise (Return (VFloat PrimFloat.one)) init
   /\ interpret 2
        (ast.mkProgram
           ([] ++ ast.ReturnStatement (Token.mk "RETURNZ" "returnz" 1 1)
                    (Some (ast.Literal (Token.mk "DIGIT" "7" 1 9)
                                       (ast.Float PrimFloat.one))) :: []))
        init = Propagated (Return (VFloat PrimFloat.one)) init)
  /\ option_map (fun o => (Examples.printed o, Examples.escaped o))
       (Examples.interpret_source Examples.top_level_return) =
     Some (["1.0"], option_map Return (option_map VFloat (PyFloat.of_string "7"))).
Proof.
  split.
  - apply (top_level_return_escapes 1 [] [] (Token.mk "RETURNZ" "returnz" 1 1)
             (Some (ast.Literal (Token.mk "DIGIT" "7" 1 9) (ast.Float PrimFloat.one)))
             (VFloat PrimFloat.one) init init init); reflexivity.
  - vm_compute. reflexivity.
Defined.

(** ** C10: comparisons of operands that are not both numbers *)

(** C10. The four ordering operators check nothing about their operands (a
    comparison never raises the interpreter's runtime error) and leave the
    comparison to the host; on a number and a string the host raises
    [TypeError], which [interpret] does not catch: it reaches the caller. *)
Theorem comparison_type_error_escapes (fuel : nat) (operator left_token right_token : Token)
    (x : float) (w : string) (post : list ast.Statement) (s : t) :
  In (Token.type operator) ["GREATER"; "GREATER_EQ"; "LESS"; "LESS_EQ"] ->
  (forall left right msg, binary_op operator left right <> inl (RuntimeError msg))
  /\ binary_op operator (VFloat x) (VStr w) = inl TypeError
  /\ binary_op operator (VStr w) (VFloat x) = inl TypeError
  /\ interpret (S (S (S fuel)))
       (ast.mkProgram
          (ast.ExpressionStatement
             (ast.BinaryOp (ast.Literal left_token (ast.Float x)) operator
                           (ast.Literal right_token (ast.Str w))) :: post)) s =
     Propagated TypeError s.
Proof.
  intros Hop.
  assert (Hcases : exists op, forall left right,
             binary_op operator left right = ordered op left right).
  { simpl in Hop. unfold binary_op, is_type.
    destruct Hop as [H|[H|[H|[H|[]]]]]; rewrite <- H; simpl;
      [exists GREATER | exists GREATER_EQ | exists LESS | exists LESS_EQ];
      reflexivity. }
  destruct Hcases as [op Hbin].
  split; [|split; [|split]].
  - intros left right msg. rewrite Hbin. unfold ordered.
    destruct (order op left right); discriminate.
  - now rewrite Hbin.
  - now rewrite Hbin.
  - unfold interpret. simpl. unfold bind. simpl. rewrite Hbin. reflexivity.
Qed.

Lemma comparison_type_error_escapes_witness :
  binary_op (Token.mk "LESS" "<" 1 3) (VFloat PrimFloat.one) (VStr "a") = inl TypeError
  /\ option_map (fun o => (Examples.printed o, Examples.escaped o))
       (Examples.interpret_source Examples.number_against_string) =
     Some (["1.0"], Some TypeError).
Proof.
  split.
  - apply (comparison_type_error_escapes 0 (Token.mk "LESS" "<" 1 3)
             (Token.mk "DIGIT" "1" 1 1) (Token.mk "WORD" "a" 1 5)
             PrimFloat.one "a" [] init).
    simpl. auto.
  - vm_compute. reflexivity.
Defined.

(** ** The tokens of the lexer *)

Lemma keyword_kinds (word kind : string) :
  Lexer._load_keywords !! word = Some kind -> In kind kinds_of_keywords.
Proof.
  intros H. unfold Lexer._load_keywords in H.
  apply elem_of_list_to_map_2, list_elem_of_In in H. simpl in H.
  repeat (destruct H as [H|H]; [injection H as <- <-; simpl; tauto|]).
  destruct H.
Qed.

Lemma not_a_keyword_kind (kind : string) :
  negb (existsb (String.eqb kind) kinds_of_keywords) = true -> ~ keyword_kind kind.
Proof.
  intros Hneg [word Hword]. apply keyword_kinds in Hword.
  apply negb_true_iff in Hneg.
  assert (existsb (String.eqb kind) kinds_of_keywords = true).
  { apply existsb_exists. exists kind. split; [assumption | apply String.eqb_refl]. }
  congruence.
Qed.

(** A token of a kind that is fixed where it is emitted, and is neither
    [EOF], nor [IDENTIFIER], nor [DIGIT], nor [WORD], nor a keyword's. *)
Lemma scanned_fixed_kind (source_code kind text : string) (line col : nat) :
  negb (existsb (String.eqb kind)
          ("EOF" :: "IDENTIFIER" :: "DIGIT" :: "WORD" :: kinds_of_keywords)) = true ->
  scanned source_code (Token.mk kind text line col).
Proof.
  intros H. simpl in H. apply negb_true_iff in H.
  apply orb_false_elim in H as [Heof H]. apply orb_false_elim in H as [Hid H].
  apply orb_false_elim in H as [Hdigit H]. apply orb_false_elim in H as [Hword H].
  apply String.eqb_neq in Heof, Hid, Hdigit, Hword.
  assert (Hkind : ~ keyword_kind kind).
  { apply not_a_keyword_kind. now apply negb_true_iff. }
  unfold scanned. cbn [Token.type Token.value]. repeat split; try assumption;
    intros; try contradiction.
  destruct H0; contradiction.
Qed.

(** The token of an identifier or of a keyword. *)
Lemma scanned_word (source_code text : string) (line col : nat) :
  identifier_text text ->
  scanned source_code
    (Token.mk (default "IDENTIFIER" (Lexer._load_keywords !! text)) text line col).
Proof.
  intros Htext. unfold scanned. cbn [Token.type Token.value].
  destruct (Lexer._load_keywords !! text) as [kind|] eqn:Hkw;
    cbn [default from_option id].
  - pose proof (keyword_kinds text kind Hkw) as Hin.
    repeat split; try (intros ->; simpl in Hin; intuition discriminate);
      try reflexivity.
    intros _. exact Htext.
  - repeat split; try discriminate; try reflexivity.
    + intros Hk. exfalso. now apply (not_a_keyword_kind "IDENTIFIER").
    + intros _. exact Htext.
Qed.

#[local] Instance emits_preorder (P : Token -> Prop) : PreOrder (emits P).
Proof.
  split.
  - intros lx. exists []. split; [now rewrite app_nil_r | constructor].
  - intros lx1 lx2 lx3 (n1 & H1 & F1) (n2 & H2 & F2). exists (n1 ++ n2).
    split; [rewrite H2, H1; now rewrite app_assoc | now apply Forall_app].
Qed.

Lemma emits_nothing (P : Token -> Prop) (lx lx' : Lexer.t) :
  Lexer.tokens lx' = Lexer.tokens lx -> emits P lx lx'.
Proof. intros H. exists []. split; [now rewrite app_nil_r | constructor]. Qed.

Lemma emits_add_token (P : Token -> Prop) (kind : string) (value : option string)
    (lx : Lexer.t) :
  (forall text line col, P (Token.mk kind text line col)) ->
  emits P lx (Lexer._add_token kind value lx).
Proof.
  intros HP. eexists. split; [reflexivity|]. constructor; [apply HP | constructor].
Qed.

Lemma while_emits (P : Token -> Prop) (n : nat) (cond : Lexer.t -> bool)
    (body : Lexer.t -> Lexer.t) (lx : Lexer.t) :
  (forall lx, emits P lx (body lx)) -> emits P lx (Lexer.while n cond body lx).
Proof.
  intros Hbody. revert lx. induction n as [|n IH]; intros lx; simpl.
  - reflexivity.
  - destruct (cond lx); [|reflexivity]. etransitivity; [apply Hbody | apply IH].
Qed.

Lemma while_keeps_tokens (n : nat) (cond : Lexer.t -> bool)
    (body : Lexer.t -> Lexer.t) (lx : Lexer.t) :
  (forall lx, Lexer.tokens (body lx) = Lexer.tokens lx) ->
  Lexer.tokens (Lexer.while n cond body lx) = Lexer.tokens lx.
Proof.
  intros Hbody. revert lx. induction n as [|n IH]; intros lx; simpl.
  - reflexivity.
  - destruct (cond lx); [|reflexivity]. now rewrite IH, Hbody.
Qed.

Lemma line_counting_step_keeps_tokens (lx : Lexer.t) (col' : nat) :
  Lexer.tokens
    (Lexer.advance_
       (if Ascii.eqb (Lexer._peek lx) Py.LF
        then Lexer.set_pos lx (Lexer.current lx) (Lexer.line lx + 1) col'
        else lx)) = Lexer.tokens lx.
Proof. destruct (Ascii.eqb _ _); reflexivity. Qed.

Ltac fixed_kind := intros; apply scanned_fixed_kind; reflexivity.

Lemma handle_operator_or_punct_emits (char : ascii) (lx : Lexer.t) :
  emits (scanned (Lexer.source lx)) lx (Lexer._handle_operator_or_punct char lx).
Proof.
  unfold Lexer._handle_operator_or_punct.
  repeat case_match;
    first [ apply (emits_nothing (scanned (Lexer.source lx))); reflexivity
          | match goal with
            | |- emits _ _ (Lexer.advance_ (Lexer._add_token ?k ?v ?l)) =>
                transitivity (Lexer._add_token k v l);
                [apply emits_add_token; fixed_kind
                | apply (emits_nothing (scanned (Lexer.source lx))); reflexivity]
            | |- emits _ _ (Lexer._add_token ?k ?v ?l) =>
                apply emits_add_token; fixed_kind
            end ].
Qed.

(** *** The text of a number *)

Lemma get_lookup (s : string) (i : nat) :
  String.get i s = list_ascii_of_string s !! i.
Proof.
  revert i. induction s as [|c s IH]; intros [|i]; simpl; auto.
Qed.

Lemma length_chars (s : string) : length (list_ascii_of_string s) = String.length s.
Proof. induction s as [|c s IH]; simpl; congruence. Qed.

Lemma chars_substring (s : string) (n m : nat) :
  list_ascii_of_string (String.substring n m s) =
  take m (drop n (list_ascii_of_string s)).
Proof.
  revert n m. induction s as [|c s IH]; intros [|n] [|m]; simpl; try reflexivity.
  - now rewrite IH.
  - apply IH.
  - apply IH.
Qed.

(** A character that the lexer accepts where it rejects [NUL], which
    stands for a read out of range, is in the source. *)
Lemma accepted_in_range (accept : ascii -> bool) (s : string) (i : nat) :
  accept Py.NUL = false -> accept (Py.index s i) = true ->
  list_ascii_of_string s !! i = Some (Py.index s i).
Proof.
  unfold Py.index. rewrite get_lookup.
  destruct (list_ascii_of_string s !! i); [reflexivity | congruence].
Qed.

Lemma peeked_in_range (lx : Lexer.t) :
  Lexer._is_at_end lx = false ->
  list_ascii_of_string (Lexer.source lx) !! Lexer.current lx = Some (Lexer._peek lx).
Proof.
  intros Hend. unfold Lexer._peek. rewrite Hend.
  unfold Lexer._is_at_end in Hend. apply Nat.leb_gt in Hend.
  unfold Py.index. rewrite get_lookup.
  destruct (lookup_lt_is_Some_2 (list_ascii_of_string (Lexer.source lx))
              (Lexer.current lx)) as [c ->]; [now rewrite length_chars | reflexivity].
Qed.

Lemma peeked_accepted (accept : ascii -> bool) (lx : Lexer.t) :
  accept Py.NUL = false -> accept (Lexer._peek lx) = true ->
  list_ascii_of_string (Lexer.source lx) !! Lexer.current lx = Some (Lexer._peek lx).
Proof.
  intros Hnul Hc. apply peeked_in_range.
  revert Hc. unfold Lexer._peek. destruct (Lexer._is_at_end lx); congruence.
Qed.

Lemma text_after_advance (lx : Lexer.t) (c : ascii) :
  Lexer.start lx <= Lexer.current lx ->
  list_ascii_of_string (Lexer.source lx) !! Lexer.current lx = Some c ->
  text_so_far (Lexer.advance_ lx) = text_so_far lx ++ [c].
Proof.
  intros Hle Hc. unfold text_so_far. simpl.
  replace (Lexer.current lx + 1 - Lexer.start lx)
    with (S (Lexer.current lx - Lexer.start lx)) by lia.
  apply take_S_r. rewrite lookup_drop.
  now replace (Lexer.start lx + (Lexer.current lx - Lexer.start lx))
    with (Lexer.current lx) by lia.
Qed.

(** The text of a token that starts with the character just read. *)
Lemma text_of_first (lx : Lexer.t) (c : ascii) :
  Lexer.current lx = Lexer.start lx + 1 ->
  list_ascii_of_string (Lexer.source lx) !! Lexer.start lx = Some c ->
  text_so_far lx = [c].
Proof.
  intros Hcur Hc. unfold text_so_far. rewrite Hcur.
  replace (Lexer.start lx + 1 - Lexer.start lx) with 1 by lia.
  rewrite (take_S_r _ 0 c); [reflexivity|].
  rewrite lookup_drop. now replace (Lexer.start lx + 0) with (Lexer.start lx) by lia.
Qed.

(** The loops of [_number] and of [_identifier]: they read characters of
    the source that they accept, one at least when they start on one. *)
Lemma loop_reads (accept : ascii -> bool) (n : nat) (lx : Lexer.t) :
  accept Py.NUL = false ->
  Lexer.start lx <= Lexer.current lx ->
  let lx' := Lexer.while n (fun lx => accept (Lexer._peek lx)) Lexer.advance_ lx in
  Lexer.source lx' = Lexer.source lx
  /\ Lexer.start lx' = Lexer.start lx
  /\ Lexer.start lx' <= Lexer.current lx'
  /\ exists read,
       Forall (fun c => accept c = true
                        /\ In c (list_ascii_of_string (Lexer.source lx))) read
       /\ text_so_far lx' = text_so_far lx ++ read
       /\ (0 < n -> accept (Lexer._peek lx) = true -> read <> []).
Proof.
  intros Hnul. revert lx. induction n as [|n IH]; intros lx Hle; simpl.
  - repeat split; try assumption. exists []. rewrite app_nil_r.
    repeat split; [constructor | lia].
  - destruct (accept (Lexer._peek lx)) eqn:Haccept.
    + pose proof (peeked_accepted accept lx Hnul Haccept) as Hc.
      destruct (IH (Lexer.advance_ lx)) as (Hs & Hst & Hcur & read & Hall & Htext & _);
        [simpl; lia|].
      simpl in Hs, Hst. repeat split; try assumption.
      exists (Lexer._peek lx :: read). split; [|split].
      * constructor; [|exact Hall]. split; [assumption|].
        apply list_elem_of_In. eapply list_elem_of_lookup_2. eassumption.
      * rewrite Htext, (text_after_advance lx _ Hle Hc), <- app_assoc. reflexivity.
      * discriminate.
    + repeat split; try assumption. exists []. rewrite app_nil_r.
      repeat split; [constructor | discriminate].
Qed.

Lemma digits_loop_reads (n : nat) (lx : Lexer.t) :
  Lexer.start lx <= Lexer.current lx ->
  let lx' := Lexer.while n (fun lx => Py.isdigit (Lexer._peek lx)) Lexer.advance_ lx in
  Lexer.source lx' = Lexer.source lx
  /\ Lexer.start lx' = Lexer.start lx
  /\ Lexer.start lx' <= Lexer.current lx'
  /\ exists digits,
       Forall (digit_of (Lexer.source lx)) digits
       /\ text_so_far lx' = text_so_far lx ++ digits
       /\ (0 < n -> Py.isdigit (Lexer._peek lx) = true -> digits <> []).
Proof. apply (loop_reads Py.isdigit). reflexivity. Qed.

Lemma digit_in_range (s : string) (i : nat) :
  Py.isdigit (Py.index s i) = true ->
  list_ascii_of_string s !! i = Some (Py.index s i).
Proof. now apply (accepted_in_range Py.isdigit). Qed.

Lemma identifier_emits (lx : Lexer.t) :
  Lexer.current lx = Lexer.start lx + 1 ->
  Py.isalpha (Py.index (Lexer.source lx) (Lexer.start lx))
  || Ascii.eqb (Py.index (Lexer.source lx) (Lexer.start lx)) "_" = true ->
  emits (scanned (Lexer.source lx)) lx (Lexer._identifier lx).
Proof.
  intros Hcur Hfirst.
  pose proof (accepted_in_range (fun c => Py.isalpha c || Ascii.eqb c "_") _ _
                eq_refl Hfirst) as Hc0.
  pose proof (text_of_first lx _ Hcur Hc0) as Htext0.
  unfold Lexer._identifier. cbv zeta.
  destruct (loop_reads (fun c => Py.isalnum c || Ascii.eqb c "_")
              (Lexer.remaining lx) lx eq_refl)
    as (Hs1 & Hst1 & Hle1 & read & Hall & Htext1 & _); [lia|].
  cbv beta in Hs1, Hst1, Hle1, Htext1.
  match goal with
  | |- context [Lexer.while ?n ?c ?b lx] =>
      pose proof (while_keeps_tokens n c b lx (fun _ => eq_refl)) as Hk;
      set (lx1 := Lexer.while n c b lx) in *
  end.
  eexists. split; [unfold Lexer._add_token; cbn [Lexer.tokens]; rewrite Hk; reflexivity|].
  constructor; [apply scanned_word | constructor].
  eexists _, read. split; [|split; [exact Hfirst|]].
  - unfold Py.slice. rewrite chars_substring.
    change (text_so_far lx1 = Py.index (Lexer.source lx) (Lexer.start lx) :: read).
    now rewrite Htext1, Htext0.
  - eapply Forall_impl; [exact Hall|]. now intros c [Hc _].
Qed.

Lemma scanned_number (source_code text : string) (line col : nat) :
  number_text source_code text ->
  scanned source_code (Token.mk "DIGIT" text line col).
Proof.
  intros Htext. unfold scanned. cbn [Token.type Token.value].
  assert (Hkind : ~ keyword_kind "DIGIT") by now apply not_a_keyword_kind.
  repeat split; try discriminate; try contradiction; try (intros _; exact Htext).
  intros [H|H]; [discriminate | contradiction].
Qed.

Lemma number_emits (lx : Lexer.t) :
  Lexer.current lx = Lexer.start lx + 1 ->
  Py.isdigit (Py.index (Lexer.source lx) (Lexer.start lx)) = true ->
  emits (scanned (Lexer.source lx)) lx (Lexer._number lx).
Proof.
  intros Hcur Hfirst.
  pose proof (digit_in_range _ _ Hfirst) as Hc0.
  set (c0 := Py.index (Lexer.source lx) (Lexer.start lx)) in *.
  pose proof (text_of_first lx c0 Hcur Hc0) as Htext0.
  assert (Hd0 : digit_of (Lexer.source lx) c0).
  { split; [assumption|]. apply list_elem_of_In. eapply list_elem_of_lookup_2. eassumption. }
  unfold Lexer._number. cbv zeta.
  pose proof (fun l => while_keeps_tokens (Lexer.remaining l)
                (fun lx => Py.isdigit (Lexer._peek lx)) Lexer.advance_ l
                (fun _ => eq_refl)) as Hk.
  destruct (digits_loop_reads (Lexer.remaining lx) lx)
    as (Hs1 & Hst1 & Hle1 & ds1 & Hall1 & Htext1 & _); [lia|].
  set (lx1 := Lexer.while _ _ _ lx) in *.
  assert (H1 : Lexer.tokens lx1 = Lexer.tokens lx) by apply Hk.
  assert (Hwhole : number_text (Lexer.source lx)
                     (Py.slice (Lexer.source lx1) (Lexer.start lx1) (Lexer.current lx1))).
  { exists (c0 :: ds1), [].
    split; [discriminate | split; [now constructor | split; [constructor|]]].
    left. unfold Py.slice. rewrite chars_substring.
    change (text_so_far lx1 = c0 :: ds1). now rewrite Htext1, Htext0. }
  destruct (Ascii.eqb (Lexer._peek lx1) ".") eqn:Hdot; simpl andb.
  2: { eexists. split; [unfold Lexer._add_token; cbn [Lexer.tokens]; rewrite H1; reflexivity|].
       constructor; [|constructor]. now apply scanned_number. }
  destruct (Py.isdigit (Lexer._peek_next lx1)) eqn:Hnext.
  2: { eexists. split; [unfold Lexer._add_token; cbn [Lexer.tokens]; rewrite H1; reflexivity|].
       constructor; [|constructor]. now apply scanned_number. }
  (* a point, and a digit after it *)
  apply Ascii.eqb_eq in Hdot.
  assert (Hpoint : list_ascii_of_string (Lexer.source lx1) !! Lexer.current lx1
                   = Some "."%char).
  { rewrite <- Hdot. apply peeked_in_range.
    revert Hdot. unfold Lexer._peek. destruct (Lexer._is_at_end lx1); [discriminate|].
    reflexivity. }
  assert (Hafter : Py.isdigit (Lexer._peek (Lexer.advance_ lx1)) = true
                   /\ 0 < Lexer.remaining (Lexer.advance_ lx1)).
  { revert Hnext. unfold Lexer._peek_next, Lexer._peek, Lexer._is_at_end, Lexer.remaining.
    simpl. destruct (String.length (Lexer.source lx1) <=? Lexer.current lx1 + 1) eqn:Hend;
      [discriminate|].
    apply Nat.leb_gt in Hend. intros Hd. split; [exact Hd | lia]. }
  destruct Hafter as [Hdigit2 Hfuel2].
  destruct (digits_loop_reads (Lexer.remaining (Lexer.advance_ lx1)) (Lexer.advance_ lx1))
    as (Hs2 & Hst2 & Hle2 & ds2 & Hall2 & Htext2 & Hsome2); [simpl; lia|].
  set (lx2 := Lexer.while _ _ _ (Lexer.advance_ lx1)) in *.
  assert (H2 : Lexer.tokens lx2 = Lexer.tokens lx).
  { unfold lx2. rewrite Hk. simpl. exact H1. }
  eexists. split; [unfold Lexer._add_token; cbn [Lexer.tokens]; rewrite H2; reflexivity|].
  constructor; [|constructor]. apply scanned_number.
  exists (c0 :: ds1), ds2.
  simpl in Hs2, Hall2. rewrite Hs1 in Hall2.
  split; [discriminate | split; [now constructor | split; [assumption|]]].
  right. split; [now apply Hsome2|].
  unfold Py.slice. rewrite chars_substring.
  change (text_so_far lx2 = (c0 :: ds1) ++ "."%char :: ds2).
  rewrite Htext2, (text_after_advance lx1 _ Hle1 Hpoint), Htext1, Htext0.
  now rewrite <- app_assoc.
Qed.

(** The loop of [_string]: what it reads has no double quote. *)
Lemma string_loop_reads (n : nat) (lx : Lexer.t) :
  Lexer.start lx <= Lexer.current lx ->
  let lx' :=
    Lexer.while n
      (fun lx => negb (Ascii.eqb (Lexer._peek lx) Py.QUOTE) && negb (Lexer._is_at_end lx))
      (fun lx =>
         Lexer.advance_
           (if Ascii.eqb (Lexer._peek lx) Py.LF
            then Lexer.set_pos lx (Lexer.current lx) (Lexer.line lx + 1) (Lexer.col lx)
            else lx))
      lx in
  Lexer.start lx' = Lexer.start lx
  /\ Lexer.source lx' = Lexer.source lx
  /\ Lexer.current lx <= Lexer.current lx'
  /\ exists read, ~ In Py.QUOTE read /\ text_so_far lx' = text_so_far lx ++ read.
Proof.
  revert lx. induction n as [|n IH]; intros lx Hle; simpl.
  - repeat split; try lia. exists []. rewrite app_nil_r. auto.
  - destruct (Ascii.eqb (Lexer._peek lx) Py.QUOTE) eqn:Hquote; simpl.
    { repeat split; try lia. exists []. rewrite app_nil_r. auto. }
    destruct (Lexer._is_at_end lx) eqn:Hend; simpl.
    { repeat split; try lia. exists []. rewrite app_nil_r. auto. }
    pose proof (peeked_in_range lx Hend) as Hc.
    set (lx1 := Lexer.advance_ _).
    assert (H1 : Lexer.start lx1 = Lexer.start lx /\ Lexer.source lx1 = Lexer.source lx
                 /\ Lexer.current lx1 = Lexer.current lx + 1
                 /\ text_so_far lx1 = text_so_far lx ++ [Lexer._peek lx]).
    { unfold lx1. destruct (Ascii.eqb (Lexer._peek lx) Py.LF).
      - repeat split.
        exact (text_after_advance
                 (Lexer.set_pos lx (Lexer.current lx) (Lexer.line lx + 1) (Lexer.col lx))
                 _ Hle Hc).
      - repeat split. exact (text_after_advance lx _ Hle Hc). }
    destruct H1 as (Hst1 & Hs1 & Hcur1 & Htext1).
    destruct (IH lx1) as (Hst & Hs & Hcur & read & Hread & Htext); [lia|].
    repeat split; try congruence; try lia.
    exists (Lexer._peek lx :: read). split.
    + intros [Hq|Hin]; [|contradiction].
      rewrite <- Hq, Ascii.eqb_refl in Hquote. discriminate.
    + rewrite Htext, Htext1, <- app_assoc. reflexivity.
Qed.

Lemma string_emits (lx : Lexer.t) :
  Lexer.current lx = Lexer.start lx + 1 ->
  emits (scanned (Lexer.source lx)) lx (Lexer._string lx).
Proof.
  intros Hcur. unfold Lexer._string.
  destruct (string_loop_reads (Lexer.remaining lx) lx)
    as (Hst1 & Hs1 & Hle1 & read & Hread & Htext1); [lia|].
  match goal with
  | |- context [Lexer.while ?n ?c ?b lx] =>
      pose proof (while_keeps_tokens n c b lx) as Hk;
      set (lx1 := Lexer.while n c b lx) in *
  end.
  specialize (Hk (fun l => line_counting_step_keeps_tokens l _)).
  destruct (Lexer._is_at_end lx1).
  - apply (emits_nothing (scanned (Lexer.source lx))). simpl. exact Hk.
  - eexists. split; [simpl; rewrite Hk; reflexivity|].
    constructor; [|constructor].
    unfold scanned. cbn [Token.type Token.value].
    repeat split; try discriminate.
    + intros Hkw. exfalso. now apply (not_a_keyword_kind "WORD").
    + intros [H|Hkw]; [discriminate|]. exfalso. now apply (not_a_keyword_kind "WORD").
    + intros _ Hin. apply Hread.
      revert Hin. unfold Py.slice. rewrite chars_substring. simpl.
      rewrite Hst1, Hs1.
      replace (Lexer.current lx1 + 1 - 1 - (Lexer.start lx + 1))
        with (Lexer.current lx1 - Lexer.start lx - 1) by lia.
      intros Hin.
      assert (Hsub : take (Lexer.current lx1 - Lexer.start lx - 1)
                       (drop (Lexer.start lx + 1)
                          (list_ascii_of_string (Lexer.source lx)))
                     = drop 1 (text_so_far lx1)).
      { unfold text_so_far. rewrite Hst1, Hs1.
        replace (Lexer.current lx1 - Lexer.start lx)
          with (1 + (Lexer.current lx1 - Lexer.start lx - 1)) by lia.
        rewrite <- take_drop_commute, drop_drop. f_equal. lia. }
      rewrite Hsub, Htext1 in Hin.
      assert (Hlen0 : length (text_so_far lx) <= 1).
      { unfold text_so_far. rewrite length_take. lia. }
      apply list_elem_of_In in Hin. apply list_elem_of_In.
      destruct (text_so_far lx) as [|c0 [|c1 rest]]; simpl in *; try lia.
      * exact (subseteq_drop 1 read _ Hin).
      * rewrite drop_0 in Hin. exact Hin.
Qed.

Lemma scan_token_emits (lx : Lexer.t) :
  emits (scanned (Lexer.source lx)) lx (Lexer._scan_token lx).
Proof.
  unfold Lexer._scan_token, Lexer._advance. cbv zeta.
  set (lx1 := Lexer.set_pos _ _ _ _).
  assert (Hstart : forall lx', emits (scanned (Lexer.source lx1)) lx1 lx' ->
                               emits (scanned (Lexer.source lx)) lx lx').
  { intros lx' (new & H & F). exists new. split; assumption. }
  repeat case_match; apply Hstart;
    try apply handle_operator_or_punct_emits;
    try (apply identifier_emits; [reflexivity | assumption]);
    try (apply number_emits; [reflexivity | assumption]);
    try (apply string_emits; reflexivity);
    try (apply (emits_nothing (scanned (Lexer.source lx1))); reflexivity);
    try (apply emits_add_token; fixed_kind).
  - apply (emits_nothing (scanned (Lexer.source lx1))). now apply while_keeps_tokens.
  - apply (emits_nothing (scanned (Lexer.source lx1))). simpl.
    now rewrite while_keeps_tokens by (intros l; apply line_counting_step_keeps_tokens).
  - apply (emits_nothing (scanned (Lexer.source lx1))).
    now rewrite while_keeps_tokens by (intros l; apply line_counting_step_keeps_tokens).
Qed.

Lemma scan_loop_emits (n : nat) (lx : Lexer.t) :
  emits (scanned (Lexer.source lx)) lx
    (Lexer.while n (fun lx => negb (Lexer._is_at_end lx)) Lexer._scan_token lx).
Proof.
  revert lx. induction n as [|n IH]; intros lx; simpl.
  - reflexivity.
  - destruct (negb (Lexer._is_at_end lx)); [|reflexivity].
    etransitivity; [apply scan_token_emits|].
    specialize (IH (Lexer._scan_token lx)).
    now rewrite (proj1 (scan_token_advances lx)) in IH.
Qed.

(** The tokens of a source: those scanned, and then the [EOF]. *)
Lemma tokenize_shape (source_code : string) :
  exists scanned_tokens eof,
    Lexer.tokenize source_code = scanned_tokens ++ [eof]
    /\ Token.type eof = "EOF" /\ Token.value eof = ""
    /\ Forall (scanned source_code) scanned_tokens
    /\ String.length source_code <= Lexer.current (Lexer.run source_code).
Proof.
  unfold Lexer.tokenize.
  destruct (tokenize_reaches_the_end source_code) as [Hend _].
  unfold Lexer.run in *. cbv zeta in *. simpl in *.
  set (lx0 := Lexer.init source_code) in *.
  destruct (scan_loop_emits (Lexer.remaining lx0) lx0) as (new & Hnew & Hall).
  eexists new, _. rewrite Hnew. simpl.
  repeat split; [assumption | lia].
Qed.

(** ** [float] reads the text of a number *)

Lemma plain_digit_cases (c : ascii) :
  PyFloat.is_digit c = true ->
  In c ["0"; "1"; "2"; "3"; "4"; "5"; "6"; "7"; "8"; "9"]%char.
Proof.
  destruct c as [[] [] [] [] [] [] [] []]; vm_compute; intros H;
    try discriminate; tauto.
Qed.

Ltac by_digit_cases H :=
  apply plain_digit_cases in H; simpl in H;
  repeat (destruct H as [<-|H]; [reflexivity|]); destruct H.

Lemma digit_is_no_space (c : ascii) :
  PyFloat.is_digit c = true -> PyFloat.is_space c = false.
Proof. intros H. by_digit_cases H. Qed.

Lemma digit_is_no_underscore (c : ascii) :
  PyFloat.is_digit c = true -> Ascii.eqb c "_" = false.
Proof. intros H. by_digit_cases H. Qed.

Lemma digit_is_no_sign (c : ascii) (l : list ascii) :
  PyFloat.is_digit c = true -> PyFloat.take_sign (c :: l) = (false, c :: l).
Proof. intros H. by_digit_cases H. Qed.

Lemma digit_spells_no_word (c : ascii) (l : list ascii) :
  PyFloat.is_digit c = true ->
  PyFloat.spells "inf" (c :: l) || PyFloat.spells "infinity" (c :: l) = false
  /\ PyFloat.spells "nan" (c :: l) = false.
Proof.
  intros H. apply plain_digit_cases in H. simpl in H.
  repeat (destruct H as [<-|H]; [split; reflexivity|]). destruct H.
Qed.

Lemma drop_spaces_none (l : list ascii) :
  Forall (fun c => PyFloat.is_space c = false) l -> PyFloat.drop_spaces l = l.
Proof. intros [|c l' Hc _]; simpl; [reflexivity | now rewrite Hc]. Qed.

Lemma strip_none (l : list ascii) :
  Forall (fun c => PyFloat.is_space c = false) l -> PyFloat.strip l = l.
Proof.
  intros H. unfold PyFloat.strip. rewrite (drop_spaces_none l H).
  rewrite drop_spaces_none by now apply Forall_rev.
  apply rev_involutive.
Qed.

Lemma drop_underscores_none (prev : ascii) (l : list ascii) :
  Ascii.eqb prev "_" = false ->
  Forall (fun c => Ascii.eqb c "_" = false) l ->
  PyFloat.drop_underscores prev l = Some l.
Proof.
  intros Hprev H. revert prev Hprev. induction H as [|c l Hc _ IH]; intros prev Hprev; simpl.
  - now rewrite Hprev.
  - rewrite Hc, Hprev. simpl. now rewrite (IH c Hc).
Qed.

Lemma take_digits_all (digits rest : list ascii) :
  Forall (fun c => PyFloat.is_digit c = true) digits ->
  match rest with
  | c :: _ => PyFloat.is_digit c = false
  | [] => True
  end ->
  PyFloat.take_digits (digits ++ rest) = (digits, rest).
Proof.
  intros H Hrest. induction H as [|c l Hc _ IH]; simpl.
  - destruct rest as [|c rest]; [reflexivity|]. simpl. now rewrite Hrest.
  - now rewrite Hc, IH.
Qed.

Lemma number_text_is_read (source_code text : string) :
  plain_digits source_code -> number_text source_code text ->
  is_Some (PyFloat.of_string text).
Proof.
  intros Hplain (whole & fraction & Hwhole & Hw & Hf & Htext).
  assert (Hdigits : forall l, Forall (digit_of source_code) l ->
                              Forall (fun c => PyFloat.is_digit c = true) l).
  { intros l Hl. eapply Forall_impl; [exact Hl|]. intros c [Hd Hin]. now apply Hplain. }
  apply Hdigits in Hw, Hf.
  assert (Hchars : Forall (fun c => PyFloat.is_digit c = true \/ c = "."%char)
                     (list_ascii_of_string text)).
  { destruct Htext as [->|[_ ->]].
    - eapply Forall_impl; [exact Hw | auto].
    - apply Forall_app. split; [eapply Forall_impl; [exact Hw | auto]|].
      constructor; [auto|]. eapply Forall_impl; [exact Hf | auto]. }
  unfold PyFloat.of_string.
  rewrite strip_none.
  2: { eapply Forall_impl; [exact Hchars|]. intros c [H| ->];
       [now apply digit_is_no_space | reflexivity]. }
  rewrite drop_underscores_none; [|reflexivity|].
  2: { eapply Forall_impl; [exact Hchars|]. intros c [H| ->];
       [now apply digit_is_no_underscore | reflexivity]. }
  destruct whole as [|c whole]; [contradiction|].
  assert (Hc : PyFloat.is_digit c = true) by now inversion Hw.
  assert (Hhead : exists rest, list_ascii_of_string text = c :: rest).
  { destruct Htext as [->|[_ ->]]; eexists; reflexivity. }
  destruct Hhead as [rest Hrest]. rewrite Hrest.
  rewrite (digit_is_no_sign c rest Hc).
  destruct (digit_spells_no_word c rest Hc) as [-> ->].
  rewrite <- Hrest.
  destruct Htext as [->|[_ ->]].
  - rewrite <- (app_nil_r (c :: whole)) at 1.
    rewrite (take_digits_all (c :: whole) [] Hw I). simpl. eauto.
  - rewrite (take_digits_all (c :: whole) ("."%char :: fraction) Hw eq_refl).
    simpl Ascii.eqb. cbv iota.
    rewrite <- (app_nil_r fraction) at 1.
    rewrite (take_digits_all fraction [] Hf I). simpl. eauto.
Qed.

(** X1. Whatever the source, [tokenize] consumes all of it and returns a
    list that ends in an [EOF] token with an empty text; no token before
    the last is an [EOF]. *)
Theorem tokenize_ends_in_one_eof (source_code : string) :
  exists scanned_tokens eof,
    Lexer.tokenize source_code = scanned_tokens ++ [eof]
    /\ Token.type eof = "EOF" /\ Token.value eof = ""
    /\ Forall (fun tok => Token.type tok <> "EOF") scanned_tokens
    /\ String.length source_code <= Lexer.current (Lexer.run source_code).
Proof.
  destruct (tokenize_shape source_code) as (toks & eof & Htok & Htype & Hvalue & Hall & Hend).
  exists toks, eof. repeat split; try assumption.
  eapply Forall_impl; [exact Hall|]. intros tok Hscanned. apply Hscanned.
Qed.

(** X2. A reserved word never comes out of the lexer as an [IDENTIFIER],
    and a token of a keyword's kind has the text of a keyword of that kind
    (what stands between quotes is a [WORD], whatever it spells). *)
Theorem reserved_words_are_never_identifiers (source_code : string) :
  Forall (fun tok =>
            (Token.type tok = "IDENTIFIER" ->
             Lexer._load_keywords !! Token.value tok = None)
            /\ (keyword_kind (Token.type tok) ->
                Lexer._load_keywords !! Token.value tok = Some (Token.type tok)))
         (Lexer.tokenize source_code).
Proof.
  destruct (tokenize_shape source_code) as (toks & eof & -> & Htype & Hvalue & Hall & _).
  apply Forall_app. split.
  - eapply Forall_impl; [exact Hall|]. intros tok (_ & Hid & Hkw & _). now split.
  - constructor; [|constructor]. rewrite Htype. split; [discriminate|].
    intros Hk. exfalso. now apply (not_a_keyword_kind "EOF").
Qed.


(** X3. The text of a token follows from its kind. The text of a [DIGIT]
    is one digit of the source or more, maybe followed by a [.] and one
    digit or more (a [.] that no digit follows is not taken), the digits
    being those of [str.isdigit]; where the source has no other digits than
    [0] to [9], [float] reads it. The text of an [IDENTIFIER] or of a
    keyword is a letter or an underscore followed by letters, digits and
    underscores. The text of a [WORD] has no double quote in it. *)
Theorem token_texts_follow_their_kind (source_code : string) :
  Forall (fun tok =>
            (Token.type tok = "DIGIT" ->
             number_text source_code (Token.value tok)
             /\ (plain_digits source_code ->
                 is_Some (PyFloat.of_string (Token.value tok))))
            /\ (Token.type tok = "IDENTIFIER" \/ keyword_kind (Token.type tok) ->
                identifier_text (Token.value tok))
            /\ (Token.type tok = "WORD" ->
                ~ In Py.QUOTE (list_ascii_of_string (Token.value tok))))
         (Lexer.tokenize source_code).
Proof.
  destruct (tokenize_shape source_code) as (toks & eof & -> & Htype & Hvalue & Hall & _).
  apply Forall_app. split.
  - eapply Forall_impl; [exact Hall|].
    intros tok (_ & _ & _ & Hnumber & Hname & Hword).
    split; [|split; assumption].
    intros Hdigit. split; [now apply Hnumber|]. intros Hplain.
    apply (number_text_is_read source_code); [assumption | now apply Hnumber].
  - constructor; [|constructor]. rewrite Htype.
    split; [discriminate | split; [|discriminate]].
    intros [H|Hkw]; [discriminate|]. exfalso. now apply (not_a_keyword_kind "EOF").
Qed.

(** ** The parser stays within its tokens *)

(** What the helper methods return on a position that holds a token. *)
Lemma peek_at (tokens : list Token) (c : nat) (t : Token) :
  tokens !! c = Some t -> Parser._peek tokens c = Parser.Ok t c.
Proof. intros H. unfold Parser._peek, Parser.token_at. now rewrite H. Qed.

Lemma is_at_end_at (tokens : list Token) (c : nat) (t : Token) :
  tokens !! c = Some t ->
  Parser._is_at_end tokens c = Parser.Ok (String.eqb (Token.type t) "EOF") c.
Proof.
  intros H. unfold Parser._is_at_end, Parser.bind. now rewrite (peek_at tokens c t H).
Qed.

Lemma previous_at (tokens : list Token) (c j : nat) (eof : Token) :
  tokens !! j = Some eof -> c <= j ->
  exists p, Parser._previous tokens c = Parser.Ok p c.
Proof.
  intros Hj Hle. pose proof (lookup_lt_Some _ _ _ Hj) as Hlt.
  unfold Parser._previous, Parser.token_at. destruct c as [|i].
  - destruct (lookup_lt_is_Some_2 tokens (length tokens - 1)) as [p ->]; [lia|].
    now exists p.
  - destruct (lookup_lt_is_Some_2 tokens i) as [p ->]; [lia|]. now exists p.
Qed.

Lemma advance_at (tokens : list Token) (c : nat) (t : Token) :
  tokens !! c = Some t -> String.eqb (Token.type t) "EOF" = false ->
  Parser._advance tokens c = Parser.Ok t (c + 1).
Proof.
  intros H Heof. unfold Parser._advance, Parser.bind.
  rewrite (is_at_end_at tokens c t H), Heof.
  unfold Parser._previous, Parser.token_at. replace (c + 1) with (S c) by lia.
  now rewrite H.
Qed.

Lemma check_at (tokens : list Token) (c : nat) (t : Token) (token_type : string) :
  tokens !! c = Some t ->
  Parser._check tokens token_type c =
    Parser.Ok (negb (String.eqb (Token.type t) "EOF")
               && String.eqb (Token.type t) token_type) c.
Proof.
  intros H. unfold Parser._check, Parser.bind.
  rewrite (is_at_end_at tokens c t H).
  destruct (String.eqb (Token.type t) "EOF"); [reflexivity|].
  now rewrite (peek_at tokens c t H).
Qed.

Lemma match_one_at (tokens : list Token) (c : nat) (t : Token) (token_type : string) :
  tokens !! c = Some t ->
  Parser._match tokens [token_type] c =
    if negb (String.eqb (Token.type t) "EOF") && String.eqb (Token.type t) token_type
    then Parser.Ok true (c + 1)
    else Parser.Ok false c.
Proof.
  intros H. cbn [Parser._match]. unfold Parser.bind at 1.
  rewrite (check_at tokens c t token_type H).
  destruct (String.eqb (Token.type t) "EOF") eqn:Hend; [reflexivity|].
  destruct (String.eqb (Token.type t) token_type); [|reflexivity].
  simpl. unfold Parser.bind. now rewrite (advance_at tokens c t H Hend).
Qed.

Section StaysBeforeEof.

Variable tokens : list Token.
Variable j : nat.
Variable eof : Token.
Hypothesis eof_at_j : tokens !! j = Some eof.
Hypothesis eof_is_eof : Token.type eof = "EOF".

(** The errors that are allowed: those of the grammar, and [ValueError]
    where the text of a [DIGIT] is not one that [float] reads. *)
Variable allowed : Parser.error -> Prop.
Hypothesis allowed_parse_error : forall msg, allowed (Parser.ParseError msg).
Hypothesis allowed_value_error :
  forall t, In t tokens -> Token.type t = "DIGIT" ->
    PyFloat.of_string (Token.value t) = None -> allowed Parser.ValueError.

Abbreviation safe := (stays_before j allowed).

Lemma safe_ret {A} (a : A) : safe (Parser.ret a).
Proof. intros c Hc. exact Hc. Qed.

Lemma safe_out_of_fuel {A} : safe (@Parser.out_of_fuel A).
Proof. intros c Hc. exact I. Qed.

Lemma safe_raise_parse_error {A} (t : Token) (message : string) :
  safe (@Parser.raise A (Parser._error t message)).
Proof. intros c Hc. simpl. unfold Parser._error. apply allowed_parse_error. Qed.

Lemma safe_raise_value_error {A} :
  allowed Parser.ValueError -> safe (@Parser.raise A Parser.ValueError).
Proof. intros H c Hc. exact H. Qed.

Lemma safe_bind {A B} (m : Parser.M A) (k : A -> Parser.M B) :
  safe m -> (forall a, safe (k a)) -> safe (Parser.bind m k).
Proof.
  intros Hm Hk c Hc. unfold Parser.bind. specialize (Hm c Hc).
  destruct (m c) as [a c'| |]; [|assumption|exact I].
  exact (Hk a c' Hm).
Qed.

Lemma lookup_before_eof (c : nat) : c <= j -> exists t, tokens !! c = Some t.
Proof.
  intros Hle. apply lookup_lt_is_Some.
  pose proof (lookup_lt_Some _ _ _ eof_at_j). lia.
Qed.

Lemma safe_peek : safe (Parser._peek tokens).
Proof.
  intros c Hc. unfold Parser._peek, Parser.token_at.
  destruct (lookup_before_eof c Hc) as [t ->]. exact Hc.
Qed.

Lemma safe_previous : safe (Parser._previous tokens).
Proof.
  intros c Hc. unfold Parser._previous, Parser.token_at.
  pose proof (lookup_lt_Some _ _ _ eof_at_j) as Hlt.
  destruct c as [|i].
  - destruct (lookup_lt_is_Some_2 tokens (length tokens - 1)) as [t' ->]; [lia|].
    exact Hc.
  - destruct (lookup_lt_is_Some_2 tokens i) as [t' ->]; [lia|]. exact Hc.
Qed.

Lemma safe_is_at_end : safe (Parser._is_at_end tokens).
Proof.
  unfold Parser._is_at_end. apply safe_bind; [apply safe_peek | intros t; apply safe_ret].
Qed.

Lemma safe_advance : safe (Parser._advance tokens).
Proof.
  intros c Hc. unfold Parser._advance, Parser._is_at_end, Parser._peek,
    Parser.token_at, Parser.bind.
  destruct (lookup_before_eof c Hc) as [t Ht]. rewrite Ht. simpl.
  destruct (String.eqb (Token.type t) "EOF") eqn:Heof; simpl.
  - exact (safe_previous c Hc).
  - assert (Hc' : c + 1 <= j).
    { destruct (decide (c = j)) as [->|Hne]; [|lia].
      rewrite eof_at_j in Ht. injection Ht as <-.
      rewrite eof_is_eof in Heof. discriminate. }
    exact (safe_previous (c + 1) Hc').
Qed.

(** After [_match] has found a token of the type it was given,
    [_previous] is that token. *)
Lemma safe_match_previous {A} (token_type : string) (f : Token -> Parser.M A)
    (g : Parser.M A) :
  (forall t, In t tokens -> Token.type t = token_type -> safe (f t)) -> safe g ->
  safe (Parser.bind (Parser._match tokens [token_type])
          (fun found => if found then Parser.bind (Parser._previous tokens) f else g)).
Proof.
  intros Hf Hg c Hc. destruct (lookup_before_eof c Hc) as [t Ht].
  unfold Parser.bind at 1. rewrite (match_one_at tokens c t token_type Ht).
  destruct (String.eqb (Token.type t) "EOF") eqn:Hend; simpl; [now apply Hg|].
  destruct (String.eqb (Token.type t) token_type) eqn:Htype; [|now apply Hg].
  unfold Parser.bind, Parser._previous, Parser.token_at.
  replace (c + 1) with (S c) by lia. rewrite Ht. simpl.
  apply Hf.
  - apply list_elem_of_In. eapply list_elem_of_lookup_2. eassumption.
  - now apply String.eqb_eq.
  - destruct (decide (c = j)) as [->|Hne]; [|lia].
    rewrite eof_at_j in Ht. injection Ht as <-.
    rewrite eof_is_eof in Hend. discriminate.
Qed.

Lemma safe_check (token_type : string) : safe (Parser._check tokens token_type).
Proof.
  unfold Parser._check. apply safe_bind; [apply safe_is_at_end | intros at_end].
  destruct at_end; [apply safe_ret|].
  apply safe_bind; [apply safe_peek | intros t; apply safe_ret].
Qed.

Lemma safe_match (types : list string) : safe (Parser._match tokens types).
Proof.
  induction types as [|t_type types IH]; simpl; [apply safe_ret|].
  apply safe_bind; [apply safe_check | intros found].
  destruct found; [|exact IH].
  apply safe_bind; [apply safe_advance | intros _; apply safe_ret].
Qed.

Lemma safe_consume (token_type message : string) :
  safe (Parser._consume tokens token_type message).
Proof.
  unfold Parser._consume. apply safe_bind; [apply safe_check | intros found].
  destruct found; [apply safe_advance|].
  apply safe_bind; [apply safe_peek | intros t; apply safe_raise_parse_error].
Qed.

Lemma safe_binary_loop (fuel : nat) (types : list string)
    (operand : Parser.M ast.Expression) (expr : ast.Expression) :
  safe operand -> safe (Parser.binary_loop tokens fuel types operand expr).
Proof.
  intros Hop. revert expr. induction fuel as [|fuel IH]; intros expr; cbn [Parser.binary_loop].
  - apply safe_out_of_fuel.
  - apply safe_bind; [apply safe_match | intros found].
    destruct found; [|apply safe_ret].
    apply safe_bind; [apply safe_previous | intros operator].
    apply safe_bind; [exact Hop | intros right_node]. apply IH.
Qed.

Lemma safe_comma_loop {A} (fuel : nat) (item : Parser.M A) (items : list A) :
  safe item -> safe (Parser.comma_loop tokens fuel item items).
Proof.
  intros Hitem. revert items. induction fuel as [|fuel IH]; intros items; cbn [Parser.comma_loop].
  - apply safe_out_of_fuel.
  - apply safe_bind; [apply safe_match | intros found].
    destruct found; [|apply safe_ret].
    apply safe_bind; [exact Hitem | intros x]. apply IH.
Qed.

Lemma safe_comma_separated {A} (fuel : nat) (closing : string) (item : Parser.M A) :
  safe item -> safe (Parser.comma_separated tokens fuel closing item).
Proof.
  intros Hitem. unfold Parser.comma_separated.
  apply safe_bind; [apply safe_check | intros closed].
  destruct closed; [apply safe_ret|].
  apply safe_bind; [exact Hitem | intros x]. now apply safe_comma_loop.
Qed.

Lemma safe_call_loop (fuel : nat)
    (finish_call : ast.Expression -> Parser.M ast.Expression) (expr : ast.Expression) :
  (forall callee, safe (finish_call callee)) ->
  safe (Parser.call_loop tokens fuel finish_call expr).
Proof.
  intros Hfinish. revert expr. induction fuel as [|fuel IH]; intros expr; cbn [Parser.call_loop].
  - apply safe_out_of_fuel.
  - apply safe_bind; [apply safe_match | intros found].
    destruct found; [|apply safe_ret].
    apply safe_bind; [apply Hfinish | intros expr']. apply IH.
Qed.

Lemma safe_block_loop (fuel : nat) (declaration : Parser.M ast.Statement)
    (statements : list ast.Statement) :
  safe declaration -> safe (Parser.block_loop tokens fuel declaration statements).
Proof.
  intros Hdecl. revert statements.
  induction fuel as [|fuel IH]; intros statements; cbn [Parser.block_loop].
  - apply safe_out_of_fuel.
  - apply safe_bind; [apply safe_check | intros closing].
    apply safe_bind;
      [destruct closing; [apply safe_ret | apply safe_is_at_end] | intros at_end].
    destruct (negb closing && negb at_end); [|apply safe_ret].
    apply safe_bind; [exact Hdecl | intros stmt]. apply IH.
Qed.

Ltac safe_step :=
  first
    [ assumption
    | apply safe_ret
    | apply safe_out_of_fuel
    | apply safe_raise_parse_error
    | apply safe_raise_value_error; eapply allowed_value_error; eassumption
    | apply safe_peek
    | apply safe_previous
    | apply safe_is_at_end
    | apply safe_advance
    | apply safe_check
    | apply safe_match
    | apply safe_consume
    | apply safe_binary_loop
    | apply safe_comma_separated
    | apply safe_call_loop
    | apply safe_block_loop
    | apply safe_match_previous; [intros ? ? ? | ]
    | apply safe_bind; [ | intros ?]
    | match goal with
      | |- stays_before _ _ (if ?b then _ else _) => destruct b
      | |- stays_before _ _ (match ?x with _ => _ end) => destruct x eqn:?
      end ].

(** The expression methods. *)
Lemma safe_expressions (fuel : nat) :
  safe (Parser._expression tokens fuel)
  /\ safe (Parser._assignment tokens fuel)
  /\ safe (Parser._logical_or tokens fuel)
  /\ safe (Parser._logical_and tokens fuel)
  /\ safe (Parser._equality tokens fuel)
  /\ safe (Parser._comparison tokens fuel)
  /\ safe (Parser._term tokens fuel)
  /\ safe (Parser._factor tokens fuel)
  /\ safe (Parser._unary tokens fuel)
  /\ safe (Parser._call tokens fuel)
  /\ (forall callee, safe (Parser._finish_call tokens fuel callee))
  /\ safe (Parser._primary tokens fuel)
  /\ safe (Parser._list_literal tokens fuel).
Proof.
  induction fuel as [|n IH].
  - repeat split; intros; apply safe_out_of_fuel.
  - destruct IH as (He & Ha & Hor & Hand & Heq & Hcmp & Ht & Hf & Hu & Hc & Hfc & Hp & Hl).
    repeat split; intros;
      cbn [Parser._expression Parser._assignment Parser._logical_or Parser._logical_and
           Parser._equality Parser._comparison Parser._term Parser._factor
           Parser._unary Parser._call Parser._finish_call Parser._primary
           Parser._list_literal];
      repeat safe_step.
Qed.

Lemma safe_expression (fuel : nat) : safe (Parser._expression tokens fuel).
Proof. apply safe_expressions. Qed.

Lemma safe_var_declaration (fuel : nat) (constant : bool) :
  safe (Parser._var_declaration tokens fuel constant).
Proof.
  pose proof (safe_expression fuel).
  unfold Parser._var_declaration. repeat safe_step.
Qed.

Lemma safe_return_statement (fuel : nat) : safe (Parser._return_statement tokens fuel).
Proof.
  pose proof (safe_expression fuel).
  unfold Parser._return_statement. repeat safe_step.
Qed.

Lemma safe_break_statement : safe (Parser._break_statement tokens).
Proof. unfold Parser._break_statement. repeat safe_step. Qed.

Lemma safe_expression_statement (fuel : nat) :
  safe (Parser._expression_statement tokens fuel).
Proof.
  pose proof (safe_expression fuel).
  unfold Parser._expression_statement. repeat safe_step.
Qed.

(** The statement methods. *)
Lemma safe_statements (fuel : nat) :
  safe (Parser._declaration tokens fuel)
  /\ safe (Parser._function_declaration tokens fuel)
  /\ safe (Parser._statement tokens fuel)
  /\ safe (Parser._if_statement tokens fuel)
  /\ safe (Parser._while_statement tokens fuel)
  /\ safe (Parser._block tokens fuel).
Proof.
  induction fuel as [|n IH].
  - repeat split; intros; apply safe_out_of_fuel.
  - destruct IH as (Hd & Hfd & Hs & Hi & Hw & Hb).
    pose proof (safe_expression n) as He.
    pose proof (safe_var_declaration n) as Hv.
    pose proof (safe_return_statement n) as Hr.
    pose proof safe_break_statement as Hbr.
    pose proof (safe_expression_statement n) as Hes.
    repeat split;
      cbn [Parser._declaration Parser._function_declaration Parser._statement
           Parser._if_statement Parser._while_statement Parser._block];
      repeat safe_step.
Qed.

Lemma safe_parse_loop (fuel : nat) (statements : list ast.Statement) :
  safe (Parser.parse_loop tokens fuel statements).
Proof.
  revert statements. induction fuel as [|fuel IH]; intros statements; cbn [Parser.parse_loop].
  - apply safe_out_of_fuel.
  - pose proof (proj1 (safe_statements fuel)) as Hd. repeat safe_step. apply IH.
Qed.

Lemma safe_synchronize (fuel : nat) : safe (Parser._synchronize tokens fuel).
Proof.
  unfold Parser._synchronize. apply safe_bind; [apply safe_advance | intros _].
  induction fuel as [|fuel IH]; cbn [Parser.synchronize_loop]; repeat safe_step.
Qed.

End StaysBeforeEof.

(** ** The parser comes to an end *)

Section Terminates.

Variable tokens : list Token.
Variable j : nat.
Variable eof : Token.
Hypothesis eof_at_j : tokens !! j = Some eof.
Hypothesis eof_is_eof : Token.type eof = "EOF".

Lemma token_before_eof (c : nat) : c <= j -> exists t, tokens !! c = Some t.
Proof.
  intros Hle. apply lookup_lt_is_Some.
  pose proof (lookup_lt_Some _ _ _ eof_at_j). lia.
Qed.

Lemma not_yet_eof (c : nat) (t : Token) :
  c <= j -> tokens !! c = Some t -> String.eqb (Token.type t) "EOF" = false ->
  c + 1 <= j.
Proof.
  intros Hle Ht Hend. destruct (decide (c = j)) as [->|Hne]; [|lia].
  rewrite eof_at_j in Ht. injection Ht as <-.
  rewrite eof_is_eof in Hend. discriminate.
Qed.

Lemma parses_ret {A} (k : nat) (a : A) (q : A -> nat) :
  q a <= k -> parses j k (Parser.ret a) q.
Proof. intros Hq c Hk Hj. simpl. lia. Qed.

Lemma parses_ret_here {A} (k : nat) (a : A) : parses j k (Parser.ret a) (fun _ => k).
Proof. now apply parses_ret. Qed.

Lemma parses_raise {A} (k : nat) (e : Parser.error) (q : A -> nat) :
  parses j k (@Parser.raise A e) q.
Proof. intros c Hk Hj. exact I. Qed.

Lemma parses_bind {A B} (k : nat) (m : Parser.M A) (f : A -> Parser.M B)
    (q : A -> nat) (r : B -> nat) :
  parses j k m q -> (forall a, parses j (q a) (f a) r) ->
  parses j k (Parser.bind m f) r.
Proof.
  intros Hm Hf c Hk Hj. unfold Parser.bind. specialize (Hm c Hk Hj).
  destruct (m c) as [a c'| |]; [|exact I|contradiction].
  destruct Hm as [Hq Hj']. exact (Hf a c' Hq Hj').
Qed.

Lemma parses_post {A} (k : nat) (m : Parser.M A) (q q' : A -> nat) :
  parses j k m q' -> (forall a, q a <= q' a) -> parses j k m q.
Proof.
  intros Hm Hq c Hk Hj. specialize (Hm c Hk Hj).
  destruct (m c) as [a c'| |]; [|exact I|contradiction].
  specialize (Hq a). lia.
Qed.

(** It is enough to look at each position on its own. *)
Lemma parses_each {A} (k : nat) (m : Parser.M A) (q : A -> nat) :
  (forall c, k <= c -> c <= j -> parses j c m q) -> parses j k m q.
Proof. intros H c Hk Hj. exact (H c Hk Hj c (Nat.le_refl c) Hj). Qed.

Lemma parses_peek (k : nat) : parses j k (Parser._peek tokens) (fun _ => k).
Proof.
  intros c Hk Hj. destruct (token_before_eof c Hj) as [t Ht].
  rewrite (peek_at tokens c t Ht). lia.
Qed.

Lemma parses_previous (k : nat) : parses j k (Parser._previous tokens) (fun _ => k).
Proof.
  intros c Hk Hj. destruct (previous_at tokens c j eof eof_at_j Hj) as [p ->]. lia.
Qed.

Lemma parses_is_at_end (k : nat) : parses j k (Parser._is_at_end tokens) (fun _ => k).
Proof.
  intros c Hk Hj. destruct (token_before_eof c Hj) as [t Ht].
  rewrite (is_at_end_at tokens c t Ht). lia.
Qed.

Lemma parses_check (k : nat) (token_type : string) :
  parses j k (Parser._check tokens token_type) (fun _ => k).
Proof.
  intros c Hk Hj. destruct (token_before_eof c Hj) as [t Ht].
  rewrite (check_at tokens c t token_type Ht). lia.
Qed.

(** [_match] that finds its token has gone over it. *)
Lemma parses_match (k : nat) (types : list string) :
  parses j k (Parser._match tokens types) (fun found => if found then S k else k).
Proof.
  intros c Hk Hj. destruct (token_before_eof c Hj) as [t Ht].
  induction types as [|token_type types IH]; cbn [Parser._match].
  - simpl. lia.
  - unfold Parser.bind at 1. rewrite (check_at tokens c t token_type Ht).
    destruct (String.eqb (Token.type t) "EOF") eqn:Hend; simpl; [exact IH|].
    destruct (String.eqb (Token.type t) token_type); [|exact IH].
    unfold Parser.bind. rewrite (advance_at tokens c t Ht Hend). simpl.
    pose proof (not_yet_eof c t Hj Ht Hend). lia.
Qed.

Lemma parses_consume (k : nat) (token_type message : string) :
  parses j k (Parser._consume tokens token_type message) (fun _ => S k).
Proof.
  intros c Hk Hj. destruct (token_before_eof c Hj) as [t Ht].
  unfold Parser._consume, Parser.bind. rewrite (check_at tokens c t token_type Ht).
  destruct (String.eqb (Token.type t) "EOF") eqn:Hend; simpl.
  - now rewrite (peek_at tokens c t Ht).
  - destruct (String.eqb (Token.type t) token_type).
    + rewrite (advance_at tokens c t Ht Hend).
      pose proof (not_yet_eof c t Hj Ht Hend). lia.
    + now rewrite (peek_at tokens c t Ht).
Qed.

(** The loops: each turn goes over a token, so as many turns as there are
    tokens left are enough. *)
Lemma parses_binary_loop (fuel : nat) (types : list string)
    (operand : Parser.M ast.Expression) (expr : ast.Expression) (k : nat) :
  (forall k', k < k' -> parses j k' operand (fun _ => k')) ->
  S j - k <= fuel ->
  parses j k (Parser.binary_loop tokens fuel types operand expr) (fun _ => k).
Proof.
  intros Hoperand. revert expr k Hoperand.
  induction fuel as [|fuel IH]; intros expr k Hoperand Hfuel; apply parses_each;
    intros c Hk Hj; [lia|].
  cbn [Parser.binary_loop].
  eapply parses_bind; [apply parses_match | intros found]. destruct found.
  - eapply parses_bind; [apply parses_previous | intros operator].
    eapply parses_bind; [apply Hoperand; lia | intros right_node].
    eapply parses_post; [apply IH; [intros k' Hk'; apply Hoperand; lia | lia]|].
    intros ?. simpl. lia.
  - apply parses_ret. lia.
Qed.

Lemma parses_comma_loop {A} (fuel : nat) (item : Parser.M A) (items : list A)
    (k : nat) (q : A -> nat) :
  (forall k', k <= k' -> parses j k' item (fun _ => k')) ->
  S j - k <= fuel ->
  parses j k (Parser.comma_loop tokens fuel item items) (fun _ => k).
Proof.
  intros Hitem. revert items k Hitem.
  induction fuel as [|fuel IH]; intros items k Hitem Hfuel; apply parses_each;
    intros c Hk Hj; [lia|].
  cbn [Parser.comma_loop].
  eapply parses_bind; [apply parses_match | intros found]. destruct found.
  - eapply parses_bind; [apply Hitem; lia | intros x].
    eapply parses_post; [apply IH; [intros k' Hk'; apply Hitem; lia | lia]|].
    intros ?. simpl. lia.
  - apply parses_ret. lia.
Qed.

Lemma parses_comma_separated {A} (fuel : nat) (closing : string)
    (item : Parser.M A) (k : nat) :
  (forall k', k <= k' -> parses j k' item (fun _ => k')) ->
  S j - k <= fuel ->
  parses j k (Parser.comma_separated tokens fuel closing item) (fun _ => k).
Proof.
  intros Hitem Hfuel. unfold Parser.comma_separated.
  eapply parses_bind; [apply parses_check | intros closed]. destruct closed.
  - apply parses_ret. lia.
  - eapply parses_bind; [apply Hitem; lia | intros x].
    now apply (parses_comma_loop fuel item [x] k (fun _ => k)).
Qed.

Lemma parses_call_loop (fuel : nat)
    (finish_call : ast.Expression -> Parser.M ast.Expression)
    (expr : ast.Expression) (k : nat) :
  (forall k' callee, k < k' -> parses j k' (finish_call callee) (fun _ => k')) ->
  S j - k <= fuel ->
  parses j k (Parser.call_loop tokens fuel finish_call expr) (fun _ => k).
Proof.
  intros Hfinish. revert expr k Hfinish.
  induction fuel as [|fuel IH]; intros expr k Hfinish Hfuel; apply parses_each;
    intros c Hk Hj; [lia|].
  cbn [Parser.call_loop].
  eapply parses_bind; [apply parses_match | intros found]. destruct found.
  - eapply parses_bind; [apply Hfinish; lia | intros expr'].
    eapply parses_post; [apply IH; [intros k' callee Hk'; apply Hfinish; lia | lia]|].
    intros ?. simpl. lia.
  - apply parses_ret. lia.
Qed.

(** The loop of a block goes over a token at each turn because a
    declaration that is parsed has. *)
Lemma parses_block_loop (fuel : nat) (declaration : Parser.M ast.Statement)
    (statements : list ast.Statement) (k : nat) :
  (forall k', k <= k' -> parses j k' declaration (fun _ => S k')) ->
  S j - k <= fuel ->
  parses j k (Parser.block_loop tokens fuel declaration statements) (fun _ => k).
Proof.
  intros Hdecl. revert statements k Hdecl.
  induction fuel as [|fuel IH]; intros statements k Hdecl Hfuel; apply parses_each;
    intros c Hk Hj; [lia|].
  cbn [Parser.block_loop].
  eapply parses_bind; [apply parses_check | intros closing].
  apply (parses_bind _ _ _ (fun _ => c));
    [destruct closing; [apply parses_ret; lia | apply parses_is_at_end]
    | intros at_end].
  destruct (negb closing && negb at_end).
  - eapply parses_bind; [apply Hdecl; lia | intros stmt].
    eapply parses_post; [apply IH; [intros k' Hk'; apply Hdecl; lia | lia]|].
    intros ?. simpl. lia.
  - apply parses_ret. lia.
Qed.

(** What a method needs at the position [k]: [20] for every token from
    [k] to the [EOF], and [level] for the methods it calls before it goes
    over a token. *)
Abbreviation enough level fuel k := (20 * (S j - k) + level <= fuel).

Ltac parses_vacuous k :=
  destruct (le_gt_dec k j);
  [ | intros ? ? ?; lia ].

Ltac parses_known :=
  first
    [ apply parses_match
    | apply parses_consume
    | apply parses_previous
    | apply parses_peek
    | apply parses_check
    | apply parses_is_at_end
    | match goal with
      | H : forall k, _ -> parses _ k ?m _ |- parses _ _ ?m _ => apply H; lia
      | H : forall k c, _ -> parses _ k (?m c) _ |- parses _ _ (?m _) _ =>
          apply H; lia
      | H : forall k, parses _ k ?m _ |- parses _ _ ?m _ => apply H
      end
    | apply parses_binary_loop;
      [ intros ? ?;
        match goal with
        | H : forall k, _ -> parses _ k ?m _ |- parses _ _ ?m _ => apply H; lia
        end
      | lia ]
    | apply parses_comma_separated;
      [ intros ? ?;
        first [ eapply parses_post; [apply parses_consume | intros; simpl; lia]
              | match goal with
                | H : forall k, _ -> parses _ k ?m _ |- parses _ _ ?m _ =>
                    apply H; lia
                end ]
      | lia ]
    | apply parses_call_loop;
      [ intros ? ? ?;
        match goal with
        | H : forall k c, _ -> parses _ k (?m c) _ |- parses _ _ (?m _) _ =>
            apply H; lia
        end
      | lia ]
    | apply parses_block_loop;
      [ intros ? ?;
        match goal with
        | H : forall k, _ -> parses _ k ?m _ |- parses _ _ ?m _ => apply H; lia
        end
      | lia ] ].

Ltac parses_step :=
  cbn beta iota;
  lazymatch goal with
  | |- parses _ _ (Parser.bind (if ?b then _ else _) _) _ => destruct b
  | |- parses _ _ (Parser.bind (Parser.bind _ _) _) _ =>
      eapply parses_bind; [ | intros ? ]
  | |- parses _ _ (Parser.bind (Parser.ret _) _) _ =>
      eapply parses_bind; [ apply parses_ret_here | intros ? ]
  | |- parses _ _ (Parser.bind _ _) _ =>
      eapply parses_bind; [ parses_known | intros ? ]
  | |- parses _ _ (Parser.ret _) _ =>
      first [ apply parses_ret_here | apply parses_ret; cbn beta iota; lia ]
  | |- parses _ _ (Parser.raise _) _ => apply parses_raise
  | |- parses _ _ (if ?b then _ else _) _ => destruct b
  | |- parses _ _ (match ?x with _ => _ end) _ => destruct x
  | |- parses _ _ _ _ =>
      eapply parses_post; [ parses_known | intros; cbn beta iota; lia ]
  end.

(** The expression methods. *)
Lemma expressions_end (fuel : nat) :
  (forall k, enough 2 fuel k -> parses j k (Parser._primary tokens fuel) (fun _ => k))
  /\ (forall k, enough 3 fuel k -> parses j k (Parser._call tokens fuel) (fun _ => k))
  /\ (forall k, enough 4 fuel k -> parses j k (Parser._unary tokens fuel) (fun _ => k))
  /\ (forall k, enough 5 fuel k -> parses j k (Parser._factor tokens fuel) (fun _ => k))
  /\ (forall k, enough 6 fuel k -> parses j k (Parser._term tokens fuel) (fun _ => k))
  /\ (forall k, enough 7 fuel k ->
                parses j k (Parser._comparison tokens fuel) (fun _ => k))
  /\ (forall k, enough 8 fuel k ->
                parses j k (Parser._equality tokens fuel) (fun _ => k))
  /\ (forall k, enough 9 fuel k ->
                parses j k (Parser._logical_and tokens fuel) (fun _ => k))
  /\ (forall k, enough 10 fuel k ->
                parses j k (Parser._logical_or tokens fuel) (fun _ => k))
  /\ (forall k, enough 11 fuel k ->
                parses j k (Parser._assignment tokens fuel) (fun _ => k))
  /\ (forall k, enough 12 fuel k ->
                parses j k (Parser._expression tokens fuel) (fun _ => k))
  /\ (forall k callee, enough 13 fuel k ->
                parses j k (Parser._finish_call tokens fuel callee) (fun _ => k))
  /\ (forall k, enough 13 fuel k ->
                parses j k (Parser._list_literal tokens fuel) (fun _ => k)).
Proof.
  induction fuel as [|n IH].
  - repeat split; intros k; intros; parses_vacuous k; lia.
  - destruct IH as (Hp & Hc & Hu & Hf & Ht & Hcmp & Heq & Hand & Hor & Ha & He & Hfc & Hl).
    repeat split; intros k; intros; parses_vacuous k;
      cbn [Parser._expression Parser._assignment Parser._logical_or Parser._logical_and
           Parser._equality Parser._comparison Parser._term Parser._factor
           Parser._unary Parser._call Parser._finish_call Parser._primary
           Parser._list_literal];
      repeat parses_step.
Qed.

Lemma expression_ends (fuel k : nat) :
  enough 12 fuel k -> parses j k (Parser._expression tokens fuel) (fun _ => k).
Proof. apply expressions_end. Qed.

(** A statement that is parsed has gone over a token. *)
Lemma var_declaration_ends (fuel k : nat) (constant : bool) :
  enough 12 fuel k ->
  parses j k (Parser._var_declaration tokens fuel constant) (fun _ => S k).
Proof.
  intros Hfuel. pose proof (expression_ends fuel) as He.
  unfold Parser._var_declaration. repeat parses_step.
Qed.

Lemma return_statement_ends (fuel k : nat) :
  enough 12 fuel k ->
  parses j k (Parser._return_statement tokens fuel) (fun _ => S k).
Proof.
  intros Hfuel. pose proof (expression_ends fuel) as He.
  unfold Parser._return_statement. repeat parses_step.
Qed.

Lemma break_statement_ends (k : nat) :
  parses j k (Parser._break_statement tokens) (fun _ => S k).
Proof. unfold Parser._break_statement. repeat parses_step. Qed.

Lemma expression_statement_ends (fuel k : nat) :
  enough 12 fuel k ->
  parses j k (Parser._expression_statement tokens fuel) (fun _ => S k).
Proof.
  intros Hfuel. pose proof (expression_ends fuel) as He.
  unfold Parser._expression_statement. repeat parses_step.
Qed.

Lemma statements_end (fuel : nat) :
  (forall k, enough 13 fuel k ->
             parses j k (Parser._statement tokens fuel) (fun _ => S k))
  /\ (forall k, enough 14 fuel k ->
                parses j k (Parser._if_statement tokens fuel) (fun _ => S k))
  /\ (forall k, enough 14 fuel k ->
                parses j k (Parser._while_statement tokens fuel) (fun _ => S k))
  /\ (forall k, enough 15 fuel k ->
                parses j k (Parser._declaration tokens fuel) (fun _ => S k))
  /\ (forall k, enough 16 fuel k ->
                parses j k (Parser._block tokens fuel) (fun _ => S k))
  /\ (forall k, enough 17 fuel k ->
                parses j k (Parser._function_declaration tokens fuel) (fun _ => S k)).
Proof.
  induction fuel as [|n IH].
  - repeat split; intros k; intros; parses_vacuous k; lia.
  - destruct IH as (Hs & Hi & Hw & Hd & Hb & Hfd).
    pose proof (expression_ends n) as He.
    pose proof (fun k c H => var_declaration_ends n k c H) as Hv.
    pose proof (return_statement_ends n) as Hr.
    pose proof (expression_statement_ends n) as Hes.
    pose proof break_statement_ends as Hbr.
    repeat split; intros k; intros; parses_vacuous k;
      cbn [Parser._declaration Parser._function_declaration Parser._statement
           Parser._if_statement Parser._while_statement Parser._block];
      repeat parses_step.
Qed.

Lemma parse_loop_ends (fuel : nat) (statements : list ast.Statement) (k : nat) :
  enough 16 fuel k ->
  parses j k (Parser.parse_loop tokens fuel statements) (fun _ => k).
Proof.
  revert statements k.
  induction fuel as [|fuel IH]; intros statements k Hfuel; parses_vacuous k; [lia|].
  apply parses_each. intros c Hk Hj. cbn [Parser.parse_loop].
  eapply parses_bind; [apply parses_is_at_end | intros at_end]. destruct at_end.
  - apply parses_ret. lia.
  - eapply parses_bind; [apply (proj1 (proj2 (proj2 (proj2 (statements_end fuel))))); lia
                        | intros stmt].
    eapply parses_post; [apply IH; lia | intros ?; simpl; lia].
Qed.

Lemma parse_ends (fuel : nat) :
  20 * (j + 1) + 16 <= fuel -> Parser.parse tokens fuel <> Parser.OutOfFuel.
Proof.
  intros Hfuel. unfold Parser.parse, Parser.bind.
  pose proof (parse_loop_ends fuel [] 0 ltac:(lia) 0 (Nat.le_refl 0) (Nat.le_0_l j)) as H.
  destruct (Parser.parse_loop tokens fuel [] 0); [discriminate.. | contradiction].
Qed.

End Terminates.

(** ** More fuel changes no result of the parser *)

Section Settles.

Variable tokens : list Token.

Lemma settles_refl {A} (m : Parser.M A) : settles m m.
Proof. intros c _. reflexivity. Qed.

Lemma settles_bind {A B} (m m' : Parser.M A) (k k' : A -> Parser.M B) :
  settles m m' -> (forall a, settles (k a) (k' a)) ->
  settles (Parser.bind m k) (Parser.bind m' k').
Proof.
  intros Hm Hk c. unfold Parser.bind. intros H.
  rewrite Hm by (intros E; now rewrite E in H).
  destruct (m c) as [a c'| |]; [now apply Hk | reflexivity | reflexivity].
Qed.

Lemma settles_binary_loop (n n' : nat) (types : list string)
    (operand operand' : Parser.M ast.Expression) (expr : ast.Expression) :
  n <= n' -> settles operand operand' ->
  settles (Parser.binary_loop tokens n types operand expr)
          (Parser.binary_loop tokens n' types operand' expr).
Proof.
  intros Hle Hop. revert n' Hle expr.
  induction n as [|n IH]; intros n' Hle expr; [intros c H; now contradiction H|].
  destruct n' as [|n']; [lia|]. cbn [Parser.binary_loop].
  apply settles_bind; [apply settles_refl | intros found].
  destruct found; [|apply settles_refl].
  apply settles_bind; [apply settles_refl | intros operator].
  apply settles_bind; [exact Hop | intros right_node]. apply IH. lia.
Qed.

Lemma settles_comma_loop {A} (n n' : nat) (item item' : Parser.M A) (items : list A) :
  n <= n' -> settles item item' ->
  settles (Parser.comma_loop tokens n item items)
          (Parser.comma_loop tokens n' item' items).
Proof.
  intros Hle Hitem. revert n' Hle items.
  induction n as [|n IH]; intros n' Hle items; [intros c H; now contradiction H|].
  destruct n' as [|n']; [lia|]. cbn [Parser.comma_loop].
  apply settles_bind; [apply settles_refl | intros found].
  destruct found; [|apply settles_refl].
  apply settles_bind; [exact Hitem | intros x]. apply IH. lia.
Qed.

Lemma settles_comma_separated {A} (n n' : nat) (closing : string)
    (item item' : Parser.M A) :
  n <= n' -> settles item item' ->
  settles (Parser.comma_separated tokens n closing item)
          (Parser.comma_separated tokens n' closing item').
Proof.
  intros Hle Hitem. unfold Parser.comma_separated.
  apply settles_bind; [apply settles_refl | intros closed].
  destruct closed; [apply settles_refl|].
  apply settles_bind; [exact Hitem | intros x]. now apply settles_comma_loop.
Qed.

Lemma settles_call_loop (n n' : nat)
    (finish_call finish_call' : ast.Expression -> Parser.M ast.Expression)
    (expr : ast.Expression) :
  n <= n' -> (forall callee, settles (finish_call callee) (finish_call' callee)) ->
  settles (Parser.call_loop tokens n finish_call expr)
          (Parser.call_loop tokens n' finish_call' expr).
Proof.
  intros Hle Hfinish. revert n' Hle expr.
  induction n as [|n IH]; intros n' Hle expr; [intros c H; now contradiction H|].
  destruct n' as [|n']; [lia|]. cbn [Parser.call_loop].
  apply settles_bind; [apply settles_refl | intros found].
  destruct found; [|apply settles_refl].
  apply settles_bind; [apply Hfinish | intros expr']. apply IH. lia.
Qed.

Lemma settles_block_loop (n n' : nat) (declaration declaration' : Parser.M ast.Statement)
    (statements : list ast.Statement) :
  n <= n' -> settles declaration declaration' ->
  settles (Parser.block_loop tokens n declaration statements)
          (Parser.block_loop tokens n' declaration' statements).
Proof.
  intros Hle Hdecl. revert n' Hle statements.
  induction n as [|n IH]; intros n' Hle statements; [intros c H; now contradiction H|].
  destruct n' as [|n']; [lia|]. cbn [Parser.block_loop].
  apply settles_bind; [apply settles_refl | intros closing].
  apply settles_bind; [apply settles_refl | intros at_end].
  destruct (negb closing && negb at_end); [|apply settles_refl].
  apply settles_bind; [exact Hdecl | intros stmt]. apply IH. lia.
Qed.

Ltac settles_step :=
  first
    [ assumption
    | apply settles_refl
    | apply settles_binary_loop; [lia | assumption]
    | apply settles_comma_separated; [lia | first [assumption | apply settles_refl]]
    | apply settles_call_loop; [lia | assumption]
    | apply settles_block_loop; [lia | assumption]
    | apply settles_bind; [ | intros ?]
    | match goal with
      | |- settles (if ?b then _ else _) _ => destruct b
      | H : forall x, settles (?f x) _ |- settles (?f _) _ => apply H
      end ].

Lemma expressions_settle (n : nat) :
  forall m, n <= m ->
    settles (Parser._expression tokens n) (Parser._expression tokens m)
    /\ settles (Parser._assignment tokens n) (Parser._assignment tokens m)
    /\ settles (Parser._logical_or tokens n) (Parser._logical_or tokens m)
    /\ settles (Parser._logical_and tokens n) (Parser._logical_and tokens m)
    /\ settles (Parser._equality tokens n) (Parser._equality tokens m)
    /\ settles (Parser._comparison tokens n) (Parser._comparison tokens m)
    /\ settles (Parser._term tokens n) (Parser._term tokens m)
    /\ settles (Parser._factor tokens n) (Parser._factor tokens m)
    /\ settles (Parser._unary tokens n) (Parser._unary tokens m)
    /\ settles (Parser._call tokens n) (Parser._call tokens m)
    /\ (forall callee, settles (Parser._finish_call tokens n callee)
                               (Parser._finish_call tokens m callee))
    /\ settles (Parser._primary tokens n) (Parser._primary tokens m)
    /\ settles (Parser._list_literal tokens n) (Parser._list_literal tokens m).
Proof.
  induction n as [|n IH]; intros m Hle.
  - repeat split; intros; intros c H; now contradiction H.
  - destruct m as [|m]; [lia|].
    destruct (IH m ltac:(lia))
      as (He & Ha & Hor & Hand & Heq & Hcmp & Ht & Hf & Hu & Hc & Hfc & Hp & Hl).
    repeat split; intros;
      cbn [Parser._expression Parser._assignment Parser._logical_or Parser._logical_and
           Parser._equality Parser._comparison Parser._term Parser._factor
           Parser._unary Parser._call Parser._finish_call Parser._primary
           Parser._list_literal];
      repeat settles_step.
Qed.

Lemma statements_settle (n : nat) :
  forall m, n <= m ->
    settles (Parser._declaration tokens n) (Parser._declaration tokens m)
    /\ settles (Parser._function_declaration tokens n)
               (Parser._function_declaration tokens m)
    /\ settles (Parser._statement tokens n) (Parser._statement tokens m)
    /\ settles (Parser._if_statement tokens n) (Parser._if_statement tokens m)
    /\ settles (Parser._while_statement tokens n) (Parser._while_statement tokens m)
    /\ settles (Parser._block tokens n) (Parser._block tokens m).
Proof.
  induction n as [|n IH]; intros m Hle.
  - repeat split; intros c H; now contradiction H.
  - destruct m as [|m]; [lia|].
    destruct (IH m ltac:(lia)) as (Hd & Hfd & Hs & Hi & Hw & Hb).
    pose proof (proj1 (expressions_settle n m ltac:(lia))) as He.
    repeat split;
      cbn [Parser._declaration Parser._function_declaration Parser._statement
           Parser._if_statement Parser._while_statement Parser._block];
      unfold Parser._var_declaration, Parser._return_statement,
        Parser._expression_statement;
      repeat settles_step.
Qed.

Lemma parse_loop_settles (n m : nat) (statements : list ast.Statement) :
  n <= m ->
  settles (Parser.parse_loop tokens n statements) (Parser.parse_loop tokens m statements).
Proof.
  revert m statements. induction n as [|n IH]; intros m statements Hle;
    [intros c H; now contradiction H|].
  destruct m as [|m]; [lia|]. cbn [Parser.parse_loop].
  apply settles_bind; [apply settles_refl | intros at_end].
  destruct at_end; [apply settles_refl|].
  apply settles_bind; [apply (statements_settle n m); lia | intros stmt].
  apply IH. lia.
Qed.

Lemma parse_settles (n m : nat) :
  n <= m -> Parser.parse tokens n <> Parser.OutOfFuel ->
  Parser.parse tokens m = Parser.parse tokens n.
Proof.
  intros Hle. unfold Parser.parse.
  apply (settles_bind _ _ _ _ (parse_loop_settles n m [] Hle)).
  intros statements. apply settles_refl.
Qed.

End Settles.

(** [parse] leaves its loop on an [EOF] token only. *)
Lemma parse_loop_stops_at_eof (tokens : list Token) (fuel : nat)
    (statements result : list ast.Statement) (c c' : nat) :
  Parser.parse_loop tokens fuel statements c = Parser.Ok result c' ->
  exists t, tokens !! c' = Some t /\ Token.type t = "EOF".
Proof.
  revert statements c. induction fuel as [|fuel IH]; intros statements c;
    cbn [Parser.parse_loop]; [discriminate|].
  unfold Parser.bind at 1.
  destruct (tokens !! c) as [t|] eqn:Ht.
  - rewrite (is_at_end_at tokens c t Ht).
    destruct (String.eqb (Token.type t) "EOF") eqn:Heof.
    + intros [= _ <-]. exists t. split; [assumption | now apply String.eqb_eq].
    + unfold Parser.bind. destruct (Parser._declaration tokens fuel c) as [stmt c1| |];
        try discriminate. apply IH.
  - unfold Parser._is_at_end, Parser._peek, Parser.token_at, Parser.bind.
    rewrite Ht. discriminate.
Qed.

(** X4. On a token list that holds an [EOF] token, the parser never reads
    beyond that token: [parse] raises no [IndexError] (its errors are
    [ParseError] and [ValueError]); where it succeeds, it has stopped on an
    [EOF] token, no later than the given one, so no token before the first
    [EOF] is left unparsed. *)
Theorem parse_stays_within_the_tokens (tokens : list Token) (fuel : nat)
    (eof : Token) (j : nat) :
  tokens !! j = Some eof -> Token.type eof = "EOF" ->
  Parser.parse tokens fuel <> Parser.Raise Parser.IndexError
  /\ (forall program current,
        Parser.parse tokens fuel = Parser.Ok program current ->
        current <= j
        /\ exists t, tokens !! current = Some t /\ Token.type t = "EOF").
Proof.
  intros Hj Heof.
  pose proof (safe_parse_loop tokens j eof Hj Heof no_index_error
                ltac:(discriminate) ltac:(discriminate) fuel [] 0 (Nat.le_0_l j))
    as Hsafe.
  unfold Parser.parse, Parser.bind.
  destruct (Parser.parse_loop tokens fuel [] 0) as [statements c| e |] eqn:Hloop.
  - split; [discriminate|]. intros program current [= _ <-].
    split; [exact Hsafe|]. exact (parse_loop_stops_at_eof _ _ _ _ _ _ Hloop).
  - split; [|discriminate]. intros [= ->]. now apply Hsafe.
  - split; discriminate.
Qed.

Lemma parse_stays_within_the_tokens_witness :
  Parser.parse (Lexer.tokenize "gimme x = ;") 50 <> Parser.Raise Parser.IndexError
  /\ (forall program current,
        Parser.parse (Lexer.tokenize "gimme x = ;") 50 = Parser.Ok program current ->
        current <= 4
        /\ exists t, Lexer.tokenize "gimme x = ;" !! current = Some t
                     /\ Token.type t = "EOF").
Proof.
  apply (parse_stays_within_the_tokens (Lexer.tokenize "gimme x = ;") 50
           (Token.mk "EOF" "" 1 12) 4); reflexivity.
Defined.



(** X6. The parser comes to an end on every token list that holds an
    [EOF]: every loop and every nested call goes over a token first, so a
    fuel of [20] for each token up to the [EOF] and [16] more is never used
    up: [parse] returns a program or raises, and what it gives is what it
    gives with any larger fuel. *)
Theorem parse_comes_to_an_end (tokens : list Token) (eof : Token) (j fuel : nat) :
  tokens !! j = Some eof -> Token.type eof = "EOF" ->
  20 * (j + 1) + 16 <= fuel ->
  ((exists program current, Parser.parse tokens fuel = Parser.Ok program current)
   \/ (exists e, Parser.parse tokens fuel = Parser.Raise e))
  /\ forall fuel', fuel <= fuel' -> Parser.parse tokens fuel' = Parser.parse tokens fuel.
Proof.
  intros Hj Heof Hfuel. pose proof (parse_ends tokens j eof Hj Heof fuel Hfuel) as H.
  split.
  - destruct (Parser.parse tokens fuel) as [program current|e|]; [left | right |]; eauto.
    contradiction.
  - intros fuel' Hle. now apply parse_settles.
Qed.

Lemma parse_comes_to_an_end_witness :
  ((exists program current,
      Parser.parse (Lexer.tokenize Programs.two_statements) 256 =
      Parser.Ok program current)
   \/ (exists e,
         Parser.parse (Lexer.tokenize Programs.two_statements) 256 = Parser.Raise e))
  /\ forall fuel', 256 <= fuel' ->
       Parser.parse (Lexer.tokenize Programs.two_statements) fuel' =
       Parser.parse (Lexer.tokenize Programs.two_statements) 256.
Proof.
  apply (parse_comes_to_an_end (Lexer.tokenize Programs.two_statements)
           (Token.mk "EOF" "" 1 28) 11 256); [reflexivity | reflexivity | lia].
Defined.

Lemma synchronize_loop_stops (tokens : list Token) (eof : Token) (j : nat)
    (fuel c : nat) :
  tokens !! j = Some eof -> Token.type eof = "EOF" ->
  c <= j -> j - c < fuel ->
  exists c', Parser.synchronize_loop tokens fuel c = Parser.Ok tt c'
             /\ c <= c' <= j /\ at_statement_boundary tokens c'.
Proof.
  intros Hj Heof. revert c. induction fuel as [|fuel IH]; intros c Hle Hfuel; [lia|].
  cbn [Parser.synchronize_loop]. unfold Parser.bind at 1.
  destruct (lookup_lt_is_Some_2 tokens c) as [t Ht].
  { pose proof (lookup_lt_Some _ _ _ Hj). lia. }
  rewrite (is_at_end_at tokens c t Ht).
  destruct (String.eqb (Token.type t) "EOF") eqn:Hend.
  - exists c. split; [reflexivity | split; [lia|]]. left.
    now rewrite (is_at_end_at tokens c t Ht), Hend.
  - unfold Parser.bind at 1.
    destruct (previous_at tokens c j eof Hj Hle) as [p Hp]. rewrite Hp.
    destruct (String.eqb (Token.type p) "SEMICOLON") eqn:Hsemi.
    + exists c. split; [reflexivity | split; [lia|]]. right. left.
      exists p. split; [assumption | now apply String.eqb_eq].
    + unfold Parser.bind at 1. rewrite (peek_at tokens c t Ht).
      destruct (existsb _ _) eqn:Hstart.
      * exists c. split; [reflexivity | split; [lia|]]. right. right.
        exists t. split; [apply (peek_at tokens c t Ht)|].
        apply existsb_exists in Hstart as (k & Hin & Hk).
        apply String.eqb_eq in Hk. now rewrite Hk.
      * unfold Parser.bind. rewrite (advance_at tokens c t Ht Hend).
        assert (Hne : c <> j).
        { intros ->. rewrite Hj in Ht. injection Ht as <-.
          rewrite Heof in Hend. discriminate. }
        destruct (IH (c + 1)) as (c' & Hrun & Hbounds & Hpost); [lia | lia |].
        exists c'. split; [exact Hrun | split; [lia | exact Hpost]].
Qed.

(** X7. [_synchronize], on a token list that holds an [EOF] at or after the
    current token, returns without error; it has skipped at least one token
    unless it was at an [EOF] already, never goes beyond the [EOF], and
    stops at the end, just after a [;], or just before a keyword that starts
    a declaration or a statement. *)
Theorem synchronize_stops_at_a_statement_boundary (tokens : list Token)
    (eof : Token) (j fuel c : nat) :
  tokens !! j = Some eof -> Token.type eof = "EOF" ->
  c <= j -> j - c < fuel ->
  exists c', Parser._synchronize tokens fuel c = Parser.Ok tt c'
             /\ c' <= j
             /\ (forall t, tokens !! c = Some t -> Token.type t <> "EOF" -> c < c')
             /\ at_statement_boundary tokens c'.
Proof.
  intros Hj Heof Hle Hfuel.
  unfold Parser._synchronize, Parser.bind.
  destruct (lookup_lt_is_Some_2 tokens c) as [t Ht].
  { pose proof (lookup_lt_Some _ _ _ Hj). lia. }
  destruct (String.eqb (Token.type t) "EOF") eqn:Hend.
  - (* at the end already: [_advance] does not move *)
    assert (Hadv : exists p, Parser._advance tokens c = Parser.Ok p c).
    { unfold Parser._advance, Parser.bind.
      rewrite (is_at_end_at tokens c t Ht), Hend. simpl.
      exact (previous_at tokens c j eof Hj Hle). }
    destruct Hadv as [p ->].
    destruct (synchronize_loop_stops tokens eof j fuel c Hj Heof Hle Hfuel)
      as (c' & Hrun & Hbounds & Hpost).
    exists c'. rewrite Hrun. repeat split; try assumption; try lia.
    intros t' Ht' Hne. rewrite Ht in Ht'. injection Ht' as <-.
    apply String.eqb_eq in Hend. contradiction.
  - rewrite (advance_at tokens c t Ht Hend).
    assert (Hne : c <> j).
    { intros ->. rewrite Hj in Ht. injection Ht as <-.
      rewrite Heof in Hend. discriminate. }
    destruct (synchronize_loop_stops tokens eof j fuel (c + 1) Hj Heof)
      as (c' & Hrun & Hbounds & Hpost); [lia | lia |].
    exists c'. rewrite Hrun. repeat split; try assumption; lia.
Qed.

Lemma synchronize_stops_at_a_statement_boundary_witness :
  exists c', Parser._synchronize (Lexer.tokenize Programs.two_statements) 11 1 =
               Parser.Ok tt c'
             /\ c' <= 11
             /\ (forall t, Lexer.tokenize Programs.two_statements !! 1 = Some t ->
                           Token.type t <> "EOF" -> 1 < c')
             /\ at_statement_boundary (Lexer.tokenize Programs.two_statements) c'.
Proof.
  apply (synchronize_stops_at_a_statement_boundary
           (Lexer.tokenize Programs.two_statements) (Token.mk "EOF" "" 1 28) 11 11 1);
    [reflexivity | reflexivity | lia | lia].
Defined.

(** ** Declarations stay in the environment they are made in *)

Lemma same_names_refl (e : Environment) : same_names e e.
Proof. split; [reflexivity | tauto]. Qed.

Lemma same_names_trans (e1 e2 e3 : Environment) :
  same_names e1 e2 -> same_names e2 e3 -> same_names e1 e3.
Proof.
  intros [E12 H12] [E23 H23]. split; [congruence|].
  intros x. rewrite H23. apply H12.
Qed.

#[local] Instance keeps_names_preorder : PreOrder keeps_names.
Proof.
  split.
  - intros s. split; [reflexivity | split; [lia|]].
    intros i e He. exists e. split; [assumption | apply same_names_refl].
  - intros s1 s2 s3 (E12 & L12 & H12) (E23 & L23 & H23).
    split; [congruence | split; [lia|]].
    intros i e He. destruct (H12 i e He) as (e2 & He2 & N2).
    destruct (H23 i e2 He2) as (e3 & He3 & N3).
    exists e3. split; [assumption | eapply same_names_trans; eassumption].
Qed.

#[local] Instance keeps_names_below_preorder (n : nat) : PreOrder (keeps_names_below n).
Proof.
  split.
  - intros s _ _. split; [reflexivity | split; [lia|]].
    intros i e _ He. exists e. split; [assumption | apply same_names_refl].
  - intros s1 s2 s3 H12 H23 Henv Hlen.
    destruct (H12 Henv Hlen) as (E12 & L12 & N12).
    destruct H23 as (E23 & L23 & N23); [lia | lia |].
    split; [congruence | split; [lia|]].
    intros i e Hi He. destruct (N12 i e Hi He) as (e2 & He2 & N2).
    destruct (N23 i e2 Hi He2) as (e3 & He3 & N3).
    exists e3. split; [assumption | eapply same_names_trans; eassumption].
Qed.

Lemma keeps_names_weaken {A} (n : nat) (m : M A) :
  respects keeps_names m -> respects (keeps_names_below n) m.
Proof.
  intros H s. specialize (H s). destruct (m s) as [a s'|e s'|]; simpl in *;
    try exact I; intros _ _; destruct H as (E & L & N); repeat split; try assumption;
    intros i e0 _ He; exact (N i e0 He).
Qed.

Lemma keeps_names_same_store (s s' : t) :
  store s' = store s -> environment s' = environment s -> keeps_names s s'.
Proof.
  intros Hs He. split; [assumption | split; [now rewrite Hs|]].
  intros i e Hi. exists e. rewrite Hs. split; [assumption | apply same_names_refl].
Qed.

Lemma current_keeps_names : respects keeps_names current.
Proof. intros s. simpl. reflexivity. Qed.

Lemma print_keeps_names (text : string) : respects keeps_names (print text).
Proof. intros s. simpl. now apply keeps_names_same_store. Qed.

Lemma new_object_keeps_names : respects keeps_names new_object.
Proof. intros s. simpl. now apply keeps_names_same_store. Qed.

Lemma get_keeps_names (env : nat) (name : Token) : respects keeps_names (get env name).
Proof.
  intros s. unfold get.
  destruct (lookup_chain _ _ _ _) as [[e|v]|]; simpl; try exact I; reflexivity.
Qed.

(** An assignment gives a new value to a name that is there: it adds none. *)
Lemma assign_chain_keeps_names (fuel : nat) (st : list Environment) (env : nat)
    (name : Token) (v : value) (st' : list Environment) :
  assign_chain fuel st env name v = Some (inr st') ->
  length st' = length st
  /\ forall i e, st !! i = Some e ->
       exists e', st' !! i = Some e' /\ same_names e e'.
Proof.
  revert env. induction fuel as [|fuel IH]; intros env; simpl; [discriminate|].
  destruct (st !! env) as [e0|] eqn:He0; [|discriminate].
  destruct (values e0 !! Token.value name) as [old|] eqn:Hold.
  - intros [= <-]. split; [apply length_insert|]. intros i e Hi.
    destruct (decide (env = i)) as [->|Hne].
    + exists (bound (Token.value name) v e0).
      rewrite list_lookup_insert_eq by (eapply lookup_lt_Some; eassumption).
      assert (e = e0) as -> by congruence.
      split; [reflexivity|]. split; [reflexivity|]. intros x. simpl.
      destruct (decide (Token.value name = x)) as [<-|Hx].
      * rewrite lookup_insert_eq, Hold. split; eauto.
      * now rewrite lookup_insert_ne.
    + exists e. rewrite list_lookup_insert_ne by assumption.
      split; [assumption | apply same_names_refl].
  - destruct (enclosing e0) as [outer|]; [apply IH | discriminate].
Qed.

Lemma assign_keeps_names (env : nat) (name : Token) (v : value) :
  respects keeps_names (assign env name v).
Proof.
  intros s. unfold assign.
  destruct (assign_chain _ _ _ _ _) as [[e|st']|] eqn:Hassign; simpl;
    [reflexivity | | exact I].
  destruct (assign_chain_keeps_names _ _ _ _ _ _ Hassign) as [Hlen Hnames].
  split; [reflexivity | split; [simpl; lia | exact Hnames]].
Qed.

(** [define] touches the environment it is given, and no other. *)
Lemma define_elsewhere (env : nat) (name : string) (v : value) (s : t) (n : nat) :
  n <= env -> n <= environment s -> n <= length (store s) ->
  match define env name v s with
  | Ok _ s' | Raise _ s' =>
      environment s' = environment s
      /\ length (store s) <= length (store s')
      /\ forall i e, i < n -> store s !! i = Some e ->
           exists e', store s' !! i = Some e' /\ same_names e e'
  | OutOfFuel => True
  end.
Proof.
  intros Hn _ _. simpl. split; [reflexivity | split; [now rewrite length_alter|]].
  intros i e Hi He. exists e. rewrite list_lookup_alter_ne by lia.
  split; [assumption | apply same_names_refl].
Qed.

Lemma declare_keeps_names (n : nat) (name : string) (v : value) :
  respects (keeps_names_below n) (env <- current ;; define env name v).
Proof.
  intros s Henv Hlen.
  exact (define_elsewhere (environment s) name v s n Henv Henv Hlen).
Qed.

Lemma declare_function_keeps_names (n : nat) (name : Token) (params : list Token)
    (body : list ast.Statement) :
  respects (keeps_names_below n)
    (closure <- current ;;
     id <- new_object ;;
     define closure (Token.value name) (RoadmanFunction id name params body closure)).
Proof.
  intros s Henv Hlen. simpl.
  split; [reflexivity | split; [now rewrite length_alter|]].
  intros i e Hi He. exists e. rewrite list_lookup_alter_ne by lia.
  split; [assumption | apply same_names_refl].
Qed.

Lemma define_params_elsewhere (env i : nat) (params : list Token)
    (arguments : list value) (s : t) :
  match define_params env i params arguments s with
  | Ok _ s' | Raise _ s' =>
      environment s' = environment s
      /\ length (store s') = length (store s)
      /\ forall j, j <> env -> store s' !! j = store s !! j
  | OutOfFuel => True
  end.
Proof.
  revert i s. induction params as [|param params IH]; intros i s; simpl.
  - auto.
  - destruct (arguments !! i) as [v|]; simpl; [|auto].
    unfold bind. simpl.
    specialize (IH (S i) (with_store s (alter (bound (Token.value param) v) env (store s)))).
    destruct (define_params env (S i) params arguments _) as [a s'|e s'|];
      try exact I; destruct IH as (E & L & N); simpl in *;
      (split; [assumption | split; [now rewrite L, length_alter|]]);
      intros j Hj; rewrite (N j Hj); now apply list_lookup_alter_ne.
Qed.

(** A block or a body run in an environment created for it. *)
Lemma execute_block_keeps_names (n : nat) (execute : ast.Statement -> M unit)
    (statements : list ast.Statement) (env : nat) (s : t) :
  (forall stmt, respects (keeps_names_below n) (execute stmt)) ->
  n <= env -> n <= length (store s) ->
  match _execute_block execute statements env s with
  | Ok _ s' | Raise _ s' =>
      environment s' = environment s
      /\ length (store s) <= length (store s')
      /\ forall i e, i < n -> store s !! i = Some e ->
           exists e', store s' !! i = Some e' /\ same_names e e'
  | OutOfFuel => True
  end.
Proof.
  intros Hexec Henv Hlen.
  unfold _execute_block, bind, current, finally_restore, enter.
  pose proof (respects_for_each (keeps_names_below n) execute statements Hexec
                (with_environment s env)) as H.
  destruct (for_each execute statements (with_environment s env)) as [a s'|e s'|];
    simpl in *; try exact I;
    destruct (H Henv Hlen) as (_ & L & N); auto.
Qed.

Lemma block_keeps_names (execute : ast.Statement -> M unit)
    (statements : list ast.Statement) :
  (forall n stmt, respects (keeps_names_below n) (execute stmt)) ->
  respects keeps_names
    (outer <- current ;;
     env <- Environment_new (Some outer) ;;
     _execute_block execute statements env).
Proof.
  intros Hexec s. unfold bind at 1 2. simpl.
  set (s1 := with_store s _).
  pose proof (execute_block_keeps_names (length (store s)) execute statements
                (length (store s)) s1 (Hexec _) (Nat.le_refl _)) as H.
  assert (Hlen1 : length (store s1) = S (length (store s))).
  { unfold s1. simpl. rewrite length_app. simpl. lia. }
  destruct (_execute_block execute statements (length (store s)) s1) as [a s'|e s'|];
    simpl; try exact I;
    (destruct H as (E & L & N); [lia|];
     split; [exact E | split; [lia|]];
     intros i e0 He0; apply (N i e0);
     [eapply lookup_lt_Some; eassumption
     | unfold s1; simpl; rewrite lookup_app_l by (eapply lookup_lt_Some; eassumption);
       assumption]).
Qed.

Lemma call_keeps_names (execute : ast.Statement -> M unit) (callee : value)
    (arguments : list value) :
  (forall n stmt, respects (keeps_names_below n) (execute stmt)) ->
  respects keeps_names (call execute callee arguments).
Proof.
  intros Hexec. destruct callee as [| | | | |id name params body closure|id]; simpl;
    try apply (respects_raise keeps_names).
  - intros s. unfold bind at 1. simpl. set (s1 := with_store s _).
    assert (Hlen1 : length (store s1) = S (length (store s))).
    { unfold s1. simpl. rewrite length_app. simpl. lia. }
    assert (Hold : forall i e, store s !! i = Some e -> store s1 !! i = Some e).
    { intros i e He. unfold s1. simpl.
      now rewrite lookup_app_l by (eapply lookup_lt_Some; eassumption). }
    unfold bind.
    pose proof (define_params_elsewhere (length (store s)) 0 params arguments s1) as Hp.
    destruct (define_params (length (store s)) 0 params arguments s1) as [a s2|e s2|];
      simpl; try exact I.
    + destruct Hp as (E2 & L2 & N2).
      pose proof (execute_block_keeps_names (length (store s)) execute body
                    (length (store s)) s2 (Hexec _) (Nat.le_refl _)) as H.
      unfold catch_return.
      assert (Hkeep : forall s', 
                 environment s' = environment s2
                 /\ length (store s2) <= length (store s')
                 /\ (forall i e, i < length (store s) -> store s2 !! i = Some e ->
                       exists e', store s' !! i = Some e' /\ same_names e e') ->
                 keeps_names s s').
      { intros s' (E & L & N). split; [now rewrite E, E2 | split; [lia|]].
        intros i e0 He0. apply (N i e0); [eapply lookup_lt_Some; eassumption|].
        rewrite N2; [now apply Hold|].
        apply lookup_lt_Some in He0. lia. }
      destruct (_execute_block execute body (length (store s)) s2) as [b s'|e s'|];
        simpl; try exact I.
      * apply Hkeep, H. lia.
      * destruct e; simpl; apply Hkeep, H; lia.
    + destruct Hp as (E2 & L2 & N2). split; [exact E2 | split; [lia|]].
      intros i e0 He0. exists e0. split; [|apply same_names_refl].
      rewrite N2; [now apply Hold|]. apply lookup_lt_Some in He0. lia.
  - destruct (arguments !! 0).
    + apply (respects_bind keeps_names); [apply print_keeps_names | intros _].
      apply (respects_ret keeps_names).
    + apply (respects_raise keeps_names).
Qed.

Ltac keeps_names_step :=
  first
    [ apply current_keeps_names
    | apply get_keeps_names
    | apply assign_keeps_names
    | apply (respects_ret keeps_names)
    | apply (respects_raise keeps_names)
    | apply respects_out_of_fuel
    | apply (respects_lift keeps_names)
    | apply (respects_collect keeps_names)
    | apply (respects_bind keeps_names); [ | intros ?] ].

Lemma evaluate_execute_keep_names (fuel : nat) :
  (forall expr, respects keeps_names (_evaluate fuel expr))
  /\ (forall n stmt, respects (keeps_names_below n) (_execute fuel stmt)).
Proof.
  induction fuel as [|k [IHe IHs]].
  - split; intros; apply respects_out_of_fuel.
  - split.
    + intros [tok v|tok|op r|l op r|e|name e|callee paren args|elements];
        cbn [_evaluate]; repeat (first [apply IHe | keeps_names_step]).
      destruct (arity a) as [expected|]; [|keeps_names_step].
      destruct (negb _); [keeps_names_step|]. now apply call_keeps_names.
    + intros n [e|statements|name init c|cond th el|cond body|kw|name params body|kw v];
        cbn [_execute].
      * apply keeps_names_weaken.
        apply (respects_bind keeps_names); [apply IHe | intros _].
        apply (respects_ret keeps_names).
      * apply keeps_names_weaken. now apply block_keeps_names.
      * apply (respects_bind (keeps_names_below n)).
        -- apply keeps_names_weaken. destruct init; [apply IHe|].
           apply (respects_ret keeps_names).
        -- intros v. apply declare_keeps_names.
      * apply (respects_bind (keeps_names_below n));
          [apply keeps_names_weaken, IHe | intros a].
        destruct (_is_truthy a); [apply IHs|]. destruct el; [apply IHs|].
        apply (respects_ret (keeps_names_below n)).
      * apply (respects_bind (keeps_names_below n));
          [apply keeps_names_weaken, IHe | intros a].
        destruct (_is_truthy a); [|apply (respects_ret (keeps_names_below n))].
        apply (respects_bind (keeps_names_below n)); [apply IHs | intros _; apply IHs].
      * apply (respects_raise (keeps_names_below n)).
      * apply declare_function_keeps_names.
      * apply (respects_bind (keeps_names_below n)).
        -- apply keeps_names_weaken. destruct v; [apply IHe|].
           apply (respects_ret keeps_names).
        -- intros a. apply (respects_raise (keeps_names_below n)).
Qed.

(** A name that is looked up in vain stays so where the environments keep
    their names. *)
Lemma lookup_chain_undefined (fuel fuel' : nat) (st st' : list Environment)
    (env : nat) (name : Token) (e : exception) :
  (forall i e, st !! i = Some e -> exists e', st' !! i = Some e' /\ same_names e e') ->
  fuel <= fuel' ->
  lookup_chain fuel st env name = Some (inl e) ->
  lookup_chain fuel' st' env name = Some (inl e).
Proof.
  intros Hnames. revert fuel' env.
  induction fuel as [|fuel IH]; intros fuel' env Hle; simpl; [discriminate|].
  destruct fuel' as [|fuel']; [lia|]. simpl.
  destruct (st !! env) as [e0|] eqn:He0; [|discriminate].
  destruct (Hnames env e0 He0) as (e1 & He1 & Henc & Hdom). rewrite He1.
  destruct (values e0 !! Token.value name) as [old|] eqn:Hold; [discriminate|].
  destruct (values e1 !! Token.value name) as [new|] eqn:Hnew.
  - assert (H : is_Some (values e0 !! Token.value name)) by (apply Hdom; eauto).
    rewrite Hold in H. now destruct H.
  - rewrite Henc. destruct (enclosing e0) as [outer|]; [|auto].
    apply IH. lia.
Qed.

Lemma undefined_stays_undefined (s s' : t) (name : Token) (e : exception) :
  keeps_names s s' ->
  get (environment s) name s = Raise e s ->
  get (environment s') name s' = Raise e s'.
Proof.
  intros (E & L & N) H. unfold get in *.
  destruct (lookup_chain (length (store s)) (store s) (environment s) name)
    as [[e0|v]|] eqn:Hchain; try discriminate.
  injection H as ->.
  rewrite E, (lookup_chain_undefined _ _ _ _ _ _ _ N L Hchain). reflexivity.
Qed.

(** ** The exceptions of a run *)

Section RaisesOnly.

Context (P : exception -> Prop).

Lemma raises_only_ret {A} (a : A) : raises_only P (ret a).
Proof. intros s. exact I. Qed.

Lemma raises_only_raise {A} (e : exception) : P e -> raises_only P (@raise A e).
Proof. intros He s. exact He. Qed.

Lemma raises_only_out_of_fuel {A} : raises_only P (@out_of_fuel A).
Proof. intros s. exact I. Qed.

Lemma raises_only_bind {A B} (m : M A) (k : A -> M B) :
  raises_only P m -> (forall a, raises_only P (k a)) -> raises_only P (bind m k).
Proof.
  intros Hm Hk s. unfold bind. specialize (Hm s).
  destruct (m s) as [a s1|e s1|]; [apply Hk | assumption | exact I].
Qed.

Lemma raises_only_lift {A} (r : exception + A) :
  (forall e, r = inl e -> P e) -> raises_only P (lift r).
Proof.
  intros H. destruct r as [e|a]; [apply raises_only_raise; auto | apply raises_only_ret].
Qed.

Lemma raises_only_for_each {A} (f : A -> M unit) (xs : list A) :
  (forall x, raises_only P (f x)) -> raises_only P (for_each f xs).
Proof.
  intros Hf. induction xs as [|x xs IH]; simpl.
  - apply raises_only_ret.
  - apply raises_only_bind; [apply Hf | intros _; exact IH].
Qed.

Lemma raises_only_collect {A B} (f : A -> M B) (xs : list A) :
  (forall x, raises_only P (f x)) -> raises_only P (collect f xs).
Proof.
  intros Hf. induction xs as [|x xs IH]; simpl.
  - apply raises_only_ret.
  - apply raises_only_bind; [apply Hf | intros y].
    apply raises_only_bind; [exact IH | intros ys; apply raises_only_ret].
Qed.

Lemma raises_only_catch_return (body : M unit) :
  raises_only P body -> raises_only P (catch_return body).
Proof.
  intros Hb s. unfold catch_return. specialize (Hb s).
  destruct (body s) as [a s1|e s1|]; [exact I | | exact I].
  destruct e; try assumption; exact I.
Qed.

Lemma raises_only_execute_block (execute : ast.Statement -> M unit)
    (statements : list ast.Statement) (env : nat) :
  (forall stmt, raises_only P (execute stmt)) ->
  raises_only P (_execute_block execute statements env).
Proof.
  intros Hexec s. unfold _execute_block, bind, current, finally_restore, enter.
  pose proof (raises_only_for_each execute statements Hexec (with_environment s env)) as H.
  destruct (for_each execute statements (with_environment s env)); simpl in *;
    [exact I | assumption | exact I].
Qed.

End RaisesOnly.

Lemma get_raises_expected (env : nat) (name : Token) : raises_only expected (get env name).
Proof.
  intros s. unfold get.
  destruct (lookup_chain _ _ _ _) as [[e|v]|] eqn:Hchain; try exact I.
  revert Hchain. generalize (length (store s)) as fuel. intros fuel. revert env.
  induction fuel as [|fuel IH]; intros env; simpl; [discriminate|].
  repeat case_match; try discriminate; [apply IH|].
  intros [= <-]. exact I.
Qed.

Lemma assign_raises_expected (env : nat) (name : Token) (v : value) :
  raises_only expected (assign env name v).
Proof.
  intros s. unfold assign.
  destruct (assign_chain _ _ _ _ _) as [[e|st']|] eqn:Hchain; try exact I.
  revert Hchain. generalize (length (store s)) as fuel. intros fuel. revert env.
  induction fuel as [|fuel IH]; intros env; simpl; [discriminate|].
  repeat case_match; try discriminate; [apply IH|].
  intros [= <-]. exact I.
Qed.

Lemma unary_op_raises_expected (operator : Token) (right : value) (e : exception) :
  unary_op operator right = inl e -> expected e.
Proof.
  unfold unary_op, _check_number_operand.
  repeat case_match; try discriminate; intros [= <-]; simplify_eq; exact I.
Qed.

Lemma check_number_operands_raises_expected (op : Token) (left right : value)
    (e : exception) :
  _check_number_operands op left right = inl e -> expected e.
Proof.
  unfold _check_number_operands. destruct left, right; try discriminate;
    intros [= <-]; exact I.
Qed.

Lemma ordered_raises_expected (op : ordering) (left right : value) (e : exception) :
  ordered op left right = inl e -> expected e.
Proof.
  unfold ordered. destruct (order op left right); [discriminate|].
  intros [= <-]. exact I.
Qed.

Lemma binary_op_raises_expected (operator : Token) (left right : value)
    (e : exception) :
  binary_op operator left right = inl e -> expected e.
Proof.
  unfold binary_op.
  repeat (destruct (is_type operator _));
    try apply ordered_raises_expected; try discriminate;
    try (destruct (_check_number_operands operator left right) as [e0|[x y]] eqn:Hcheck;
         [ intros [= <-]; exact (check_number_operands_raises_expected _ _ _ _ Hcheck)
         | try discriminate ]).
  - destruct left, right; try discriminate; intros [= <-]; exact I.
  - destruct (PrimFloat.eqb y PrimFloat.zero); [|discriminate]. intros [= <-]. exact I.
  - destruct (PyFloat.rem x y); [discriminate|]. intros [= <-]. exact I.
Qed.

Lemma define_params_in_range (env i : nat) (params : list Token)
    (arguments : list value) (s : t) :
  i + length params <= length arguments ->
  exists s1, define_params env i params arguments s = Ok tt s1.
Proof.
  revert i s. induction params as [|param params IH]; intros i s Hlen; simpl.
  - eexists. reflexivity.
  - simpl in Hlen. destruct (lookup_lt_is_Some_2 arguments i) as [v Hv]; [lia|].
    rewrite Hv. unfold bind. simpl. apply IH. lia.
Qed.

(** The check of the number of arguments is what keeps [arguments[i]] in
    range. *)
Lemma call_raises_expected (execute : ast.Statement -> M unit) (callee : value)
    (arguments : list value) :
  (forall stmt, raises_only expected (execute stmt)) ->
  arity callee = Some (length arguments) ->
  raises_only expected (call execute callee arguments).
Proof.
  intros Hexec Harity.
  destruct callee as [| | | | |id name params body closure|id]; try discriminate; simpl.
  - injection Harity as Hlen. intros s. unfold bind at 1. simpl.
    set (s1 := with_store s _). unfold bind.
    destruct (define_params_in_range (length (store s)) 0 params arguments s1)
      as [s2 ->]; [simpl; lia|].
    apply raises_only_catch_return. now apply raises_only_execute_block.
  - injection Harity as Hlen.
    destruct arguments as [|v arguments]; [discriminate|]. simpl.
    intros s. exact I.
Qed.

Lemma evaluate_execute_raise_expected (fuel : nat) :
  (forall expr, raises_only expected (_evaluate fuel expr))
  /\ (forall stmt, raises_only expected (_execute fuel stmt)).
Proof.
  induction fuel as [|k [IHe IHs]].
  - split; intros; apply raises_only_out_of_fuel.
  - split.
    + intros [tok v|tok|op r|l op r|e|name e|callee paren args|elements];
        cbn [_evaluate].
      * apply raises_only_ret.
      * apply raises_only_bind; [intros s; exact I | intros env].
        apply get_raises_expected.
      * apply raises_only_bind; [apply IHe | intros right].
        apply raises_only_lift. apply unary_op_raises_expected.
      * apply raises_only_bind; [apply IHe | intros left].
        apply raises_only_bind; [apply IHe | intros right].
        apply raises_only_lift. apply binary_op_raises_expected.
      * apply IHe.
      * apply raises_only_bind; [apply IHe | intros v].
        apply raises_only_bind; [intros s; exact I | intros env].
        apply raises_only_bind; [apply assign_raises_expected | intros _].
        apply raises_only_ret.
      * apply raises_only_bind; [apply IHe | intros f].
        apply raises_only_bind; [apply raises_only_collect, IHe | intros arguments].
        destruct (arity f) as [n|] eqn:Harity; [|now apply raises_only_raise].
        destruct (length arguments =? n) eqn:Hlen; simpl;
          [|now apply raises_only_raise].
        apply Nat.eqb_eq in Hlen. apply call_raises_expected; [exact IHs|].
        now rewrite Hlen.
      * apply raises_only_bind; [apply raises_only_collect, IHe | intros l].
        apply raises_only_ret.
    + intros [e|statements|name init c|cond th el|cond body|kw|name params body|kw v];
        cbn [_execute].
      * apply raises_only_bind; [apply IHe | intros _; apply raises_only_ret].
      * apply raises_only_bind; [intros s; exact I | intros outer].
        apply raises_only_bind; [intros s; exact I | intros env].
        now apply raises_only_execute_block.
      * apply raises_only_bind;
          [destruct init; [apply IHe | apply raises_only_ret] | intros v].
        apply raises_only_bind; [intros s; exact I | intros env]. intros s. exact I.
      * apply raises_only_bind; [apply IHe | intros a].
        destruct (_is_truthy a); [apply IHs|]. destruct el; [apply IHs|].
        apply raises_only_ret.
      * apply raises_only_bind; [apply IHe | intros a].
        destruct (_is_truthy a); [|apply raises_only_ret].
        apply raises_only_bind; [apply IHs | intros _; apply IHs].
      * now apply raises_only_raise.
      * intros s. exact I.
      * apply raises_only_bind;
          [destruct v; [apply IHe | apply raises_only_ret] | intros a].
        now apply raises_only_raise.
Qed.

(** ** What [interpret] leaves behind *)

(** X8. However [interpret] ends - it returns, after a runtime error that it
    printed or without one, or an exception leaves it - [self.environment]
    is the environment it started in, whichever blocks and calls were under
    way; every environment is still there, encloses what it enclosed and
    has kept its names. (The same interpreter can go on with the next
    program, as the REPL does.) *)
Theorem interpret_restores_the_environment (fuel : nat) (program : ast.Program)
    (s : t) :
  match interpret fuel program s with
  | Returned s' | Propagated _ s' => grows s s'
  | Diverged => True
  end.
Proof.
  unfold interpret.
  pose proof (respects_for_each grows (_execute fuel) (ast.statements program)
                (proj2 (evaluate_execute_grow fuel)) s) as H.
  destruct (for_each _ _ s) as [a s'|e s'|]; simpl in *; [assumption | | exact I].
  destruct e; assumption.
Qed.

(** X9. A block, however it ends, has added no name to an environment that
    was there before it (an assignment in it changes values, not names);
    so a name that was undefined before the block is undefined after it:
    what the block declared is gone with it. *)
Theorem declarations_stay_in_their_block (fuel : nat)
    (statements : list ast.Statement) (s : t) :
  after (_execute fuel (ast.Block statements) s)
    (fun s' =>
       keeps_names s s'
       /\ forall name e, get (environment s) name s = Raise e s ->
            get (environment s') name s' = Raise e s').
Proof.
  pose proof (proj2 (evaluate_execute_keep_names fuel) 0 (ast.Block statements) s) as H.
  assert (Hk : after (_execute fuel (ast.Block statements) s) (keeps_names s)).
  { destruct fuel as [|k]; [exact I|]. cbn [_execute].
    apply block_keeps_names. intros n stmt.
    apply (proj2 (evaluate_execute_keep_names k)). }
  destruct (_execute fuel (ast.Block statements) s) as [a s'|e s'|]; simpl in *;
    try exact I;
    (split; [exact Hk | intros name e0; now apply undefined_stays_undefined]).
Qed.

Lemma declarations_stay_in_their_block_witness :
  after (_execute 3
           (ast.Block [ast.VarDeclaration (Token.mk "IDENTIFIER" "y" 1 9)
                         (Some (ast.Literal (Token.mk "DIGIT" "1" 1 13)
                                            (ast.Float PrimFloat.one))) false])
           init)
    (fun s' => get (environment s') (Token.mk "IDENTIFIER" "y" 2 1) s' =
               Raise (RuntimeError "Undefined variable 'y'.") s').
Proof.
  pose proof (declarations_stay_in_their_block 3
                [ast.VarDeclaration (Token.mk "IDENTIFIER" "y" 1 9)
                   (Some (ast.Literal (Token.mk "DIGIT" "1" 1 13)
                                      (ast.Float PrimFloat.one))) false]
                init) as H.
  destruct (_execute 3 _ init) as [a s'|e s'|]; simpl in *; try exact I;
    apply H; reflexivity.
Defined.

(** X10. The evaluation of an expression, calls of functions included, adds
    no name to an environment that was there before it: the parameters and
    the declarations of a function's body go to the environment created for
    the call. A name that was undefined before a call is undefined after
    it. *)
Theorem calls_declare_in_their_own_environment (fuel : nat) (expr : ast.Expression)
    (s : t) :
  after (_evaluate fuel expr s)
    (fun s' =>
       keeps_names s s'
       /\ forall name e, get (environment s) name s = Raise e s ->
            get (environment s') name s' = Raise e s').
Proof.
  pose proof (proj1 (evaluate_execute_keep_names fuel) expr s) as H.
  destruct (_evaluate fuel expr s) as [a s'|e s'|]; simpl in *; try exact I;
    (split; [exact H | intros name e0; now apply undefined_stays_undefined]).
Qed.

(** X11. The only exceptions that leave [interpret] are [Return] (a
    [returnz] outside any function), the [Exception] of the missing
    [visit_BreakStatement], and the host's [TypeError] and
    [ZeroDivisionError]: never a [RuntimeError], and never an [IndexError]
    or an [AttributeError], since the callee and the number of arguments
    are checked before [call] reads [arguments[i]]. *)
Theorem interpret_propagates_only (fuel : nat) (program : ast.Program) (s : t) :
  match interpret fuel program s with
  | Propagated e _ => expected e /\ forall msg, e <> RuntimeError msg
  | _ => True
  end.
Proof.
  unfold interpret.
  pose proof (raises_only_for_each expected (_execute fuel) (ast.statements program)
                (proj2 (evaluate_execute_raise_expected fuel)) s) as H.
  destruct (for_each _ _ s) as [a s'|e s'|]; [exact I | | exact I].
  destruct e; try exact I; (split; [exact H | discriminate]).
Qed.

(** ** Operators the interpreter leaves to chance *)

Lemma binary_op_logical (operator : Token) (left right : value) :
  In (Token.type operator) ["AND"; "OR"] ->
  binary_op operator left right = inr VNone.
Proof.
  intros Hop. simpl in Hop. unfold binary_op, is_type.
  destruct Hop as [H|[H|[]]]; rewrite <- H; reflexivity.
Qed.

(** X12. [&&] and [||], which the parser turns into a [BinaryOp], have no
    case in [visit_BinaryOp]: both operands are evaluated, whatever the left
    one is, and the value is [None]. As a condition it is false: an [innit]
    on it takes its [elseway] branch, or does nothing. *)
Theorem logical_operators_yield_none (fuel : nat)
    (left_node right_node : ast.Expression) (operator : Token)
    (then_branch : ast.Statement) (else_branch : option ast.Statement)
    (left right : value) (s s1 s2 : t) :
  In (Token.type operator) ["AND"; "OR"] ->
  _evaluate fuel left_node s = Ok left s1 ->
  _evaluate fuel right_node s1 = Ok right s2 ->
  _evaluate (S fuel) (ast.BinaryOp left_node operator right_node) s = Ok VNone s2
  /\ _execute (S (S fuel))
       (ast.IfStatement (ast.BinaryOp left_node operator right_node)
                        then_branch else_branch) s =
     match else_branch with
     | Some stmt => _execute (S fuel) stmt s2
     | None => Ok tt s2
     end.
Proof.
  intros Hop Hleft Hright.
  assert (Hnone : _evaluate (S fuel) (ast.BinaryOp left_node operator right_node) s =
                  Ok VNone s2).
  { cbn [_evaluate]. unfold bind. rewrite Hleft, Hright.
    now rewrite (binary_op_logical operator left right Hop). }
  split; [exact Hnone|].
  cbn [_execute]. unfold bind. rewrite Hnone. simpl.
  destruct else_branch; reflexivity.
Qed.

Lemma logical_operators_yield_none_witness :
  _evaluate 2
    (ast.BinaryOp (ast.Literal (Token.mk "TRUE" "true" 1 1) (ast.Bool true))
                  (Token.mk "AND" "&&" 1 6)
                  (ast.Literal (Token.mk "TRUE" "true" 1 9) (ast.Bool true)))
    init = Ok VNone init
  /\ run_code Programs.conjunction = Some ["None"; "no"].
Proof.
  split.
  - apply (logical_operators_yield_none 1
             (ast.Literal (Token.mk "TRUE" "true" 1 1) (ast.Bool true))
             (ast.Literal (Token.mk "TRUE" "true" 1 9) (ast.Bool true))
             (Token.mk "AND" "&&" 1 6)
             (ast.BreakStatement (Token.mk "STOPIT" "stopit" 1 1)) None
             (VBool true) (VBool true) init init init);
      [simpl; auto | reflexivity | reflexivity].
  - vm_compute. reflexivity.
Defined.

Lemma binary_op_percent_zero (operator : Token) (x y : float) :
  Token.type operator = "PERCENT" ->
  PrimFloat.eqb y PrimFloat.zero = true ->
  binary_op operator (VFloat x) (VFloat y) = inl ZeroDivisionError.
Proof.
  intros Htype Hzero. unfold binary_op, is_type. rewrite Htype. simpl.
  unfold PyFloat.rem. now rewrite Hzero.
Qed.

(** X13. [%] has no check of its right operand, unlike [/]: on two numbers
    the second of which is zero, the host's [ZeroDivisionError] is raised,
    which [interpret] does not catch: nothing is printed for it, and it
    reaches the caller. *)
Theorem modulo_by_zero_escapes (fuel : nat)
    (left_node right_node : ast.Expression) (operator : Token)
    (x y : float) (s s1 s2 : t) :
  Token.type operator = "PERCENT" ->
  _evaluate fuel left_node s = Ok (VFloat x) s1 ->
  _evaluate fuel right_node s1 = Ok (VFloat y) s2 ->
  PrimFloat.eqb y PrimFloat.zero = true ->
  _evaluate (S fuel) (ast.BinaryOp left_node operator right_node) s =
    Raise ZeroDivisionError s2
  /\ (forall pre post s0,
        for_each (_execute (S (S fuel))) pre s0 = Ok tt s ->
        interpret (S (S fuel))
          (ast.mkProgram
             (pre ++ ast.ExpressionStatement
                       (ast.BinaryOp left_node operator right_node) :: post)) s0 =
        Propagated ZeroDivisionError s2).
Proof.
  intros Htype Hleft Hright Hzero.
  assert (Hmod : _evaluate (S fuel) (ast.BinaryOp left_node operator right_node) s =
                 Raise ZeroDivisionError s2).
  { cbn [_evaluate]. unfold bind. rewrite Hleft, Hright.
    now rewrite (binary_op_percent_zero operator x y Htype Hzero). }
  split; [exact Hmod|].
  intros pre post s0 Hpre.
  rewrite (interpret_raise (S (S fuel)) pre post
             (ast.ExpressionStatement (ast.BinaryOp left_node operator right_node))
             s0 s s2 ZeroDivisionError Hpre); [reflexivity|].
  change (bind (_evaluate (S fuel) (ast.BinaryOp left_node operator right_node))
               (fun _ => ret tt) s = Raise ZeroDivisionError s2).
  unfold bind. now rewrite Hmod.
Qed.

Lemma modulo_by_zero_escapes_witness :
  _evaluate 2
    (ast.BinaryOp (ast.Literal (Token.mk "DIGIT" "1" 1 1) (ast.Float PrimFloat.one))
                  (Token.mk "PERCENT" "%" 1 3)
                  (ast.Literal (Token.mk "DIGIT" "0" 1 5) (ast.Float PrimFloat.zero)))
    init = Raise ZeroDivisionError init
  /\ option_map (fun o => (Examples.printed o, Examples.escaped o))
       (Examples.interpret_source Programs.modulo_by_zero) =
     Some (["1.0"], Some ZeroDivisionError).
Proof.
  split.
  - apply (modulo_by_zero_escapes 1
             (ast.Literal (Token.mk "DIGIT" "1" 1 1) (ast.Float PrimFloat.one))
             (ast.Literal (Token.mk "DIGIT" "0" 1 5) (ast.Float PrimFloat.zero))
             (Token.mk "PERCENT" "%" 1 3) PrimFloat.one PrimFloat.zero init init init);
      reflexivity.
  - vm_compute. reflexivity.
Defined.

(** ** Declared, then read *)

(** X14. Once a declaration whose initializer evaluates has run, its name
    reads as the value of the initializer, whatever calls the initializer
    made; the name may have been declared before, in the same environment:
    a second [gimme] (or [conste]) of a name is no error and replaces the
    first. *)
Theorem declared_variable_is_read (fuel : nat) (name token : Token)
    (initializer : ast.Expression) (constant : bool) (v : value) (s s1 : t) :
  is_Some (store s !! environment s) ->
  Token.value token = Token.value name ->
  _evaluate fuel initializer s = Ok v s1 ->
  exists s2,
    _execute (S fuel) (ast.VarDeclaration name (Some initializer) constant) s = Ok tt s2
    /\ _evaluate 1 (ast.Variable_ token) s2 = Ok v s2.
Proof.
  intros [e He] Htoken Hinit.
  pose proof (proj1 (evaluate_execute_grow fuel) initializer s) as Hg.
  rewrite Hinit in Hg. destruct Hg as [Henv Hstore].
  destruct (Hstore _ _ He) as (e1 & He1 & _ & _).
  eexists. split.
  - cbn [_execute]. unfold bind. rewrite Hinit. reflexivity.
  - cbn [_evaluate]. unfold bind. simpl.
    apply (get_defined_here _ _ (bound (Token.value name) v e1)).
    + simpl. rewrite Henv, list_lookup_alter_eq, He1. reflexivity.
    + simpl. rewrite Htoken. apply lookup_insert_eq.
Qed.

Lemma declared_variable_is_read_witness :
  (exists s2,
     _execute 2
       (ast.VarDeclaration (Token.mk "IDENTIFIER" "say" 1 7)
          (Some (ast.Literal (Token.mk "DIGIT" "1" 1 13) (ast.Float PrimFloat.one)))
          false) init = Ok tt s2
     /\ _evaluate 1 (ast.Variable_ (Token.mk "IDENTIFIER" "say" 2 1)) s2 =
        Ok (VFloat PrimFloat.one) s2)
  /\ run_code Programs.declared_twice = Some ["1.0"; "2.0"].
Proof.
  split.
  - apply (declared_variable_is_read 1
             (Token.mk "IDENTIFIER" "say" 1 7) (Token.mk "IDENTIFIER" "say" 2 1)
             (ast.Literal (Token.mk "DIGIT" "1" 1 13) (ast.Float PrimFloat.one))
             false (VFloat PrimFloat.one) init init);
      [eexists; reflexivity | reflexivity | reflexivity].
  - vm_compute. reflexivity.
Defined.

(** ** The parameters of a call *)

(** [define_params] on enough arguments: each parameter is bound to the
    argument of its rank, a later parameter of the same name winning; the
    other names of the environment are as they were. *)
Lemma define_params_binds (env i : nat) (params : list Token)
    (arguments : list value) (s : t) (e : Environment) :
  store s !! env = Some e ->
  i + length params <= length arguments ->
  exists s' e',
    define_params env i params arguments s = Ok tt s'
    /\ environment s' = environment s
    /\ length (store s') = length (store s)
    /\ store s' !! env = Some e'
    /\ enclosing e' = enclosing e
    /\ (forall k p v,
          params !! k = Some p -> arguments !! (i + k) = Some v ->
          (forall k' p', k < k' -> params !! k' = Some p' ->
                         Token.value p' <> Token.value p) ->
          values e' !! Token.value p = Some v)
    /\ (forall x, (forall p, In p params -> Token.value p <> x) ->
                  values e' !! x = values e !! x).
Proof.
  revert i s e. induction params as [|q params IH]; intros i s e He Hlen; simpl.
  - exists s, e. repeat split; try assumption; try reflexivity.
    intros k p v Hk. discriminate.
  - simpl in Hlen. destruct (lookup_lt_is_Some_2 arguments i) as [v0 Hv0]; [lia|].
    rewrite Hv0. unfold bind. simpl.
    set (s1 := with_store s (alter (bound (Token.value q) v0) env (store s))).
    assert (He1 : store s1 !! env = Some (bound (Token.value q) v0 e)).
    { unfold s1. simpl. now rewrite list_lookup_alter_eq, He. }
    destruct (IH (S i) s1 _ He1) as (s' & e' & Hrun & Henv & Hlen' & He' & Henc & Hbind & Hframe);
      [lia|].
    exists s', e'. split; [exact Hrun|]. split; [exact Henv|].
    split; [now rewrite Hlen'; unfold s1; simpl; rewrite length_alter|].
    split; [exact He'|]. split; [exact Henc|]. split.
    + intros [|k] p v Hp Hv Hlast; simpl in Hp.
      * injection Hp as ->. rewrite Hframe.
        -- simpl. rewrite lookup_insert_eq. rewrite Nat.add_0_r in Hv. congruence.
        -- intros p' Hin. apply list_elem_of_In, list_elem_of_lookup_1 in Hin as [k' Hk'].
           apply (Hlast (S k') p'); [lia | exact Hk'].
      * apply (Hbind k p v Hp); [now replace (S i + k) with (i + S k) by lia|].
        intros k' p' Hlt Hp'. apply (Hlast (S k') p'); [lia | exact Hp'].
    + intros x Hx. rewrite Hframe.
      * simpl. apply lookup_insert_ne. apply Hx. now left.
      * intros p Hin. apply Hx. now right.
Qed.

(** X15. A call of a function with as many arguments as it has parameters
    runs the body in a new environment that encloses the closure, and in
    which each parameter reads as the argument of its rank; of two
    parameters of the same name, the later one is the one that counts. *)
Theorem parameters_are_bound_by_position (execute : ast.Statement -> M unit)
    (id : nat) (name : Token) (params : list Token) (body : list ast.Statement)
    (closure : nat) (arguments : list value) (s : t) :
  length arguments = length params ->
  exists s1 e1,
    call execute (RoadmanFunction id name params body closure) arguments s =
      catch_return (_execute_block execute body (length (store s))) s1
    /\ store s !! length (store s) = None
    /\ store s1 !! length (store s) = Some e1
    /\ enclosing e1 = Some closure
    /\ environment s1 = environment s
    /\ forall k p v,
         params !! k = Some p -> arguments !! k = Some v ->
         (forall k' p', k < k' -> params !! k' = Some p' ->
                        Token.value p' <> Token.value p) ->
         get (length (store s)) p s1 = Ok v s1.
Proof.
  intros Hlen. cbn [call]. unfold bind at 1. simpl.
  set (s0 := with_store s (store s ++ [mkEnvironment ∅ (Some closure)])).
  assert (He0 : store s0 !! length (store s) = Some (mkEnvironment ∅ (Some closure))).
  { unfold s0. simpl. rewrite lookup_app_r by lia. now rewrite Nat.sub_diag. }
  destruct (define_params_binds (length (store s)) 0 params arguments s0 _ He0)
    as (s1 & e1 & Hrun & Henv & Hlen1 & He1 & Henc & Hbind & _); [simpl; lia|].
  exists s1, e1. unfold bind. rewrite Hrun.
  split; [reflexivity|]. split; [apply lookup_ge_None_2; lia|].
  split; [exact He1|]. split; [exact Henc|]. split; [exact Henv|].
  intros k p v Hp Hv Hlast.
  apply (get_defined_here s1 _ e1 p v He1). now apply (Hbind k p v).
Qed.

Lemma parameters_are_bound_by_position_witness :
  exists s1 e1,
    call (_execute 5)
      (RoadmanFunction 1 (Token.mk "IDENTIFIER" "f" 1 5)
         [Token.mk "IDENTIFIER" "a" 1 7; Token.mk "IDENTIFIER" "a" 1 10] [] 0)
      [VFloat PrimFloat.one; VFloat PrimFloat.zero] init =
      catch_return (_execute_block (_execute 5) [] (length (store init))) s1
    /\ store init !! length (store init) = None
    /\ store s1 !! length (store init) = Some e1
    /\ enclosing e1 = Some 0
    /\ environment s1 = environment init
    /\ forall k p v,
         [Token.mk "IDENTIFIER" "a" 1 7; Token.mk "IDENTIFIER" "a" 1 10] !! k = Some p ->
         [VFloat PrimFloat.one; VFloat PrimFloat.zero] !! k = Some v ->
         (forall k' p', k < k' ->
            [Token.mk "IDENTIFIER" "a" 1 7; Token.mk "IDENTIFIER" "a" 1 10] !! k' = Some p' ->
            Token.value p' <> Token.value p) ->
         get (length (store init)) p s1 = Ok v s1.
Proof.
  apply (parameters_are_bound_by_position (_execute 5) 1 (Token.mk "IDENTIFIER" "f" 1 5)
           [Token.mk "IDENTIFIER" "a" 1 7; Token.mk "IDENTIFIER" "a" 1 10] [] 0
           [VFloat PrimFloat.one; VFloat PrimFloat.zero] init).
  reflexivity.
Defined.
